(** * Letter Boxed solver

    A shallow embedding of [src/index.ts] and the properties of its
    pipeline: letter graph, trie-guided word finder, dominance filter,
    word graph and solution search.

    JavaScript values are modelled as follows.
    - [string] is a sequence of code units ([ascii]); [s.length] is
      [String.length].
    - An array is a [list]; [push] appends, [pop] is [removelast].
    - A [Set] and a [Map] keep insertion order, so they are lists without
      repeated elements (resp. keys); see [JsSet] and [JsMap].
    - The two npm packages the program imports, [@dagrejs/graphlib] and
      [trie-search], are not part of the repository; the modules [Graph] and
      [TrieSearch] model the calls the program makes on them. *)

From Stdlib Require Import String Ascii DecimalString Arith Bool Lia List.
Import ListNotations.
Local Open Scope string_scope.
Local Open Scope nat_scope.
Local Open Scope list_scope.

Set Implicit Arguments.

(** ** Equality tests *)

Class EqType (A : Type) := { eqb : A -> A -> bool }.

#[export] Instance string_EqType : EqType string := {| eqb := String.eqb |}.

#[export] Instance ascii_EqType : EqType ascii := {| eqb := Ascii.eqb |}.

Definition option_eqb {A} `{EqType A} (x y : option A) : bool :=
  match x, y with
  | Some a, Some b => eqb a b
  | None, None => true
  | _, _ => false
  end.

#[export] Instance option_EqType {A} `{EqType A} : EqType (option A) :=
  {| eqb := option_eqb |}.

(** The tests decide equality. *)
Class EqLaws (A : Type) `{EqType A} : Prop :=
  eqb_iff : forall x y : A, eqb x y = true <-> x = y.
Arguments EqLaws A {_}.

(** ** JavaScript [Set]: insertion-ordered, no repeated element *)

Module JsSet.
Section Ops.
Context {A : Type} `{EqType A}.

Definition has (x : A) (s : list A) : bool := existsb (eqb x) s.

Definition add (x : A) (s : list A) : list A :=
  if has x s then s else s ++ [x].

(** [addAll l s]: [l.forEach(x => s.add(x))]. *)
Definition addAll (l : list A) (s : list A) : list A :=
  fold_left (fun s x => add x s) l s.

(** [new Set(l)]. *)
Definition of_list (l : list A) : list A := addAll l [].

Definition size (s : list A) : nat := length s.
End Ops.
End JsSet.

(** ** JavaScript [Map]: insertion-ordered association list *)

Module JsMap.
Section Ops.
Context {K V : Type} `{EqType K}.

Fixpoint get (k : K) (m : list (K * V)) : option V :=
  match m with
  | [] => None
  | (k', v) :: m' => if eqb k k' then Some v else get k m'
  end.

Definition has (k : K) (m : list (K * V)) : bool :=
  match get k m with Some _ => true | None => false end.

Fixpoint set (k : K) (v : V) (m : list (K * V)) : list (K * V) :=
  match m with
  | [] => [(k, v)]
  | (k', v') :: m' => if eqb k k' then (k, v) :: m' else (k', v') :: set k v m'
  end.

Definition keys (m : list (K * V)) : list K := map fst m.
End Ops.
End JsMap.

(** [arr || []] for a possibly undefined array. *)
Definition orEmpty {A} (o : option (list A)) : list A :=
  match o with Some l => l | None => [] end.

(** [for (let i = lo; i < hi; i++) body]. *)
Definition forRange {S} (lo hi : nat) (body : nat -> S -> S) (s : S) : S :=
  fold_left (fun s i => body i s) (seq lo (hi - lo)) s.

(** Template-literal rendering of a number: [`${n}`]. *)
Definition string_of_nat (n : nat) : string :=
  NilEmpty.string_of_uint (Nat.to_uint n).

(** [arr.join(sep)] on an array of strings. *)
Definition join (sep : string) (arr : list string) : string :=
  String.concat sep arr.

(** [s.toLowerCase()] on 7-bit characters. *)
Definition lowerChar (c : ascii) : ascii :=
  let n := nat_of_ascii c in
  if (65 <=? n) && (n <=? 90) then ascii_of_nat (n + 32) else c.

Fixpoint toLowerCase (s : string) : string :=
  match s with
  | EmptyString => EmptyString
  | String c s' => String (lowerChar c) (toLowerCase s')
  end.

(** [s.split(sep)] for a separator of one character. *)
Fixpoint splitOn (sep : ascii) (s : string) : list string :=
  match s with
  | EmptyString => [EmptyString]
  | String c s' =>
      if Ascii.eqb c sep then EmptyString :: splitOn sep s'
      else match splitOn sep s' with
           | p :: ps => String c p :: ps
           | [] => [String c EmptyString]
           end
  end.

(** ** Records of the program *)

Module TriNode.
Record t := mk { word : string }.
End TriNode.

Record LetterBoxWord := {
  word : string;
  nodeKeys : list string
}.

Record LetterBoxSolution := {
  numSeenLetterNodes : nat;
  letterBoxWordList : list LetterBoxWord
}.

(** ** Reading the dictionary *)

Definition isAlpha (c : ascii) : bool :=
  let n := nat_of_ascii c in
  ((65 <=? n) && (n <=? 90)) || ((97 <=? n) && (n <=? 122)).

Fixpoint allChars (p : ascii -> bool) (s : string) : bool :=
  match s with
  | EmptyString => true
  | String c s' => p c && allChars p s'
  end.

(** [/^[a-zA-Z]+$/.test(word)]. *)
Definition isAlphaWord (w : string) : bool :=
  negb (String.eqb w "") && allChars isAlpha w.

(** [getWords], from the contents of the file rather than its path. *)
Definition getWords (wordsContents : string) : list string :=
  let words := map toLowerCase
                   (filter isAlphaWord (splitOn "010"%char wordsContents)) in
  JsSet.of_list words.

(** ** The graph package

    Modelled from the spec: the Letter Graph and the Word Graph are objects
    of the npm package [@dagrejs/graphlib], whose code is not in the
    repository.  [Graph.Graph L] models a graph of the package whose node
    labels have type [L] (no multigraph, no compound graph, no edge labels:
    the options the program uses).  Node keys are kept in insertion order,
    which is what [nodes()], [successors()] and [predecessors()] enumerate
    for keys that are not canonical array indices; every key the program
    makes contains a colon. *)

Module Graph.
Section Label.
Context {L : Type}.

Record Graph := mk {
  isDirected : bool;
  nodeLabels : list (string * option L);
  edgeObjs : list (string * string)
}.

(** [new Graph.Graph({directed: d})]. *)
Definition new (d : bool) : Graph :=
  {| isDirected := d; nodeLabels := []; edgeObjs := [] |}.

Definition hasNode (g : Graph) (v : string) : bool :=
  JsMap.has v (nodeLabels g).

(** [g.setNode(v, value)]: the label is overwritten when [v] exists. *)
Definition setNode (g : Graph) (v : string) (value : L) : Graph :=
  {| isDirected := isDirected g;
     nodeLabels := JsMap.set v (Some value) (nodeLabels g);
     edgeObjs := edgeObjs g |}.

(** [g.setNode(v)]: creates [v] with an undefined label when missing. *)
Definition ensureNode (g : Graph) (v : string) : Graph :=
  if hasNode g v then g
  else {| isDirected := isDirected g;
          nodeLabels := nodeLabels g ++ [(v, None)];
          edgeObjs := edgeObjs g |}.

(** [g.node(v)]; [None] is [undefined]. *)
Definition node (g : Graph) (v : string) : option L :=
  match JsMap.get v (nodeLabels g) with
  | Some l => l
  | None => None
  end.

Definition nodes (g : Graph) : list string := JsMap.keys (nodeLabels g).

Definition nodeCount (g : Graph) : nat := length (nodeLabels g).

(** Undirected edges are stored with their end points in increasing
    order ([if (!isDirected && v > w) swap]). *)
Definition edgeArgs (d : bool) (v w : string) : string * string :=
  if negb d && String.ltb w v then (w, v) else (v, w).

Definition edge_eqb (e1 e2 : string * string) : bool :=
  String.eqb (fst e1) (fst e2) && String.eqb (snd e1) (snd e2).

Definition hasEdge (g : Graph) (v w : string) : bool :=
  existsb (edge_eqb (edgeArgs (isDirected g) v w)) (edgeObjs g).

(** [g.setEdge(v, w)]: nothing changes when the edge exists; otherwise
    both end points are created if missing and the edge is recorded. *)
Definition setEdge (g : Graph) (v w : string) : Graph :=
  if hasEdge g v w then g
  else
    let g1 := ensureNode (ensureNode g v) w in
    {| isDirected := isDirected g1;
       nodeLabels := nodeLabels g1;
       edgeObjs := edgeObjs g1 ++ [edgeArgs (isDirected g) v w] |}.

Definition successors (g : Graph) (v : string) : option (list string) :=
  if hasNode g v
  then Some (map snd (filter (fun e => String.eqb (fst e) v) (edgeObjs g)))
  else None.

Definition predecessors (g : Graph) (v : string) : option (list string) :=
  if hasNode g v
  then Some (map fst (filter (fun e => String.eqb (snd e) v) (edgeObjs g)))
  else None.

(** [g.neighbors(v)]: the union of predecessors and successors. *)
Definition neighbors (g : Graph) (v : string) : option (list string) :=
  match predecessors g v with
  | Some preds => Some (JsSet.addAll (orEmpty (successors g v)) (JsSet.of_list preds))
  | None => None
  end.
End Label.
Arguments Graph : clear implicits.
End Graph.

(** ** Letter Graph Builder *)

(** [`${i}${letterI}:${letter}`]. *)
Definition letterKey (i letterI : nat) (letter : string) : string :=
  (string_of_nat i ++ string_of_nat letterI ++ ":" ++ letter)%string.

Definition createLetterBoxGraph (sides : list (list string)) : Graph.Graph string :=
  forRange 0 (length sides) (fun i graph =>
    let side1 := nth i sides [] in
    forRange (i + 1) (length sides) (fun j graph =>
      let side2 := nth j sides [] in
      forRange 0 (length side1) (fun letterI graph =>
        let letter1 := nth letterI side1 "" in
        let letter1Key := letterKey i letterI letter1 in
        forRange 0 (length side2) (fun letterJ graph =>
          let letter2 := nth letterJ side2 "" in
          let letter2Key := letterKey j letterJ letter2 in
          let graph := Graph.setNode graph letter1Key letter1 in
          let graph := Graph.setNode graph letter2Key letter2 in
          Graph.setEdge graph letter1Key letter2Key) graph) graph) graph)
    (Graph.new false).

(** ** The trie package

    Modelled from the spec: the Trie Index is the npm package [trie-search],
    whose code is not in the repository.  The model follows the package with
    its default options ([ignoreCase], [min = 1], keys and phrases split on
    white space) on strings of 7-bit characters: a node holds the items
    whose key ends there ([value]) and one child per next character, in
    insertion order; a search walks down the phrase and collects the items
    of the node reached before those of its descendants.  Items are
    compared by content, which is object identity for the items
    [createTrie] makes from a [Set] of words. *)

Module TrieSearch.

Unset Elimination Schemes.
Inductive node : Type :=
| Node (value : list TriNode.t) (children : list (ascii * node)).
Set Elimination Schemes.

Definition value (n : node) : list TriNode.t :=
  match n with Node v _ => v end.

Definition children (n : node) : list (ascii * node) :=
  match n with Node _ cs => cs end.

(** [new TrieSearch('word')]: the root is an empty object. *)
Definition new : node := Node [] [].

(** [/\s/] on 7-bit characters. *)
Definition isSpace (c : ascii) : bool :=
  let n := nat_of_ascii c in ((9 <=? n) && (n <=? 13)) || (n =? 32).

(** [s.split(/\s/g)]: the pieces between white-space characters. *)
Fixpoint splitSpace (s : string) : list string :=
  match s with
  | EmptyString => [EmptyString]
  | String c s' =>
      if isSpace c then EmptyString :: splitSpace s'
      else match splitSpace s' with
           | p :: ps => String c p :: ps
           | [] => [String c EmptyString]
           end
  end.

Fixpoint hasSpace (s : string) : bool :=
  match s with
  | EmptyString => false
  | String c s' => isSpace c || hasSpace s'
  end.

(** [insert(keyArr, value, node)] of [map]. *)
Fixpoint insert (keyArr : string) (v : TriNode.t) (n : node) : node :=
  match keyArr with
  | EmptyString => Node (value n ++ [v]) (children n)
  | String k rest =>
      let c := match JsMap.get k (children n) with
               | Some c => c
               | None => new
               end in
      Node (value n) (JsMap.set k (insert rest v c) (children n))
  end.

(** [map(key, value)]: a key with white space is indexed under each of
    its pieces, unless all of them are blank.  (The [lastIndex] of the
    global regular expression, which only moves on keys that contain
    white space, is not modelled.) *)
Definition map (key : string) (v : TriNode.t) (t : node) : node :=
  if hasSpace key then
    let phrases := splitSpace key in
    if forallb (fun p => String.eqb p "") phrases
    then insert (toLowerCase key) v t
    else fold_left
           (fun t p => if String.eqb p "" then t else insert (toLowerCase p) v t)
           phrases t
  else insert (toLowerCase key) v t.

(** [add(obj)] with the single key field [word]; an empty key is
    skipped ([if (!val) continue]). *)
Definition add (obj : TriNode.t) (t : node) : node :=
  let val := TriNode.word obj in
  if String.eqb val "" then t else map val obj t.

(** [findNode(key)]. *)
Fixpoint findNode (key : string) (n : node) : option node :=
  match key with
  | EmptyString => Some n
  | String k rest =>
      match JsMap.get k (children n) with
      | Some c => findNode rest c
      | None => None
      end
  end.

(** [aggregate(node, ha)] without a limit. *)
Fixpoint aggregate (n : node) : list TriNode.t :=
  match n with
  | Node v cs =>
      v ++ (fix over (cs : list (ascii * node)) : list TriNode.t :=
              match cs with
              | [] => []
              | (_, c) :: cs' => aggregate c ++ over cs'
              end) cs
  end.

Fixpoint depth (n : node) : nat :=
  match n with
  | Node _ cs =>
      (fix over (cs : list (ascii * node)) : nat :=
         match cs with
         | [] => 0
         | (_, c) :: cs' => Nat.max (S (depth c)) (over cs')
         end) cs
  end.

(** The hash array the results go through: items in insertion order,
    the same item never twice. *)
Definition item_eqb (a b : TriNode.t) : bool :=
  String.eqb (TriNode.word a) (TriNode.word b).

Definition haAdd (x : TriNode.t) (ha : list TriNode.t) : list TriNode.t :=
  if existsb (item_eqb x) ha then ha else ha ++ [x].

Definition haAddAll (l ha : list TriNode.t) : list TriNode.t :=
  fold_left (fun ha x => haAdd x ha) l ha.

(** [collides(item)]: some stored item has the same [word]. *)
Definition collides (ha : list TriNode.t) (x : TriNode.t) : bool :=
  existsb (fun y => String.eqb (TriNode.word y) (TriNode.word x)) ha.

Definition intersection (ha other : list TriNode.t) : list TriNode.t :=
  haAddAll (filter (fun x => collides ha x && collides other x) (ha ++ other)) [].

(** [_get(phrase)]: every piece of the phrase of at least [min]
    characters is looked up and the results are intersected. *)
Definition get1 (phrase : string) (t : node) : list TriNode.t :=
  let words := splitSpace (toLowerCase phrase) in
  let ret :=
    fold_left
      (fun (ret : option (list TriNode.t)) w =>
         if String.length w <? 1 then ret
         else
           let temp := match findNode w t with
                       | Some n => haAddAll (aggregate n) []
                       | None => []
                       end in
           Some (match ret with
                 | Some r => intersection r temp
                 | None => temp
                 end))
      words None in
  match ret with Some r => r | None => [] end.

(** [search(phrase)]. *)
Definition search (phrase : string) (t : node) : list TriNode.t :=
  haAddAll (get1 phrase t) [].

End TrieSearch.

(** ** Trie Index *)

Definition createTrie (words : list string) : TrieSearch.node :=
  fold_left (fun trie word => TrieSearch.add (TriNode.mk word) trie)
            words TrieSearch.new.

Definition isWord (s : string) (trie : TrieSearch.node) : bool :=
  if String.length s <? 3 then false
  else
    let words := TrieSearch.search s trie in
    (0 <? length words) &&
    match words with
    | w :: _ => String.eqb (TriNode.word w) s
    | [] => false
    end.

Definition isPrefix (prefix : string) (trie : TrieSearch.node) : bool :=
  let words := TrieSearch.search prefix trie in
  0 <? length words.

(** ** Word Finder *)

(** A [for ... of] loop whose body may run out of fuel. *)
Fixpoint forEachM {A S} (body : A -> S -> option S) (l : list A) (s : S) : option S :=
  match l with
  | [] => Some s
  | x :: l' =>
      match body x s with
      | Some s' => forEachM body l' s'
      | None => None
      end
  end.

(** [path.map(pathNodeKey => graph.node(pathNodeKey)).join('')]: an
    undefined label is rendered as the empty string. *)
Definition pathPrefix (graph : Graph.Graph string) (path : list string) : string :=
  join "" (map (fun pathNodeKey =>
                  match Graph.node graph pathNodeKey with
                  | Some l => l
                  | None => ""
                  end) path).

(** The mutable arguments [path], [seenPaths] and [words] are threaded
    through the call and returned; [None] means that [fuel] nested calls
    were not enough. *)
Fixpoint visitNode (fuel : nat) (nodeKey : string) (path seenPaths : list string)
    (graph : Graph.Graph string) (trie : TrieSearch.node)
    (words : list LetterBoxWord)
    : option (list string * list string * list LetterBoxWord) :=
  match fuel with
  | 0 => None
  | S fuel' =>
      let path := path ++ [nodeKey] in
      let pathKey := join " " path in
      let prefix := pathPrefix graph path in
      if JsSet.has pathKey seenPaths then
        Some (removelast path, seenPaths, words)
      else
        let seenPaths := JsSet.add pathKey seenPaths in
        let words :=
          if isWord prefix trie
          then words ++ [{| word := prefix; nodeKeys := path |}]
          else words in
        let visited :=
          if isPrefix prefix trie then
            forEachM
              (fun neighborKey '(path, seenPaths, words) =>
                 visitNode fuel' neighborKey path seenPaths graph trie words)
              (orEmpty (Graph.neighbors graph nodeKey))
              (path, seenPaths, words)
          else Some (path, seenPaths, words) in
        match visited with
        | Some (path, seenPaths, words) => Some (removelast path, seenPaths, words)
        | None => None
        end
  end.

Definition findWords (fuel : nat) (trie : TrieSearch.node) (graph : Graph.Graph string)
    : option (list LetterBoxWord) :=
  forEachM
    (fun node words =>
       match visitNode fuel node [] [] graph trie words with
       | Some (_, _, words) => Some words
       | None => None
       end)
    (Graph.nodes graph) [].

(** ** Dominance Filter *)

(** [new Set([...word1KeySet].filter(x => !word2KeySet.has(x))).size === 0]. *)
Definition noKeyOutside (word1 word2 : LetterBoxWord) : bool :=
  let word1KeySet := JsSet.of_list (nodeKeys word1) in
  let word2KeySet := JsSet.of_list (nodeKeys word2) in
  JsSet.size
    (JsSet.of_list (filter (fun x => negb (JsSet.has x word2KeySet)) word1KeySet))
  =? 0.

(** The outer loop takes the words in order; the inner loop looks at the
    words after the current one and stops at the first that covers it. *)
Fixpoint filterWordsInLetterBox (wordsArray : list LetterBoxWord) : list LetterBoxWord :=
  match wordsArray with
  | [] => []
  | word1 :: rest =>
      let addWord := negb (existsb (fun word2 => noKeyOutside word1 word2) rest) in
      if addWord then word1 :: filterWordsInLetterBox rest
      else filterWordsInLetterBox rest
  end.

(** ** Word Graph Builder *)

(** [word.nodeKeys.join('->')]. *)
Definition wordKey (w : LetterBoxWord) : string := join "->" (nodeKeys w).

(** [map.get(key).push(word)], after the key was given an array. *)
Definition pushAt (key : option string) (w : LetterBoxWord)
    (m : list (option string * list LetterBoxWord)) :=
  JsMap.set key (orEmpty (JsMap.get key m) ++ [w]) m.

Definition createWordGraph (words : list LetterBoxWord) : Graph.Graph LetterBoxWord :=
  let '(startMap, endMap) :=
    fold_left
      (fun '(startMap, endMap) word =>
         let startCharKey := nth_error (nodeKeys word) 0 in
         let endCharKey := nth_error (nodeKeys word) (length (nodeKeys word) - 1) in
         let startMap :=
           if negb (JsMap.has startCharKey startMap)
           then JsMap.set startCharKey [] startMap else startMap in
         let endMap :=
           if negb (JsMap.has endCharKey endMap)
           then JsMap.set endCharKey [] endMap else endMap in
         (pushAt startCharKey word startMap, pushAt endCharKey word endMap))
      words ([], []) in
  let allKeys := JsSet.of_list (JsMap.keys startMap ++ JsMap.keys endMap) in
  fold_left
    (fun graph key =>
       fold_left
         (fun graph startWord =>
            let startWordKey := wordKey startWord in
            fold_left
              (fun graph endWord =>
                 let endWordKey := wordKey endWord in
                 let graph := Graph.setNode graph startWordKey startWord in
                 let graph := Graph.setNode graph endWordKey endWord in
                 if negb (String.eqb startWordKey endWordKey)
                 then Graph.setEdge graph endWordKey startWordKey
                 else graph)
              (orEmpty (JsMap.get key endMap)) graph)
         (orEmpty (JsMap.get key startMap)) graph)
    allKeys (Graph.new true).

(** ** Solution Search *)

Inductive exn : Type :=
| Error (message : string)   (* [throw Error(message)] *)
| TypeError.                 (* a property read on [undefined] *)

Inductive outcome (A : Type) : Type :=
| Return (a : A)
| Throw (e : exn).
Arguments Return {A} a.
Arguments Throw {A} e.

(** A [for ... of] loop whose body may throw or run out of fuel. *)
Fixpoint forEachT {A S} (body : A -> S -> option (outcome S)) (l : list A) (s : S)
    : option (outcome S) :=
  match l with
  | [] => Some (Return s)
  | x :: l' =>
      match body x s with
      | Some (Return s') => forEachT body l' s'
      | r => r
      end
  end.

(** [l.map(f)] where [f] may come out undefined: all the values, if every
    one is defined. *)
Fixpoint allDefined {A} (l : list (option A)) : option (list A) :=
  match l with
  | [] => Some []
  | Some x :: l' =>
      match allDefined l' with Some xs => Some (x :: xs) | None => None end
  | None :: _ => None
  end.

(** [new Set(words.map(word => word.nodeKeys).flat())]. *)
Definition letterNodesOf (words : list LetterBoxWord) : list string :=
  JsSet.of_list (concat (map nodeKeys words)).

Definition hasNewNode (word : LetterBoxWord) (seenWords : list LetterBoxWord) : bool :=
  let seenNodes := letterNodesOf seenWords in
  let seenNodesLength := JsSet.size seenNodes in
  let seenNodes := JsSet.addAll (nodeKeys word) seenNodes in
  seenNodesLength <? JsSet.size seenNodes.

(** The mutable arguments [path], [seenPaths] and [solutions] are threaded
    through the call; reading [nodeKeys] of a node without a label is a
    [TypeError]. *)
Fixpoint exploreWordGraph (fuel : nat) (nodeKey : string) (path : list string)
    (graph : Graph.Graph LetterBoxWord) (seenPaths : list string) (minNumNodes : nat)
    (solutions : list LetterBoxSolution)
    : option (outcome (list string * list string * list LetterBoxSolution)) :=
  match fuel with
  | 0 => None
  | S fuel' =>
      if 25 <? length path then Some (Throw (Error "too many paths"))
      else
        match Graph.node graph nodeKey,
              allDefined (map (fun key => Graph.node graph key) path) with
        | Some nodeWord, Some seenWords =>
            if negb (hasNewNode nodeWord seenWords) then
              Some (Return (path, seenPaths, solutions))
            else
              let path := path ++ [nodeKey] in
              let pathKey := join "" path in
              if JsSet.has pathKey seenPaths then
                Some (Return (removelast path, seenPaths, solutions))
              else
                let seenPaths := JsSet.add pathKey seenPaths in
                let words := seenWords ++ [nodeWord] in
                let seenLetterNodes := letterNodesOf words in
                let explored :=
                  if minNumNodes <=? JsSet.size seenLetterNodes then
                    Some (Return
                      (path, seenPaths,
                       solutions ++
                         [{| numSeenLetterNodes := JsSet.size seenLetterNodes;
                             letterBoxWordList := words |}]))
                  else
                    forEachT
                      (fun neighborKey '(path, seenPaths, solutions) =>
                         exploreWordGraph fuel' neighborKey path graph seenPaths
                                          minNumNodes solutions)
                      (orEmpty (Graph.successors graph nodeKey))
                      (path, seenPaths, solutions) in
                match explored with
                | Some (Return (path, seenPaths, solutions)) =>
                    Some (Return (removelast path, seenPaths, solutions))
                | r => r
                end
        | _, _ => Some (Throw TypeError)
        end
  end.

(** The body of the loop of [findSolutions]: a fresh [path] and a fresh
    [seenPaths] for every start node, one shared [solutions] array. *)
Definition exploreFrom (fuel : nat) (wordGraph : Graph.Graph LetterBoxWord)
    (minNumNodes : nat) (nodeKey : string) (solutions : list LetterBoxSolution)
    : option (outcome (list LetterBoxSolution)) :=
  match exploreWordGraph fuel nodeKey [] wordGraph [] minNumNodes solutions with
  | Some (Return (_, _, solutions)) => Some (Return solutions)
  | Some (Throw e) => Some (Throw e)
  | None => None
  end.

Definition findSolutions (fuel : nat) (wordGraph : Graph.Graph LetterBoxWord)
    (minNumNodes : nat) : option (outcome (list LetterBoxSolution)) :=
  forEachT (exploreFrom fuel wordGraph minNumNodes) (Graph.nodes wordGraph) [].

(** ** The pipeline of [main], for a given layout and word set *)

Definition solve (fuel : nat) (sides : list (list string)) (allWords : list string)
    : option (outcome (list LetterBoxSolution)) :=
  let trie := createTrie allWords in
  let graph := createLetterBoxGraph sides in
  match findWords fuel trie graph with
  | Some wordsInLetterBox =>
      let filteredWordsInLetterBox := filterWordsInLetterBox wordsInLetterBox in
      let wordGraph := createWordGraph filteredWordsInLetterBox in
      findSolutions fuel wordGraph (Graph.nodeCount graph)
  | None => None
  end.

(** ** Notions used in the statements *)

(** [a] is a strict subset of [b], as sets of letter-node keys. *)
Definition strictSubset (a b : list string) : Prop :=
  incl a b /\ ~ incl b a.

(** Number of distinct letter nodes a chain of words covers. *)
Definition coverage (chain : list LetterBoxWord) : nat :=
  JsSet.size (letterNodesOf chain).

(** What is known of a solution recorded while the chain so far is [path]:
    its words are the labels of [path] extended by at least one node, the
    recorded count is its coverage, is positive and reaches the target, the
    chain has at most 26 words, and no prefix that is longer than [path]
    and shorter than the chain reaches the target. *)
Definition recordedBelow (graph : Graph.Graph LetterBoxWord) (minNumNodes : nat)
    (path : list string) (s : LetterBoxSolution) : Prop :=
  exists ext,
    ext <> []
    /\ allDefined (map (fun key => Graph.node graph key) (path ++ ext))
       = Some (letterBoxWordList s)
    /\ numSeenLetterNodes s = coverage (letterBoxWordList s)
    /\ 0 < numSeenLetterNodes s
    /\ minNumNodes <= numSeenLetterNodes s
    /\ length (path ++ ext) <= 26
    /\ forall k, length path < k -> k < length (path ++ ext) ->
         coverage (firstn k (letterBoxWordList s)) < minNumNodes.

(** The items stored in a trie under exactly the key [key]. *)
Definition valueAt (key : string) (t : TrieSearch.node) : list TriNode.t :=
  match TrieSearch.findNode key t with
  | Some n => TrieSearch.value n
  | None => []
  end.

(** A normalized dictionary: every entry is a non-empty string of the
    letters a to z, as [getWords] produces them. *)
Definition isLower (c : ascii) : bool :=
  let n := nat_of_ascii c in (97 <=? n) && (n <=? 122).

Definition isLowerWord (w : string) : bool :=
  negb (String.eqb w "") && allChars isLower w.

Definition normalized (words : list string) : bool := forallb isLowerWord words.

(** First and last letter node of a word; [None] is [undefined]. *)
Definition firstKey (w : LetterBoxWord) : option string :=
  nth_error (nodeKeys w) 0.

Definition lastKey (w : LetterBoxWord) : option string :=
  nth_error (nodeKeys w) (length (nodeKeys w) - 1).

(** One pass of the first loop of [createWordGraph] on one of its maps. *)
Definition groupStep (f : LetterBoxWord -> option string)
    (m : list (option string * list LetterBoxWord)) (w : LetterBoxWord) :=
  pushAt (f w) w (if negb (JsMap.has (f w) m) then JsMap.set (f w) [] m else m).

(** The two maps the first loop of [createWordGraph] builds. *)
Definition endpointMaps (words : list LetterBoxWord) :=
  (fold_left (groupStep firstKey) words [], fold_left (groupStep lastKey) words []).

(** The iterations of the nested loops of [createWordGraph], in order:
    the pairs of a start word and an end word; and what one iteration
    does. *)
Definition wordSteps (words : list LetterBoxWord) : list (LetterBoxWord * LetterBoxWord) :=
  let '(startMap, endMap) := endpointMaps words in
  flat_map (fun key =>
    flat_map (fun startWord =>
      map (fun endWord => (startWord, endWord)) (orEmpty (JsMap.get key endMap)))
      (orEmpty (JsMap.get key startMap)))
    (JsSet.of_list (JsMap.keys startMap ++ JsMap.keys endMap)).

Definition wordStep (graph : Graph.Graph LetterBoxWord)
    (it : LetterBoxWord * LetterBoxWord) : Graph.Graph LetterBoxWord :=
  let '(startWord, endWord) := it in
  let startWordKey := wordKey startWord in
  let endWordKey := wordKey endWord in
  let graph := Graph.setNode graph startWordKey startWord in
  let graph := Graph.setNode graph endWordKey endWord in
  if negb (String.eqb startWordKey endWordKey)
  then Graph.setEdge graph endWordKey startWordKey
  else graph.

(** A key without the character that starts the separator of [wordKey]. *)
Definition dashFree (k : string) : bool :=
  allChars (fun c => negb (Ascii.eqb c "-")) k.

(** Words as the Word Finder makes them: a non-empty sequence of node
    keys, none of which contains a dash. *)
Definition keyedWords (words : list LetterBoxWord) : bool :=
  forallb (fun w => match nodeKeys w with [] => false | _ => true end
                    && forallb dashFree (nodeKeys w)) words.

(** The letter at position [p] of side [i], if there is one. *)
Definition letterAt (sides : list (list string)) (i p : nat) : option string :=
  match nth_error sides i with
  | Some side => nth_error side p
  | None => None
  end.

(** A letter occurrence: the letter [l] at position [p] of side [i]. *)
Definition occurrence (sides : list (list string)) (i p : nat) (l : string) : Prop :=
  letterAt sides i p = Some l.

(** A letter occurrence with a letter on some other side. *)
Definition linkedOccurrence (sides : list (list string)) (i p : nat) (l : string)
    : Prop :=
  letterAt sides i p = Some l /\ exists j, j <> i /\ nth j sides [] <> [].

(** One node per occurrence [occ]: the node keys are distinct, they are
    the keys of the occurrences, two occurrences with the same key are the
    same occurrence, a node is labelled with its letter, and two nodes are
    joined by an edge exactly when their sides differ. *)
Definition oneNodePerOccurrence (occ : nat -> nat -> string -> Prop)
    (g : Graph.Graph string) : Prop :=
  NoDup (Graph.nodes g)
  /\ (forall k, In k (Graph.nodes g) <->
                exists i p l, occ i p l /\ k = letterKey i p l)
  /\ (forall i p l j q l', occ i p l -> occ j q l' ->
        letterKey i p l = letterKey j q l' -> i = j /\ p = q)
  /\ (forall i p l, occ i p l -> Graph.node g (letterKey i p l) = Some l)
  /\ (forall i p l j q l', occ i p l -> occ j q l' ->
        (Graph.hasEdge g (letterKey i p l) (letterKey j q l') = true <-> i <> j)).

(** At most ten sides of at most ten letters: side and position indices
    are single digits, so a key shows both. *)
Definition smallBox (sides : list (list string)) : bool :=
  (length sides <=? 10) && forallb (fun side => length side <=? 10) sides.

(** At most one side of the layout holds a letter. *)
Definition isEmptySide (side : list string) : bool :=
  match side with [] => true | _ => false end.

Fixpoint atMostOneSide (sides : list (list string)) : bool :=
  match sides with
  | [] => true
  | [] :: rest => atMostOneSide rest
  | _ :: rest => forallb isEmptySide rest
  end.

(** Twelve sides of twelve letters "x": a layout whose indices need two
    digits. *)
Definition twelveBox : list (list string) := repeat (repeat "x" 12) 12.

(** The iterations of the four nested loops of [createLetterBoxGraph], in
    order, and what one iteration does. *)
Definition boxSteps (sides : list (list string)) : list (nat * nat * nat * nat) :=
  flat_map (fun i =>
    flat_map (fun j =>
      flat_map (fun letterI =>
        map (fun letterJ => (i, j, letterI, letterJ))
            (seq 0 (length (nth j sides []) - 0)))
        (seq 0 (length (nth i sides []) - 0)))
      (seq (i + 1) (length sides - (i + 1))))
    (seq 0 (length sides - 0)).

Definition boxStep (sides : list (list string)) (graph : Graph.Graph string)
    (it : nat * nat * nat * nat) : Graph.Graph string :=
  let '(i, j, letterI, letterJ) := it in
  let letter1 := nth letterI (nth i sides []) "" in
  let letter1Key := letterKey i letterI letter1 in
  let letter2 := nth letterJ (nth j sides []) "" in
  let letter2Key := letterKey j letterJ letter2 in
  let graph := Graph.setNode graph letter1Key letter1 in
  let graph := Graph.setNode graph letter2Key letter2 in
  Graph.setEdge graph letter1Key letter2Key.

(** Every node is the key of a letter of the box and carries that letter. *)
Definition labelled (sides : list (list string)) (g : Graph.Graph string) : Prop :=
  forall k, In k (Graph.nodes g) ->
    exists i p l, letterAt sides i p = Some l /\ k = letterKey i p l
                  /\ Graph.node g k = Some l.

Definition stepKey1 (sides : list (list string)) (it : nat * nat * nat * nat) : string :=
  let '(i, _, letterI, _) := it in
  letterKey i letterI (nth letterI (nth i sides []) "").

Definition stepKey2 (sides : list (list string)) (it : nat * nat * nat * nat) : string :=
  let '(_, j, _, letterJ) := it in
  letterKey j letterJ (nth letterJ (nth j sides []) "").

(** Two keys are adjacent when an edge object joins them, in either
    direction: what [neighbors] enumerates. *)
Definition adjacent {L} (g : Graph.Graph L) (u v : string) : bool :=
  existsb (fun e => Graph.edge_eqb e (u, v) || Graph.edge_eqb e (v, u))
          (Graph.edgeObjs g).

(** [walkFrom g u l]: [u] followed by [l] is a walk of the graph. *)
Fixpoint walkFrom {L} (g : Graph.Graph L) (u : string) (l : list string) : bool :=
  match l with
  | [] => true
  | v :: l' => adjacent g u v && walkFrom g v l'
  end.

Definition isWalk {L} (g : Graph.Graph L) (l : list string) : bool :=
  match l with
  | [] => true
  | u :: l' => walkFrom g u l'
  end.

(** A letter: one character, not white space. *)
Definition isLetter (l : string) : bool :=
  match l with
  | String c EmptyString => negb (TrieSearch.isSpace c)
  | _ => false
  end.

(** Every edge joins two nodes. *)
Definition edgesClosed {L} (g : Graph.Graph L) : bool :=
  forallb (fun e => Graph.hasNode g (fst e) && Graph.hasNode g (snd e))
          (Graph.edgeObjs g).

(** A letter graph: every node is labelled with a letter and every edge
    joins two nodes. *)
Definition isLetterGraph (g : Graph.Graph string) : bool :=
  forallb (fun k => match Graph.node g k with
                    | Some l => isLetter l
                    | None => false
                    end) (Graph.nodes g)
  && edgesClosed g.

(** What is known of a word found by a visit of [nodeKey] entered with
    [path]: its node sequence extends [path] by a walk from [nodeKey], its
    text is that of the sequence, and the trie accepts it. *)
Definition foundBelow (graph : Graph.Graph string) (trie : TrieSearch.node)
    (path : list string) (nodeKey : string) (w : LetterBoxWord) : Prop :=
  exists ext,
    nodeKeys w = path ++ nodeKey :: ext
    /\ word w = pathPrefix graph (nodeKeys w)
    /\ isWord (word w) trie = true
    /\ walkFrom graph nodeKey ext = true.

(** The defined labels of a graph. *)
Definition labelsOf {L} (g : Graph.Graph L) : list L :=
  flat_map (fun p => match snd p with Some l => [l] | None => [] end)
           (Graph.nodeLabels g).

(** Every word of the word graph walks over nodes of the letter graph. *)
Definition onBox (letterGraph : Graph.Graph string)
    (wordGraph : Graph.Graph LetterBoxWord) : bool :=
  forallb (fun w => forallb (fun k => JsSet.has k (Graph.nodes letterGraph))
                            (nodeKeys w))
          (labelsOf wordGraph).

(** The two-sided box [a c | b d] with the words "abc", "cda" and "abcd",
    and the word graph the pipeline builds for it. *)
Definition exampleBox : list (list string) := [["a"; "c"]; ["b"; "d"]].

Definition exampleWords : list string := ["abc"; "cda"; "abcd"].

Definition exampleWordGraph : Graph.Graph LetterBoxWord :=
  createWordGraph
    (filterWordsInLetterBox
       (orEmpty (findWords 5 (createTrie exampleWords)
                           (createLetterBoxGraph exampleBox)))).

(** A word graph that is a single chain of [n] words, the [i]-th word
    covering the one letter node [i]: the longest chains a search can meet. *)
Definition chainWord (i : nat) : LetterBoxWord :=
  {| word := "x"; nodeKeys := [string_of_nat i] |}.

Definition chainGraph (n : nat) : Graph.Graph LetterBoxWord :=
  forRange 0 n
    (fun i graph =>
       let graph := Graph.setNode graph (wordKey (chainWord i)) (chainWord i) in
       if 0 <? i
       then Graph.setEdge graph (wordKey (chainWord (i - 1))) (wordKey (chainWord i))
       else graph)
    (Graph.new true).

(** ** Notions used for the rest of the code *)

(** Every word of the chain brings a letter node the words before it (and
    those of [seen]) do not have: the test [hasNewNode] makes before a word
    is appended. *)
Fixpoint growingFrom (seen chain : list LetterBoxWord) : bool :=
  match chain with
  | [] => true
  | w :: rest => hasNewNode w seen && growingFrom (seen ++ [w]) rest
  end.

Definition growing (chain : list LetterBoxWord) : bool := growingFrom [] chain.

(** [v] is a successor of [u]: an edge object goes from [u] to [v]. *)
Definition isSuccessor {L} (g : Graph.Graph L) (u v : string) : bool :=
  existsb (Graph.edge_eqb (u, v)) (Graph.edgeObjs g).

(** [u] followed by [l] goes from successor to successor. *)
Fixpoint succChain {L} (g : Graph.Graph L) (u : string) (l : list string) : bool :=
  match l with
  | [] => true
  | v :: l' => isSuccessor g u v && succChain g v l'
  end.

(** Each word of the chain starts on the letter node the word before it
    ends on. *)
Fixpoint linkedFrom (a : LetterBoxWord) (chain : list LetterBoxWord) : bool :=
  match chain with
  | [] => true
  | b :: rest => eqb (lastKey a) (firstKey b) && linkedFrom b rest
  end.

Definition linkedChain (chain : list LetterBoxWord) : bool :=
  match chain with
  | [] => true
  | a :: rest => linkedFrom a rest
  end.

(** Every node of the graph has a label and every edge joins two nodes. *)
Definition allLabelled {L} (g : Graph.Graph L) : bool :=
  forallb (fun k => match Graph.node g k with Some _ => true | None => false end)
          (Graph.nodes g)
  && edgesClosed g.

(** The key a visit records for the node sequence of a word. *)
Definition pathKeyOf (w : LetterBoxWord) : string := join " " (nodeKeys w).

(** The keys of all the letters of a layout, side by side. *)
Definition boxKeys (sides : list (list string)) : list string :=
  flat_map (fun i =>
              map (fun p => letterKey i p (nth p (nth i sides []) ""))
                  (seq 0 (length (nth i sides []))))
           (seq 0 (length sides)).

(** At least two sides of the layout hold a letter. *)
Definition twoSides (sides : list (list string)) : bool :=
  2 <=? length (filter (fun side => negb (isEmptySide side)) sides).

(** [dropPrefix s key]: what is left of [key] after its prefix [s]. *)
Fixpoint dropPrefix (s key : string) : option string :=
  match s, key with
  | EmptyString, _ => Some key
  | String a s', String b key' => if Ascii.eqb a b then dropPrefix s' key' else None
  | String _ _, EmptyString => None
  end.

(** A non-empty sequence of keys that starts on a node of the graph and
    goes from successor to successor. *)
Definition isChainOf {L} (g : Graph.Graph L) (keys : list string) : bool :=
  match keys with
  | [] => false
  | k :: ext => Graph.hasNode g k && succChain g k ext
  end.

(** What is known of the chain of a solution recorded by an exploration of
    [nodeKey] entered with [path]: its words are the labels of [path]
    followed by a run of successors from [nodeKey], and each of them brings
    a new letter node. *)
Definition chainBelow (graph : Graph.Graph LetterBoxWord) (path : list string)
    (nodeKey : string) (s : LetterBoxSolution) : Prop :=
  exists ext,
    allDefined (map (fun key => Graph.node graph key) (path ++ nodeKey :: ext))
    = Some (letterBoxWordList s)
    /\ succChain graph nodeKey ext = true
    /\ growing (letterBoxWordList s) = true.

(** The key an exploration records for the chain of a solution, when
    every word of the chain labels the node of its own key. *)
Definition chainKeyOf (s : LetterBoxSolution) : string :=
  join "" (map wordKey (letterBoxWordList s)).

(** Every label of the graph sits on the node of its own key. *)
Definition selfKeyed (g : Graph.Graph LetterBoxWord) : Prop :=
  forall u W, Graph.node g u = Some W -> wordKey W = u.

(** The key holds no space, the separator of the keys of [visitNode]. *)
Definition spaceFree (k : string) : bool :=
  allChars (fun c => negb (Ascii.eqb c " ")) k.

(** The visit of [nodeKey] entered with [path] is led to the node sequence
    [path ++ nodeKey :: ext]: the trie lets it go on at every step, every
    step goes to a neighbour, and the text of the whole sequence is a
    word. *)
Fixpoint explorable (graph : Graph.Graph string) (trie : TrieSearch.node)
    (path : list string) (nodeKey : string) (ext : list string) : bool :=
  match ext with
  | [] => isWord (pathPrefix graph (path ++ [nodeKey])) trie
  | v :: ext' =>
      isPrefix (pathPrefix graph (path ++ [nodeKey])) trie
      && adjacent graph nodeKey v
      && explorable graph trie (path ++ [nodeKey]) v ext'
  end.

(** No recorded key is that of a node sequence that starts with [P]. *)
Definition freshBelow (seenPaths : list string) (P : list string) : Prop :=
  forall q, In (join " " q) seenPaths -> q <> [] -> forallb spaceFree q = true ->
            forall r, q <> P ++ r.

(** The keys recorded since [seenPaths] are keys of node sequences that
    start with [P]. *)
Definition seenBelow (seenPaths seenPaths' : list string) (P : list string) : Prop :=
  forall k, In k seenPaths' ->
            In k seenPaths
            \/ exists ext, k = join " " (P ++ ext) /\ forallb spaceFree ext = true.

(** A key as [letterKey] makes it on a box of at most ten sides of at most
    ten one-character letters: four characters, none of them a dash. *)
Definition isBoxKey (k : string) : bool :=
  (String.length k =? 4) && dashFree k.

(** Words whose node sequences are non-empty sequences of such keys. *)
Definition boxKeyed (words : list LetterBoxWord) : bool :=
  forallb (fun w => match nodeKeys w with [] => false | _ => true end
                    && forallb isBoxKey (nodeKeys w)) words.

(** The exploration of [nodeKey] entered with [path] is led to the chain
    of the nodes [path ++ nodeKey :: ext] and records it: every word brings
    a letter node, every step goes to a successor, and the target is met
    at the last word and not before. *)
Fixpoint recordable (graph : Graph.Graph LetterBoxWord) (minNumNodes : nat)
    (path : list string) (nodeKey : string) (ext : list string) {struct ext} : bool :=
  match Graph.node graph nodeKey,
        allDefined (map (fun key => Graph.node graph key) path) with
  | Some nodeWord, Some seenWords =>
      hasNewNode nodeWord seenWords
      && match ext with
         | [] => minNumNodes <=? coverage (seenWords ++ [nodeWord])
         | v :: ext' =>
             negb (minNumNodes <=? coverage (seenWords ++ [nodeWord]))
             && isSuccessor graph nodeKey v
             && recordable graph minNumNodes (path ++ [nodeKey]) v ext'
         end
  | _, _ => false
  end.

(** No recorded key is that of a sequence of nodes that starts with [P]. *)
Definition freshChains {L} (graph : Graph.Graph L) (seenPaths : list string)
    (P : list string) : Prop :=
  forall q, In (join "" q) seenPaths ->
            Forall (fun k => In k (Graph.nodes graph)) q ->
            forall r, q <> P ++ r.

(** The keys recorded since [seenPaths] are keys of sequences of nodes that
    start with [P]. *)
Definition seenChains {L} (graph : Graph.Graph L) (seenPaths seenPaths' : list string)
    (P : list string) : Prop :=
  forall k, In k seenPaths' ->
            In k seenPaths
            \/ exists ext, k = join "" (P ++ ext)
                           /\ Forall (fun k => In k (Graph.nodes graph)) ext.

(** A sequence of nodes can be read back from its key. *)
Definition decodable {L} (graph : Graph.Graph L) : Prop :=
  forall p q,
    Forall (fun k => In k (Graph.nodes graph)) p ->
    Forall (fun k => In k (Graph.nodes graph)) q ->
    join "" p = join "" q -> p = q.

(** * Properties *)

Unset Implicit Arguments.

(** ** Equality tests and sets *)

#[export] Instance string_EqLaws : EqLaws string := String.eqb_eq.

#[export] Instance ascii_EqLaws : EqLaws ascii := Ascii.eqb_eq.

#[export] Instance option_EqLaws {A} `{EqLaws A} : EqLaws (option A).
Proof.
  intros [a|] [b|]; simpl; try (split; congruence).
  rewrite eqb_iff. split; congruence.
Qed.

Section SetFacts.
Context {A : Type} `{EqLaws A}.

Lemma has_In (x : A) s : JsSet.has x s = true <-> In x s.
Proof.
  unfold JsSet.has. rewrite existsb_exists. split.
  - intros [y [Hy E]]. apply eqb_iff in E. now subst.
  - intros Hx. exists x. split; [assumption | now apply eqb_iff].
Qed.

Lemma has_not_In (x : A) s : JsSet.has x s = false <-> ~ In x s.
Proof.
  rewrite <- has_In. destruct (JsSet.has x s); split; congruence.
Qed.

Lemma add_In (x y : A) s : In y (JsSet.add x s) <-> y = x \/ In y s.
Proof.
  unfold JsSet.add. destruct (JsSet.has x s) eqn:E.
  - apply has_In in E. split; [now right | intros [->|]; assumption].
  - rewrite in_app_iff. simpl. intuition congruence.
Qed.

Lemma add_NoDup (x : A) s : NoDup s -> NoDup (JsSet.add x s).
Proof.
  intros Hs. unfold JsSet.add. destruct (JsSet.has x s) eqn:E; [assumption|].
  apply has_not_In in E.
  apply NoDup_app; [assumption | repeat constructor; intros [] | ].
  intros a Ha [<-|[]]. contradiction.
Qed.

Lemma addAll_In (l : list A) : forall s y,
  In y (JsSet.addAll l s) <-> In y l \/ In y s.
Proof.
  unfold JsSet.addAll.
  induction l as [|x l IH]; simpl; intros s y; [tauto|].
  rewrite IH, add_In. intuition congruence.
Qed.

Lemma addAll_NoDup (l : list A) : forall s, NoDup s -> NoDup (JsSet.addAll l s).
Proof.
  unfold JsSet.addAll.
  induction l as [|x l IH]; simpl; intros s Hs; [assumption|].
  apply IH. now apply add_NoDup.
Qed.

Lemma of_list_In (l : list A) y : In y (JsSet.of_list l) <-> In y l.
Proof. unfold JsSet.of_list. rewrite addAll_In. simpl. tauto. Qed.

Lemma of_list_NoDup (l : list A) : NoDup (JsSet.of_list l).
Proof. apply addAll_NoDup. constructor. Qed.

Lemma add_length (x : A) s : length s <= length (JsSet.add x s).
Proof.
  unfold JsSet.add. destruct (JsSet.has x s); [lia|].
  rewrite length_app. simpl. lia.
Qed.

Lemma addAll_length (l : list A) : forall s, length s <= length (JsSet.addAll l s).
Proof.
  unfold JsSet.addAll.
  induction l as [|x l IH]; simpl; intros s; [lia|].
  specialize (IH (JsSet.add x s)). pose proof (add_length x s). lia.
Qed.
End SetFacts.

(** ** Dominance Filter *)

Lemma of_list_nil_iff {A} `{EqLaws A} (l : list A) : JsSet.of_list l = [] <-> l = [].
Proof.
  split; [|intros ->; reflexivity].
  intros E. destruct l as [|x l]; [reflexivity|].
  assert (Hx : In x (JsSet.of_list (x :: l))) by (apply of_list_In; now left).
  rewrite E in Hx. destruct Hx.
Qed.

(** The test of the inner loop holds exactly when every key of [word1] is a
    key of [word2]. *)
Lemma noKeyOutside_incl word1 word2 :
  noKeyOutside word1 word2 = true <-> incl (nodeKeys word1) (nodeKeys word2).
Proof.
  unfold noKeyOutside, JsSet.size. rewrite Nat.eqb_eq, length_zero_iff_nil.
  rewrite of_list_nil_iff. split.
  - intros E x Hx.
    destruct (JsSet.has x (JsSet.of_list (nodeKeys word2))) eqn:Hin.
    + apply has_In in Hin. now apply (proj1 (of_list_In _ _)) in Hin.
    + exfalso.
      assert (Hf : In x (filter
                (fun x => negb (JsSet.has x (JsSet.of_list (nodeKeys word2))))
                (JsSet.of_list (nodeKeys word1)))).
      { apply filter_In. split; [now apply (proj2 (of_list_In _ _)) | now rewrite Hin]. }
      rewrite E in Hf. destruct Hf.
  - intros Hincl.
    destruct (filter _ _) as [|x l] eqn:E; [reflexivity|].
    assert (Hf : In x (x :: l)) by now left.
    rewrite <- E in Hf. apply filter_In in Hf. destruct Hf as [Hx Hneg].
    apply (proj1 (of_list_In _ _)), Hincl in Hx.
    apply (proj2 (of_list_In _ _)), (proj2 (has_In _ _)) in Hx.
    rewrite Hx in Hneg. discriminate.
Qed.

(** The filter only removes words. *)
Lemma filterWordsInLetterBox_In ws w :
  In w (filterWordsInLetterBox ws) -> In w ws.
Proof.
  induction ws as [|word1 rest IH]; simpl; [tauto|].
  destruct (existsb _ rest); simpl; intuition.
Qed.

(** What the filter does guarantee: a word is kept exactly when no word
    after it in the input covers it. *)
Lemma filterWordsInLetterBox_spec : forall ws pre w post,
  ws = pre ++ w :: post ->
  (exists pre', filterWordsInLetterBox ws = pre' ++ w :: filterWordsInLetterBox post)
  \/ (exists w2, In w2 post /\ incl (nodeKeys w) (nodeKeys w2)).
Proof.
  intros ws pre. revert ws.
  induction pre as [|p pre IH]; intros ws w post ->; simpl.
  - destruct (existsb _ post) eqn:E; simpl.
    + right. apply existsb_exists in E. destruct E as [w2 [Hin Hc]].
      exists w2. split; [assumption | now apply noKeyOutside_incl].
    + left. now exists [].
  - destruct (IH _ w post eq_refl) as [[pre' E]|Hr]; [|now right].
    left. rewrite E.
    destruct (existsb _ (pre ++ w :: post)); simpl.
    + now exists pre'.
    + now exists (p :: pre').
Qed.

(** C6. The Dominance Filter is idempotent: filtering its own output
    returns that output unchanged, for every input list of words. *)
Theorem filterWordsInLetterBox_idempotent (ws : list LetterBoxWord) :
  filterWordsInLetterBox (filterWordsInLetterBox ws) = filterWordsInLetterBox ws.
Proof.
  induction ws as [|word1 rest IH]; simpl; [reflexivity|].
  destruct (existsb (fun word2 => noKeyOutside word1 word2) rest) eqn:E; simpl;
    [assumption|].
  assert (E' : existsb (fun word2 => noKeyOutside word1 word2)
                 (filterWordsInLetterBox rest) = false).
  { destruct (existsb _ (filterWordsInLetterBox rest)) eqn:E'; [|reflexivity].
    apply existsb_exists in E'. destruct E' as [w2 [Hin Hc]].
    apply filterWordsInLetterBox_In in Hin.
    assert (existsb (fun word2 => noKeyOutside word1 word2) rest = true)
      by (apply existsb_exists; eauto).
    congruence. }
  rewrite E'. simpl. now rewrite IH.
Qed.

(** C1. The filter compares a word only with the words after it, so a word
    covered by an earlier word survives.  In the box [a c | b] with the
    words "abc" and "bab", the Word Finder yields "abc" before "bab", both
    survive the filter, and the letter nodes of "bab" are a strict subset
    of those of "abc". *)
Theorem filterWordsInLetterBox_keeps_covered_word :
  let abc := {| word := "abc"; nodeKeys := ["00:a"; "10:b"; "01:c"] |} in
  let bab := {| word := "bab"; nodeKeys := ["10:b"; "00:a"; "10:b"] |} in
  findWords 4 (createTrie ["abc"; "bab"]) (createLetterBoxGraph [["a"; "c"]; ["b"]])
    = Some [abc; bab]
  /\ filterWordsInLetterBox [abc; bab] = [abc; bab]
  /\ strictSubset (nodeKeys bab) (nodeKeys abc).
Proof.
  repeat split.
  - intros k [<-|[<-|[<-|[]]]]; simpl; auto.
  - intros Hincl.
    assert (Hc : In "01:c" ["10:b"; "00:a"; "10:b"]) by (apply Hincl; simpl; auto).
    simpl in Hc. intuition discriminate.
Qed.

(** ** Solution Search *)

Lemma allDefined_app {A} (l1 l2 : list (option A)) :
  allDefined (l1 ++ l2) =
  match allDefined l1, allDefined l2 with
  | Some a, Some b => Some (a ++ b)
  | _, _ => None
  end.
Proof.
  induction l1 as [|[x|] l1 IH]; simpl.
  - now destruct (allDefined l2).
  - rewrite IH. destruct (allDefined l1), (allDefined l2); reflexivity.
  - reflexivity.
Qed.

Lemma allDefined_length {A} (l : list (option A)) : forall xs,
  allDefined l = Some xs -> length xs = length l.
Proof.
  induction l as [|[x|] l IH]; simpl; intros xs E.
  - now inversion E.
  - destruct (allDefined l) as [ys|]; [|discriminate].
    inversion E; subst. simpl. now rewrite (IH ys).
  - discriminate.
Qed.

Lemma allDefined_In {A} (l : list (option A)) : forall xs x,
  allDefined l = Some xs -> In x xs -> In (Some x) l.
Proof.
  induction l as [|[y|] l IH]; simpl; intros xs x E Hx.
  - inversion E; subst. destruct Hx.
  - destruct (allDefined l) as [ys|]; [|discriminate].
    inversion E; subst. destruct Hx as [->|Hx]; [now left|].
    right. now apply (IH ys).
  - discriminate.
Qed.

(** The labels of a prefix of the chain are a prefix of the labels. *)
Lemma allDefined_firstn {A} (l1 l2 : list (option A)) xs xs1 :
  allDefined (l1 ++ l2) = Some xs -> allDefined l1 = Some xs1 ->
  firstn (length l1) xs = xs1.
Proof.
  intros E E1. rewrite allDefined_app, E1 in E.
  destruct (allDefined l2) as [xs2|]; [|discriminate].
  inversion E; subst.
  rewrite <- (allDefined_length _ _ E1).
  rewrite firstn_app, Nat.sub_diag, firstn_all. simpl. now rewrite app_nil_r.
Qed.

Lemma forEachT_inv {A S} (body : A -> S -> option (outcome S)) (I : S -> Prop) :
  forall l s r,
    I s ->
    (forall x s s', In x l -> I s -> body x s = Some (Return s') -> I s') ->
    forEachT body l s = Some (Return r) -> I r.
Proof.
  induction l as [|x l IH]; simpl; intros s r Hs Hbody E.
  - inversion E; now subst.
  - destruct (body x s) as [[s'|e]|] eqn:Eb; try discriminate.
    apply (IH s' r); eauto.
Qed.

Lemma forEachT_total {A S} (body : A -> S -> option (outcome S)) (I : S -> Prop) :
  forall l s,
    I s ->
    (forall x s, In x l -> I s ->
       exists r, body x s = Some r /\ forall s', r = Return s' -> I s') ->
    exists r, forEachT body l s = Some r.
Proof.
  induction l as [|x l IH]; simpl; intros s Hs Hbody.
  - eauto.
  - destruct (Hbody x s (or_introl eq_refl) Hs) as [r [Er Hr]]. rewrite Er.
    destruct r as [s'|e]; [|eauto].
    apply IH; [now apply Hr | intros; apply Hbody; auto].
Qed.

(** A throw in the body leaves the loop at once. *)
Lemma forEachT_throw {A S} (body : A -> S -> option (outcome S)) :
  forall pre x post s s1 e,
    forEachT body pre s = Some (Return s1) ->
    body x s1 = Some (Throw e) ->
    forEachT body (pre ++ x :: post) s = Some (Throw e).
Proof.
  induction pre as [|y pre IH]; simpl; intros x post s s1 e E Eb.
  - inversion E; subst. now rewrite Eb.
  - destruct (body y s) as [[s'|e']|]; try discriminate. eauto.
Qed.

Lemma letterNodesOf_snoc ws w :
  letterNodesOf (ws ++ [w]) = JsSet.addAll (nodeKeys w) (letterNodesOf ws).
Proof.
  unfold letterNodesOf, JsSet.of_list, JsSet.addAll.
  rewrite map_app, concat_app. simpl. rewrite app_nil_r.
  now rewrite fold_left_app.
Qed.

Lemma recordedBelow_step graph minNumNodes path nodeKey words s :
  allDefined (map (fun key => Graph.node graph key) (path ++ [nodeKey])) = Some words ->
  coverage words < minNumNodes ->
  recordedBelow graph minNumNodes (path ++ [nodeKey]) s ->
  recordedBelow graph minNumNodes path s.
Proof.
  intros Ew Hcov [ext [Hne [Ed [Hnum [Hpos [Hmin [Hlen Hpre]]]]]]].
  exists (nodeKey :: ext).
  replace (path ++ nodeKey :: ext) with ((path ++ [nodeKey]) ++ ext)
    by (rewrite <- app_assoc; reflexivity).
  repeat split; try assumption; [discriminate|].
  intros k Hk1 Hk2.
  destruct (Nat.eq_dec k (length (path ++ [nodeKey]))) as [->|Hk].
  - rewrite map_app in Ed.
    rewrite <- (length_map (fun key => Graph.node graph key) (path ++ [nodeKey])).
    now rewrite (allDefined_firstn _ _ _ _ Ed Ew).
  - apply Hpre; [|assumption].
    rewrite length_app in *. simpl in *. lia.
Qed.

(** A call that returns leaves [path] as it found it and only appends
    solutions, each recorded below [path]. *)
Lemma exploreWordGraph_sound : forall fuel nodeKey path graph seenPaths minNumNodes
    solutions path' seenPaths' solutions',
  exploreWordGraph fuel nodeKey path graph seenPaths minNumNodes solutions
    = Some (Return (path', seenPaths', solutions')) ->
  path' = path
  /\ exists new, solutions' = solutions ++ new
               /\ Forall (recordedBelow graph minNumNodes path) new.
Proof.
  induction fuel as [|fuel IH]; intros nodeKey path graph seenPaths minNumNodes
    solutions path' seenPaths' solutions' E; simpl in E; [discriminate|].
  destruct (25 <? length path) eqn:Hcap; [discriminate|].
  apply Nat.ltb_ge in Hcap.
  destruct (Graph.node graph nodeKey) as [nodeWord|] eqn:Enode; [|discriminate].
  destruct (allDefined (map (fun key => Graph.node graph key) path))
    as [seenWords|] eqn:Eseen; [|discriminate].
  assert (Ewords : allDefined (map (fun key => Graph.node graph key) (path ++ [nodeKey]))
                   = Some (seenWords ++ [nodeWord])).
  { rewrite map_app, allDefined_app, Eseen. simpl. now rewrite Enode. }
  destruct (hasNewNode nodeWord seenWords) eqn:Hadds; simpl in E.
  2:{ inversion E; subst. split; [reflexivity|]. exists []. now rewrite app_nil_r. }
  assert (Hpos : 0 < JsSet.size (letterNodesOf (seenWords ++ [nodeWord]))).
  { unfold hasNewNode in Hadds. apply Nat.ltb_lt in Hadds.
    rewrite letterNodesOf_snoc. lia. }
  destruct (JsSet.has (join "" (path ++ [nodeKey])) seenPaths).
  { inversion E; subst. rewrite removelast_last. split; [reflexivity|].
    exists []. now rewrite app_nil_r. }
  destruct (minNumNodes <=? JsSet.size (letterNodesOf (seenWords ++ [nodeWord]))) eqn:Hcov.
  - inversion E; subst. rewrite removelast_last. split; [reflexivity|].
    eexists. split; [reflexivity|]. constructor; [|constructor].
    exists [nodeKey]. simpl. apply Nat.leb_le in Hcov.
    repeat split; try assumption; try reflexivity; try discriminate.
    + rewrite length_app. simpl. lia.
    + intros k Hk1 Hk2. rewrite length_app in Hk2. simpl in Hk2. lia.
  - apply Nat.leb_gt in Hcov.
    match type of E with
    | match ?loop with _ => _ end = _ => destruct loop as [[[[p sp] sols]|e]|] eqn:Eloop
    end; try discriminate.
    inversion E; subst. clear E.
    pose (I := fun st : list string * list string * list LetterBoxSolution =>
                 fst (fst st) = path ++ [nodeKey]
                 /\ exists new, snd st = solutions ++ new
                      /\ Forall (recordedBelow graph minNumNodes path) new).
    assert (HI : I (p, seenPaths', solutions')).
    { eapply (forEachT_inv _ I); [| |exact Eloop].
      - split; [reflexivity|]. exists []. simpl. now rewrite app_nil_r.
      - intros x [[p0 sp0] sols0] [[p1 sp1] sols1] _ [Hp [new [Hs Hnew]]] Eb.
        simpl in Hp, Hs. subst p0 sols0.
        apply IH in Eb. destruct Eb as [-> [new2 [-> Hnew2]]].
        split; [reflexivity|]. exists (new ++ new2). simpl.
        split; [now rewrite app_assoc|].
        apply Forall_app. split; [assumption|].
        eapply Forall_impl; [|exact Hnew2].
        intros s Hs. eapply recordedBelow_step; eauto. }
    destruct HI as [Hp Hnew]. simpl in Hp, Hnew. subst p.
    rewrite removelast_last. now split.
Qed.

Lemma exploreFrom_sound fuel graph minNumNodes nodeKey solutions solutions' :
  exploreFrom fuel graph minNumNodes nodeKey solutions = Some (Return solutions') ->
  exists new, solutions' = solutions ++ new
              /\ Forall (recordedBelow graph minNumNodes []) new.
Proof.
  unfold exploreFrom. intros E.
  destruct (exploreWordGraph fuel nodeKey [] graph [] minNumNodes solutions)
    as [[[[p sp] sols]|e]|] eqn:Ex; try discriminate.
  inversion E; subst. now apply exploreWordGraph_sound in Ex.
Qed.

(** Every solution of a completed search was recorded below the empty
    chain. *)
Lemma findSolutions_sound fuel graph minNumNodes sols :
  findSolutions fuel graph minNumNodes = Some (Return sols) ->
  Forall (recordedBelow graph minNumNodes []) sols.
Proof.
  unfold findSolutions. intros E.
  eapply (forEachT_inv _ (Forall (recordedBelow graph minNumNodes [])));
    [constructor| |exact E].
  intros x s s' _ Hs Eb. apply exploreFrom_sound in Eb.
  destruct Eb as [new [-> Hnew]]. apply Forall_app. now split.
Qed.

(** The depth guard bounds the nesting of calls: with 27 units of fuel for
    the empty chain, no call runs out of fuel. *)
Lemma exploreWordGraph_total : forall fuel nodeKey path graph seenPaths minNumNodes
    solutions,
  1 <= fuel -> 27 <= fuel + length path ->
  exists r, exploreWordGraph fuel nodeKey path graph seenPaths minNumNodes solutions
            = Some r.
Proof.
  induction fuel as [|fuel IH]; intros nodeKey path graph seenPaths minNumNodes
    solutions Hfuel Hlen; [lia|]. simpl.
  destruct (25 <? length path) eqn:Hcap; [eauto|].
  apply Nat.ltb_ge in Hcap.
  destruct (Graph.node graph nodeKey) as [nodeWord|]; [|eauto].
  destruct (allDefined (map (fun key => Graph.node graph key) path))
    as [seenWords|]; [|eauto].
  destruct (hasNewNode nodeWord seenWords); simpl; [|eauto].
  destruct (JsSet.has (join "" (path ++ [nodeKey])) seenPaths); [eauto|].
  destruct (minNumNodes <=? JsSet.size (letterNodesOf (seenWords ++ [nodeWord])));
    [eauto|].
  match goal with
  | |- exists r, match ?loop with _ => _ end = _ =>
      assert (Hloop : exists r, loop = Some r)
  end.
  { apply (forEachT_total _
             (fun st : list string * list string * list LetterBoxSolution =>
                fst (fst st) = path ++ [nodeKey])); [reflexivity|].
    intros x [[p sp] sols] _ Hp. simpl in Hp. subst p.
    destruct (IH x (path ++ [nodeKey]) graph sp minNumNodes sols) as [r Er].
    - lia.
    - rewrite length_app. simpl. lia.
    - exists r. split; [assumption|].
      intros [[p' sp'] sols'] ->. simpl.
      now apply exploreWordGraph_sound in Er. }
  destruct Hloop as [r ->]. destruct r as [[[p sp] sols]|e]; eauto.
Qed.

Lemma forEachT_ext {A S} (body1 body2 : A -> S -> option (outcome S)) :
  forall l s r,
    (forall x s r, body1 x s = Some r -> body2 x s = Some r) ->
    forEachT body1 l s = Some r -> forEachT body2 l s = Some r.
Proof.
  induction l as [|x l IH]; simpl; intros s r Hb E; [assumption|].
  destruct (body1 x s) as [[s'|e]|] eqn:E1; try discriminate;
    rewrite (Hb _ _ _ E1); eauto.
Qed.

(** More fuel does not change a result. *)
Lemma exploreWordGraph_fuel_S : forall fuel nodeKey path graph seenPaths minNumNodes
    solutions r,
  exploreWordGraph fuel nodeKey path graph seenPaths minNumNodes solutions = Some r ->
  exploreWordGraph (S fuel) nodeKey path graph seenPaths minNumNodes solutions = Some r.
Proof.
  induction fuel as [|fuel IH]; intros nodeKey path graph seenPaths minNumNodes
    solutions r E; [discriminate|].
  simpl in E. remember (S fuel) as fuel1 eqn:Hfuel1. simpl.
  destruct (25 <? length path); [assumption|].
  destruct (Graph.node graph nodeKey) as [nodeWord|]; [|assumption].
  destruct (allDefined (map (fun key => Graph.node graph key) path))
    as [seenWords|]; [|assumption].
  destruct (hasNewNode nodeWord seenWords); simpl in *; [|assumption].
  destruct (JsSet.has (join "" (path ++ [nodeKey])) seenPaths); [assumption|].
  destruct (minNumNodes <=? JsSet.size (letterNodesOf (seenWords ++ [nodeWord])));
    [assumption|].
  match type of E with
  | match ?loop with _ => _ end = _ => destruct loop as [r0|] eqn:Eloop
  end; [|discriminate].
  erewrite forEachT_ext; [exact E| |exact Eloop].
  intros x [[p sp] sols] r1 Er1. subst fuel1. now apply IH.
Qed.

Lemma exploreWordGraph_fuel_le fuel fuel' nodeKey path graph seenPaths minNumNodes
    solutions r :
  fuel <= fuel' ->
  exploreWordGraph fuel nodeKey path graph seenPaths minNumNodes solutions = Some r ->
  exploreWordGraph fuel' nodeKey path graph seenPaths minNumNodes solutions = Some r.
Proof.
  induction 1 as [|fuel' _ IH]; [tauto|].
  intros E. now apply exploreWordGraph_fuel_S, IH.
Qed.

(** [findSolutions] always comes to an end, with a list of solutions or a
    thrown error, and 27 units of fuel are as good as any larger amount. *)
Lemma findSolutions_total graph minNumNodes :
  exists r, findSolutions 27 graph minNumNodes = Some r.
Proof.
  unfold findSolutions.
  apply (forEachT_total _ (fun _ => True)); [exact I|].
  intros x s _ _. unfold exploreFrom.
  destruct (exploreWordGraph_total 27 x [] graph [] minNumNodes s)
    as [r Er]; [lia | simpl; lia |].
  rewrite Er. destruct r as [[[p sp] sols]|e]; eauto.
Qed.

Lemma findSolutions_fuel fuel graph minNumNodes :
  27 <= fuel ->
  findSolutions fuel graph minNumNodes = findSolutions 27 graph minNumNodes.
Proof.
  intros Hfuel. destruct (findSolutions_total graph minNumNodes) as [r Er].
  rewrite Er. unfold findSolutions in *.
  eapply forEachT_ext; [|exact Er].
  intros x s r1. unfold exploreFrom.
  destruct (exploreWordGraph 27 x [] graph [] minNumNodes s) as [r0|] eqn:E0;
    [|discriminate].
  now rewrite (exploreWordGraph_fuel_le _ _ _ _ _ _ _ _ _ Hfuel E0).
Qed.

(** C5. A call of the search whose chain so far has more than 25 words
    throws the overflow error, whatever the graph and without any nested
    call (one unit of fuel is enough); a call whose chain has at most 25
    words does not itself throw it; and an error thrown while exploring
    from a start node ends [findSolutions] with that error. *)
Theorem exploreWordGraph_depth_guard fuel nodeKey path graph seenPaths minNumNodes
    solutions :
  (25 < length path ->
   exploreWordGraph (S fuel) nodeKey path graph seenPaths minNumNodes solutions
     = Some (Throw (Error "too many paths")))
  /\ (length path <= 25 ->
      exploreWordGraph 1 nodeKey path graph seenPaths minNumNodes solutions
        <> Some (Throw (Error "too many paths")))
  /\ (forall pre post solutions1 e,
        Graph.nodes graph = pre ++ nodeKey :: post ->
        forEachT (exploreFrom (S fuel) graph minNumNodes) pre [] = Some (Return solutions1) ->
        exploreFrom (S fuel) graph minNumNodes nodeKey solutions1 = Some (Throw e) ->
        findSolutions (S fuel) graph minNumNodes = Some (Throw e)).
Proof.
  split; [|split].
  - intros Hlen. simpl. apply Nat.ltb_lt in Hlen. now rewrite Hlen.
  - intros Hlen. simpl. apply Nat.ltb_ge in Hlen. rewrite Hlen.
    destruct (Graph.node graph nodeKey) as [nodeWord|]; [|discriminate].
    destruct (allDefined (map (fun key => Graph.node graph key) path))
      as [seenWords|]; [|discriminate].
    destruct (hasNewNode nodeWord seenWords); simpl; [|discriminate].
    destruct (JsSet.has (join "" (path ++ [nodeKey])) seenPaths); [discriminate|].
    destruct (minNumNodes <=? JsSet.size (letterNodesOf (seenWords ++ [nodeWord])));
      [discriminate|].
    destruct (orEmpty (Graph.successors graph nodeKey)); simpl; discriminate.
  - intros pre post solutions1 e Hnodes Hpre Hthrow.
    unfold findSolutions. rewrite Hnodes.
    now apply forEachT_throw with (s1 := solutions1).
Qed.

Lemma exploreWordGraph_depth_guard_witness :
  exploreWordGraph 1 "26" (map string_of_nat (seq 0 26)) (chainGraph 27) [] 100 []
    = Some (Throw (Error "too many paths"))
  /\ exploreWordGraph 1 "0" [] (chainGraph 27) [] 100 []
     <> Some (Throw (Error "too many paths"))
  /\ findSolutions 27 (chainGraph 27) 100 = Some (Throw (Error "too many paths")).
Proof.
  split; [|split].
  - apply (exploreWordGraph_depth_guard 0 "26" (map string_of_nat (seq 0 26))
             (chainGraph 27) [] 100 []).
    simpl. lia.
  - apply (exploreWordGraph_depth_guard 0 "0" [] (chainGraph 27) [] 100 []).
    simpl. lia.
  - apply (proj2 (proj2 (exploreWordGraph_depth_guard 26 "0" [] (chainGraph 27) [] 100 []))
             [] (tl (Graph.nodes (chainGraph 27))) [] (Error "too many paths")).
    + reflexivity.
    + reflexivity.
    + vm_compute. reflexivity.
Defined.

(** C10. In a run of [findSolutions] that returns, every recorded chain
    has at most 26 words. *)
Theorem findSolutions_chain_at_most_26 fuel graph minNumNodes sols :
  findSolutions fuel graph minNumNodes = Some (Return sols) ->
  Forall (fun s => length (letterBoxWordList s) <= 26) sols.
Proof.
  intros E. apply findSolutions_sound in E.
  eapply Forall_impl; [|exact E].
  intros s [ext [_ [Ed [_ [_ [_ [Hlen _]]]]]]].
  rewrite (allDefined_length _ _ Ed), length_map. exact Hlen.
Qed.

(** The bound is reached: the chain of 26 one-letter words is recorded. *)
Lemma findSolutions_chain_at_most_26_witness :
  exists sols,
    findSolutions 27 (chainGraph 26) 26 = Some (Return sols)
    /\ map (fun s => length (letterBoxWordList s)) sols = [26]
    /\ Forall (fun s => length (letterBoxWordList s) <= 26) sols.
Proof.
  eexists. split; [vm_compute; reflexivity|]. split; [reflexivity|].
  apply (findSolutions_chain_at_most_26 27 (chainGraph 26) 26).
  vm_compute. reflexivity.
Defined.

Lemma JsMap_get_In {K V} `{EqLaws K} (k : K) (m : list (K * V)) v :
  JsMap.get k m = Some v -> In (k, v) m.
Proof.
  induction m as [|[k' v'] m IH]; simpl; [discriminate|].
  destruct (eqb k k') eqn:E.
  - intros Ev. inversion Ev; subst. apply eqb_iff in E. subst. now left.
  - intros Ev. right. now apply IH.
Qed.

Lemma node_labelsOf {L} (g : Graph.Graph L) key l :
  Graph.node g key = Some l -> In l (labelsOf g).
Proof.
  unfold Graph.node, labelsOf. intros E.
  destruct (JsMap.get key (Graph.nodeLabels g)) as [o|] eqn:Eg; [|discriminate].
  subst o. apply JsMap_get_In in Eg.
  apply in_flat_map. exists (key, Some l). split; [assumption | now left].
Qed.

(** A chain of words that walk over the nodes of a graph covers at most as
    many letter nodes as the graph has. *)
Lemma coverage_le_nodeCount (letterGraph : Graph.Graph string) chain :
  (forall w, In w chain -> incl (nodeKeys w) (Graph.nodes letterGraph)) ->
  coverage chain <= Graph.nodeCount letterGraph.
Proof.
  intros Hin. unfold coverage, JsSet.size, Graph.nodeCount.
  rewrite <- (length_map fst (Graph.nodeLabels letterGraph)).
  apply NoDup_incl_length; [apply of_list_NoDup|].
  intros k Hk. apply (proj1 (of_list_In _ _)) in Hk.
  apply in_concat in Hk. destruct Hk as [ks [Hks Hk]].
  apply in_map_iff in Hks. destruct Hks as [w [<- Hw]].
  now apply (Hin w Hw).
Qed.

Lemma onBox_incl letterGraph wordGraph key w :
  onBox letterGraph wordGraph = true ->
  Graph.node wordGraph key = Some w ->
  incl (nodeKeys w) (Graph.nodes letterGraph).
Proof.
  unfold onBox. intros Hbox Hnode k Hk.
  rewrite forallb_forall in Hbox.
  specialize (Hbox w (node_labelsOf _ _ _ Hnode)).
  rewrite forallb_forall in Hbox. now apply has_In, Hbox.
Qed.

(** C4. When the words of the word graph walk over the letter graph of the
    box and the target is the number of its letter nodes, every solution
    of a run that returns covers exactly that many distinct letter nodes,
    which is also the count it records, and no proper prefix of its chain
    (the empty one included) covers them all. *)
Theorem findSolutions_cover_at_last_word fuel letterGraph wordGraph sols :
  onBox letterGraph wordGraph = true ->
  findSolutions fuel wordGraph (Graph.nodeCount letterGraph) = Some (Return sols) ->
  Forall (fun s =>
            numSeenLetterNodes s = Graph.nodeCount letterGraph
            /\ coverage (letterBoxWordList s) = Graph.nodeCount letterGraph
            /\ forall k, k < length (letterBoxWordList s) ->
                 coverage (firstn k (letterBoxWordList s))
                 < Graph.nodeCount letterGraph)
         sols.
Proof.
  intros Hbox E. apply findSolutions_sound in E.
  eapply Forall_impl; [|exact E].
  intros s [ext [Hne [Ed [Hnum [Hpos [Hmin [Hlen Hpre]]]]]]].
  assert (Hle : coverage (letterBoxWordList s) <= Graph.nodeCount letterGraph).
  { apply coverage_le_nodeCount. intros w Hw.
    eapply allDefined_In in Hw; [|exact Ed]. apply in_map_iff in Hw.
    destruct Hw as [key [Hkey _]]. eapply onBox_incl; eauto. }
  repeat split; try lia.
  intros k Hk. destruct k as [|k].
  - simpl. unfold coverage at 1. simpl. lia.
  - apply Hpre; simpl; [lia|].
    rewrite (allDefined_length _ _ Ed), length_map in Hk. exact Hk.
Qed.

(** ** Trie Index *)

Section MapFacts.
Context {K V : Type} `{EqLaws K}.

Lemma eqb_refl' (k : K) : eqb k k = true.
Proof. now apply eqb_iff. Qed.

Lemma eqb_false_iff (k k' : K) : eqb k k' = false <-> k <> k'.
Proof.
  rewrite <- (eqb_iff k k'). destruct (eqb k k'); split; congruence.
Qed.

Lemma get_set_same (k : K) (v : V) m : JsMap.get k (JsMap.set k v m) = Some v.
Proof.
  induction m as [|[k' v'] m IH]; simpl.
  - now rewrite eqb_refl'.
  - destruct (eqb k k') eqn:E; simpl; [now rewrite eqb_refl' | now rewrite E].
Qed.

Lemma get_set_other (k k' : K) (v : V) m :
  k' <> k -> JsMap.get k' (JsMap.set k v m) = JsMap.get k' m.
Proof.
  intros Hne. induction m as [|[k0 v0] m IH]; simpl.
  - apply eqb_false_iff in Hne. now rewrite Hne.
  - destruct (eqb k k0) eqn:E; simpl.
    + apply eqb_iff in E. subst k0.
      apply eqb_false_iff in Hne. now rewrite Hne.
    + destruct (eqb k' k0); [reflexivity | exact IH].
Qed.

Lemma get_In_key (k : K) (m : list (K * V)) v :
  JsMap.get k m = Some v -> In k (JsMap.keys m).
Proof.
  intros E. apply JsMap_get_In in E. unfold JsMap.keys.
  apply in_map_iff. now exists (k, v).
Qed.

Lemma In_key_get (k : K) (m : list (K * V)) :
  In k (JsMap.keys m) -> exists v, JsMap.get k m = Some v.
Proof.
  unfold JsMap.keys. induction m as [|[k' v'] m IH]; simpl; [tauto|].
  intros [->|Hin].
  - rewrite eqb_refl'. eauto.
  - destruct (eqb k k'); eauto.
Qed.

Lemma has_keys (k : K) (m : list (K * V)) :
  JsMap.has k m = true <-> In k (JsMap.keys m).
Proof.
  unfold JsMap.has. split.
  - destruct (JsMap.get k m) eqn:E; [|discriminate].
    intros _. eapply get_In_key; eauto.
  - intros Hin. apply In_key_get in Hin. destruct Hin as [v ->]. reflexivity.
Qed.

Lemma keys_set (k : K) (v : V) m :
  JsMap.keys (JsMap.set k v m) =
  if JsMap.has k m then JsMap.keys m else JsMap.keys m ++ [k].
Proof.
  unfold JsMap.has, JsMap.keys.
  induction m as [|[k' v'] m IH]; simpl; [reflexivity|].
  destruct (eqb k k') eqn:E; simpl.
  - apply eqb_iff in E. now subst.
  - rewrite IH. now destruct (JsMap.get k m).
Qed.
End MapFacts.

Lemma node_induction (P : TrieSearch.node -> Prop) :
  (forall v cs, Forall (fun p => P (snd p)) cs -> P (TrieSearch.Node v cs)) ->
  forall n, P n.
Proof.
  intros HP. fix IH 1. intros [v cs]. apply HP.
  induction cs as [|[k c] cs IHcs]; constructor; [apply IH | exact IHcs].
Qed.

Lemma valueAt_new key : valueAt key TrieSearch.new = [].
Proof. destruct key; reflexivity. Qed.

Lemma string_eqb_cons a b s t :
  String.eqb (String a s) (String b t) = Ascii.eqb a b && String.eqb s t.
Proof.
  simpl. destruct (Ascii.eqb a b); reflexivity.
Qed.

(** Inserting under [key] adds the item at [key] and changes nothing else. *)
Lemma insert_valueAt : forall key k v n,
  valueAt k (TrieSearch.insert key v n) =
  if String.eqb k key then valueAt k n ++ [v] else valueAt k n.
Proof.
  unfold valueAt.
  induction key as [|a rest IH]; intros k v [val cs]; simpl.
  - destruct k as [|b k']; reflexivity.
  - destruct k as [|b k']; [reflexivity|].
    rewrite string_eqb_cons. simpl.
    destruct (Ascii.eqb b a) eqn:Eab.
    + apply Ascii.eqb_eq in Eab. subst b. rewrite get_set_same. simpl.
      rewrite IH.
      destruct (JsMap.get a cs) as [c|]; [reflexivity|].
      fold (valueAt k' TrieSearch.new). rewrite valueAt_new.
      now destruct (String.eqb k' rest).
    + apply Ascii.eqb_neq in Eab. rewrite get_set_other by assumption.
      reflexivity.
Qed.

Lemma findNode_app : forall k1 k2 n n1,
  TrieSearch.findNode k1 n = Some n1 ->
  TrieSearch.findNode (k1 ++ k2)%string n = TrieSearch.findNode k2 n1.
Proof.
  induction k1 as [|a k1 IH]; simpl; intros k2 n n1 E.
  - now inversion E.
  - destruct (JsMap.get a (TrieSearch.children n)) as [c|]; [|discriminate].
    now apply IH.
Qed.

Lemma aggregate_eq v cs :
  TrieSearch.aggregate (TrieSearch.Node v cs) =
  v ++ flat_map (fun p => TrieSearch.aggregate (snd p)) cs.
Proof.
  simpl. f_equal. induction cs as [|[k c] cs IH]; simpl; [reflexivity|].
  now rewrite IH.
Qed.

Lemma aggregate_new : TrieSearch.aggregate TrieSearch.new = [].
Proof. reflexivity. Qed.

(** An insertion adds its item to what the trie holds, and nothing else. *)
Lemma insert_aggregate : forall key v n x,
  In x (TrieSearch.aggregate (TrieSearch.insert key v n)) <->
  x = v \/ In x (TrieSearch.aggregate n).
Proof.
  induction key as [|a rest IH]; intros v [val cs] x; simpl TrieSearch.insert.
  - rewrite !aggregate_eq, !in_app_iff. simpl. intuition congruence.
  - simpl TrieSearch.value. simpl TrieSearch.children.
    rewrite !aggregate_eq, !in_app_iff.
    assert (Hcs : In x (flat_map (fun p => TrieSearch.aggregate (snd p))
                     (JsMap.set a
                        (TrieSearch.insert rest v
                           match JsMap.get a cs with
                           | Some c => c
                           | None => TrieSearch.new
                           end) cs))
                  <-> x = v \/ In x (flat_map (fun p => TrieSearch.aggregate (snd p)) cs)).
    { clear val. induction cs as [|[k' c'] cs IHcs]; simpl.
      - rewrite app_nil_r, IH, aggregate_new. simpl. tauto.
      - destruct (Ascii.eqb a k') eqn:E; simpl.
        + rewrite !in_app_iff, IH. tauto.
        + rewrite !in_app_iff, IHcs. tauto. }
    rewrite Hcs. tauto.
Qed.

Lemma findNode_aggregate : forall key n n' v,
  TrieSearch.findNode key n = Some n' ->
  In v (TrieSearch.aggregate n') -> In v (TrieSearch.aggregate n).
Proof.
  induction key as [|a rest IH]; simpl; intros [val cs] n' v E Hv.
  - inversion E; now subst.
  - simpl in E. destruct (JsMap.get a cs) as [c|] eqn:Ec; [|discriminate].
    rewrite aggregate_eq. apply in_or_app. right.
    apply in_flat_map. exists (a, c). split; [now apply JsMap_get_In|].
    simpl. eapply IH; eauto.
Qed.

Lemma depth_child v cs k c :
  In (k, c) cs -> S (TrieSearch.depth c) <= TrieSearch.depth (TrieSearch.Node v cs).
Proof.
  cbn -[Nat.max]. induction cs as [|[k' c'] cs IH]; cbn -[Nat.max]; [tauto|].
  intros [E|Hin].
  - inversion E; subst. lia.
  - specialize (IH Hin). lia.
Qed.

(** A key that leads to a node is no longer than the trie is deep. *)
Lemma findNode_depth : forall key n n',
  TrieSearch.findNode key n = Some n' -> String.length key <= TrieSearch.depth n.
Proof.
  induction key as [|a rest IH]; simpl; intros [val cs] n' E; [lia|].
  simpl in E. destruct (JsMap.get a cs) as [c|] eqn:Ec; [|discriminate].
  apply JsMap_get_In in Ec. apply (depth_child val) in Ec.
  specialize (IH _ _ E). lia.
Qed.

Lemma isSpace_lowerChar c : TrieSearch.isSpace (lowerChar c) = TrieSearch.isSpace c.
Proof.
  destruct c as [[] [] [] [] [] [] [] []]; reflexivity.
Qed.

Lemma isLower_facts c :
  isLower c = true -> lowerChar c = c /\ TrieSearch.isSpace c = false.
Proof.
  destruct c as [[] [] [] [] [] [] [] []]; simpl; intros E;
    try discriminate; split; reflexivity.
Qed.

Lemma toLowerCase_length s : String.length (toLowerCase s) = String.length s.
Proof. induction s as [|c s IH]; simpl; congruence. Qed.

Lemma hasSpace_toLowerCase s :
  TrieSearch.hasSpace (toLowerCase s) = TrieSearch.hasSpace s.
Proof.
  induction s as [|c s IH]; simpl; [reflexivity|].
  now rewrite isSpace_lowerChar, IH.
Qed.

Lemma splitSpace_no_space s :
  TrieSearch.hasSpace s = false -> TrieSearch.splitSpace s = [s].
Proof.
  induction s as [|c s IH]; simpl; [reflexivity|].
  intros E. apply orb_false_iff in E. destruct E as [Ec Es].
  now rewrite Ec, (IH Es).
Qed.

Lemma allLower_facts s :
  allChars isLower s = true -> toLowerCase s = s /\ TrieSearch.hasSpace s = false.
Proof.
  induction s as [|c s IH]; simpl; [auto|].
  intros E. apply andb_true_iff in E. destruct E as [Ec Es].
  destruct (isLower_facts c Ec) as [-> ->]. destruct (IH Es) as [-> ->]. auto.
Qed.

Lemma haAddAll_In l : forall ha x,
  In x (TrieSearch.haAddAll l ha) -> In x l \/ In x ha.
Proof.
  unfold TrieSearch.haAddAll.
  induction l as [|y l IH]; simpl; intros ha x Hx; [auto|].
  apply IH in Hx. destruct Hx as [Hx|Hx]; [auto|].
  unfold TrieSearch.haAdd in Hx.
  destruct (existsb (TrieSearch.item_eqb y) ha); [auto|].
  apply in_app_or in Hx. simpl in Hx. intuition.
Qed.

(** The first item of a hash array stays first. *)
Lemma haAddAll_head l : forall x ha,
  exists t, TrieSearch.haAddAll l (x :: ha) = x :: t.
Proof.
  unfold TrieSearch.haAddAll.
  induction l as [|y l IH]; simpl; intros x ha; [eauto|].
  unfold TrieSearch.haAdd at 2.
  destruct (existsb (TrieSearch.item_eqb y) (x :: ha)); simpl; apply IH.
Qed.

Lemma haAddAll_first x l :
  exists t, TrieSearch.haAddAll (x :: l) [] = x :: t.
Proof.
  unfold TrieSearch.haAddAll. simpl. apply haAddAll_head.
Qed.

(** Every item a search returns is held by the trie. *)
Lemma search_aggregate phrase t x :
  In x (TrieSearch.search phrase t) -> In x (TrieSearch.aggregate t).
Proof.
  unfold TrieSearch.search. intros Hx.
  apply haAddAll_In in Hx. destruct Hx as [Hx|[]].
  unfold TrieSearch.get1 in Hx.
  set (step := fun (ret : option (list TriNode.t)) (w : string) => _) in Hx.
  assert (Hfold : forall ws ret,
            (forall r y, ret = Some r -> In y r -> In y (TrieSearch.aggregate t)) ->
            forall r y, fold_left step ws ret = Some r -> In y r ->
                        In y (TrieSearch.aggregate t)).
  { induction ws as [|w ws IH]; simpl; intros ret Hret; [exact Hret|].
    apply IH. unfold step at 1.
    destruct (String.length w <? 1); [exact Hret|].
    intros r y Er Hy. inversion Er; subst; clear Er.
    assert (Htemp : forall z,
              In z match TrieSearch.findNode w t with
                   | Some n => TrieSearch.haAddAll (TrieSearch.aggregate n) []
                   | None => []
                   end -> In z (TrieSearch.aggregate t)).
    { intros z Hz. destruct (TrieSearch.findNode w t) as [n|] eqn:En; [|destruct Hz].
      apply haAddAll_In in Hz. destruct Hz as [Hz|[]].
      eapply findNode_aggregate; eauto. }
    destruct ret as [r0|]; [|now apply Htemp].
    unfold TrieSearch.intersection in Hy.
    apply haAddAll_In in Hy. destruct Hy as [Hy|[]].
    apply filter_In in Hy. destruct Hy as [Hy _].
    apply in_app_or in Hy. destruct Hy as [Hy|Hy]; [eapply Hret; eauto | now apply Htemp]. }
  destruct (fold_left step _ None) as [r|] eqn:Er; [|destruct Hx].
  eapply Hfold; [|exact Er|exact Hx]. discriminate.
Qed.

(** The search for a phrase without white space: the items at and below
    the node of the lower-cased phrase. *)
Lemma search_no_space phrase t :
  TrieSearch.hasSpace phrase = false -> phrase <> "" ->
  TrieSearch.search phrase t =
  TrieSearch.haAddAll
    match TrieSearch.findNode (toLowerCase phrase) t with
    | Some n => TrieSearch.haAddAll (TrieSearch.aggregate n) []
    | None => []
    end [].
Proof.
  intros Hsp Hne. unfold TrieSearch.search, TrieSearch.get1.
  rewrite splitSpace_no_space by (now rewrite hasSpace_toLowerCase).
  simpl. rewrite toLowerCase_length.
  destruct phrase as [|c phrase]; [congruence|]. reflexivity.
Qed.

Lemma add_aggregate obj t x :
  In x (TrieSearch.aggregate (TrieSearch.add obj t)) ->
  x = obj \/ In x (TrieSearch.aggregate t).
Proof.
  unfold TrieSearch.add, TrieSearch.map.
  destruct (String.eqb (TriNode.word obj) ""); [auto|].
  destruct (TrieSearch.hasSpace (TriNode.word obj)); [|apply insert_aggregate].
  destruct (forallb _ _); [apply insert_aggregate|].
  generalize (TrieSearch.splitSpace (TriNode.word obj)). intros ps. revert t.
  induction ps as [|p ps IH]; simpl; intros t Hx; [auto|].
  apply IH in Hx. destruct Hx as [Hx|Hx]; [auto|].
  destruct (String.eqb p ""); [auto|]. now apply insert_aggregate in Hx.
Qed.

(** The trie holds nothing but items made from the words it was built from. *)
Lemma createTrie_aggregate words x :
  In x (TrieSearch.aggregate (createTrie words)) -> In (TriNode.word x) words.
Proof.
  unfold createTrie.
  assert (H : forall ws t,
            In x (TrieSearch.aggregate
                    (fold_left (fun trie word => TrieSearch.add (TriNode.mk word) trie) ws t)) ->
            In x (TrieSearch.aggregate t) \/ In (TriNode.word x) ws).
  { induction ws as [|w ws IH]; simpl; intros t Hx; [auto|].
    apply IH in Hx. destruct Hx as [Hx|Hx]; [|auto].
    apply add_aggregate in Hx. destruct Hx as [->|Hx]; auto. }
  intros Hx. apply H in Hx. destruct Hx as [Hx|Hx]; [destruct Hx | exact Hx].
Qed.

Lemma add_lower w t :
  isLowerWord w = true ->
  TrieSearch.add (TriNode.mk w) t = TrieSearch.insert w (TriNode.mk w) t.
Proof.
  unfold isLowerWord, TrieSearch.add, TrieSearch.map. simpl. intros E.
  apply andb_true_iff in E. destruct E as [Hne Hlow].
  apply negb_true_iff in Hne. rewrite Hne.
  destruct (allLower_facts w Hlow) as [-> ->]. reflexivity.
Qed.

(** In the trie of a normalized dictionary, every word is stored under
    itself, and only there. *)
Lemma createTrie_valueAt words :
  normalized words = true ->
  (forall k x, In x (valueAt k (createTrie words)) -> TriNode.word x = k)
  /\ (forall w, In w words -> In (TriNode.mk w) (valueAt w (createTrie words))).
Proof.
  unfold createTrie, normalized. intros Hn.
  assert (H : forall ws t,
            forallb isLowerWord ws = true ->
            (forall k x, In x (valueAt k t) -> TriNode.word x = k) ->
            let t' := fold_left (fun trie word => TrieSearch.add (TriNode.mk word) trie) ws t in
            (forall k x, In x (valueAt k t') -> TriNode.word x = k)
            /\ (forall k x, In x (valueAt k t) -> In x (valueAt k t'))
            /\ (forall w, In w ws -> In (TriNode.mk w) (valueAt w t'))).
  { induction ws as [|w ws IH]; simpl; intros t Hws Ht; [tauto|].
    apply andb_true_iff in Hws. destruct Hws as [Hw Hws].
    rewrite (add_lower _ _ Hw).
    destruct (IH (TrieSearch.insert w (TriNode.mk w) t) Hws) as [H1 [H2 H3]].
    - intros k x. rewrite insert_valueAt.
      destruct (String.eqb k w) eqn:E; [|apply Ht].
      apply String.eqb_eq in E. subst k. intros Hx. apply in_app_or in Hx.
      destruct Hx as [Hx|[<-|[]]]; [now apply Ht | reflexivity].
    - split; [exact H1|]. split.
      + intros k x Hx. apply H2. rewrite insert_valueAt.
        destruct (String.eqb k w); [apply in_or_app|]; auto.
      + intros w' [<-|Hw']; [|now apply H3].
        apply H2. rewrite insert_valueAt, String.eqb_refl.
        apply in_or_app. right. now left. }
  destruct (H words TrieSearch.new Hn) as [H1 [_ H3]].
  - intros k x. rewrite valueAt_new. intros [].
  - split; assumption.
Qed.

(** C2. For a trie built from a normalized dictionary and for every string
    [s], [isWord] answers true exactly when [s] has at least 3 characters
    and is an entry of the dictionary. *)
Theorem isWord_iff_entry (words : list string) (s : string) :
  normalized words = true ->
  isWord s (createTrie words) = true <-> 3 <= String.length s /\ In s words.
Proof.
  intros Hn. unfold isWord. split.
  - destruct (String.length s <? 3) eqn:Hlen; [discriminate|].
    apply Nat.ltb_ge in Hlen. intros E. split; [exact Hlen|].
    destruct (TrieSearch.search s (createTrie words)) as [|w ws] eqn:Es;
      [discriminate|].
    simpl in E. apply String.eqb_eq in E. subst s.
    apply createTrie_aggregate. apply (search_aggregate (TriNode.word w)).
    rewrite Es. now left.
  - intros [Hlen Hin].
    assert (Hlow : isLowerWord s = true).
    { unfold normalized in Hn. rewrite forallb_forall in Hn. now apply Hn. }
    apply Nat.ltb_ge in Hlen. rewrite Hlen.
    unfold isLowerWord in Hlow. apply andb_true_iff in Hlow.
    destruct Hlow as [Hne Hchars]. apply negb_true_iff, String.eqb_neq in Hne.
    destruct (allLower_facts s Hchars) as [Hlc Hsp].
    rewrite (search_no_space _ _ Hsp Hne), Hlc.
    destruct (createTrie_valueAt words Hn) as [Hat Hstored].
    specialize (Hstored s Hin). unfold valueAt in Hstored, Hat.
    destruct (TrieSearch.findNode s (createTrie words)) as [[val cs]|] eqn:En;
      [|destruct Hstored].
    simpl in Hstored. rewrite aggregate_eq.
    destruct val as [|x0 val]; [destruct Hstored|].
    assert (Hx0 : TriNode.word x0 = s).
    { apply Hat. rewrite En. now left. }
    simpl app. destruct (haAddAll_first x0 (val ++ flat_map (fun p => TrieSearch.aggregate (snd p)) cs)) as [t1 ->].
    destruct (haAddAll_first x0 t1) as [t2 ->].
    simpl. rewrite Hx0. apply String.eqb_refl.
Qed.

Lemma isWord_iff_entry_witness :
  normalized ["cat"; "cats"; "car"] = true
  /\ (isWord "cat" (createTrie ["cat"; "cats"; "car"]) = true
      <-> 3 <= String.length "cat" /\ In "cat" ["cat"; "cats"; "car"]).
Proof.
  split; [reflexivity|].
  apply (isWord_iff_entry ["cat"; "cats"; "car"] "cat"). reflexivity.
Defined.

(** ** Word Finder *)

Lemma forEachM_inv {A S} (body : A -> S -> option S) (I : S -> Prop) :
  forall l s r,
    I s ->
    (forall x s s', In x l -> I s -> body x s = Some s' -> I s') ->
    forEachM body l s = Some r -> I r.
Proof.
  induction l as [|x l IH]; simpl; intros s r Hs Hbody E.
  - inversion E; now subst.
  - destruct (body x s) as [s'|] eqn:Eb; [|discriminate].
    apply (IH s' r); eauto.
Qed.

Lemma forEachM_total {A S} (body : A -> S -> option S) (I : S -> Prop) :
  forall l s,
    I s ->
    (forall x s, In x l -> I s -> exists s', body x s = Some s' /\ I s') ->
    exists r, forEachM body l s = Some r /\ I r.
Proof.
  induction l as [|x l IH]; simpl; intros s Hs Hbody.
  - eauto.
  - destruct (Hbody x s (or_introl eq_refl) Hs) as [s' [Es' Hs']]. rewrite Es'.
    apply IH; [exact Hs' | intros; apply Hbody; auto].
Qed.

Lemma edge_eqb_eq e1 e2 : Graph.edge_eqb e1 e2 = true <-> e1 = e2.
Proof.
  unfold Graph.edge_eqb. destruct e1 as [a b], e2 as [c d]. simpl.
  rewrite andb_true_iff, !String.eqb_eq. split; [intros [-> ->]|intros E; inversion E]; auto.
Qed.

Lemma adjacent_iff {L} (g : Graph.Graph L) u v :
  adjacent g u v = true <->
  In (u, v) (Graph.edgeObjs g) \/ In (v, u) (Graph.edgeObjs g).
Proof.
  unfold adjacent. rewrite existsb_exists. split.
  - intros [e [He E]]. apply orb_true_iff in E.
    destruct E as [E|E]; apply edge_eqb_eq in E; subst; auto.
  - intros [H|H]; eexists; (split; [exact H|]); apply orb_true_iff;
      [left|right]; now apply edge_eqb_eq.
Qed.

(** The neighbours of a node are adjacent to it. *)
Lemma neighbors_adjacent {L} (g : Graph.Graph L) u v :
  In v (orEmpty (Graph.neighbors g u)) -> adjacent g u v = true.
Proof.
  unfold Graph.neighbors, Graph.predecessors, Graph.successors.
  destruct (Graph.hasNode g u); simpl; [|tauto].
  intros Hv. apply adjacent_iff.
  apply addAll_In in Hv. destruct Hv as [Hv|Hv].
  - left. apply in_map_iff in Hv. destruct Hv as [[a b] [<- He]].
    apply filter_In in He. destruct He as [He E]. simpl in E.
    apply String.eqb_eq in E. now subst.
  - right. apply (proj1 (of_list_In _ _)) in Hv.
    apply in_map_iff in Hv. destruct Hv as [[a b] [<- He]].
    apply filter_In in He. destruct He as [He E]. simpl in E.
    apply String.eqb_eq in E. now subst.
Qed.

(** A visit that returns leaves [path] as it found it and only appends
    words, each found below [path] from [nodeKey]. *)
Lemma visitNode_sound : forall fuel nodeKey path seenPaths graph trie words
    path' seenPaths' words',
  visitNode fuel nodeKey path seenPaths graph trie words
    = Some (path', seenPaths', words') ->
  path' = path
  /\ exists new, words' = words ++ new
               /\ Forall (foundBelow graph trie path nodeKey) new.
Proof.
  induction fuel as [|fuel IH]; intros nodeKey path seenPaths graph trie words
    path' seenPaths' words' E; simpl in E; [discriminate|].
  destruct (JsSet.has (join " " (path ++ [nodeKey])) seenPaths).
  { inversion E; subst. rewrite removelast_last. split; [reflexivity|].
    exists []. now rewrite app_nil_r. }
  set (words1 := if isWord (pathPrefix graph (path ++ [nodeKey])) trie
                 then words ++ [{| word := pathPrefix graph (path ++ [nodeKey]);
                                  nodeKeys := path ++ [nodeKey] |}]
                 else words) in E.
  assert (Hwords1 : exists new, words1 = words ++ new
                      /\ Forall (foundBelow graph trie path nodeKey) new).
  { unfold words1.
    destruct (isWord (pathPrefix graph (path ++ [nodeKey])) trie) eqn:Ew.
    - eexists. split; [reflexivity|]. constructor; [|constructor].
      exists []. simpl. auto.
    - exists []. now rewrite app_nil_r. }
  clearbody words1.
  destruct (isPrefix (pathPrefix graph (path ++ [nodeKey])) trie).
  2:{ inversion E; subst. rewrite removelast_last. now split. }
  match type of E with
  | match ?loop with _ => _ end = _ => destruct loop as [[[p sp] ws]|] eqn:Eloop
  end; [|discriminate].
  inversion E; subst. clear E.
  pose (I := fun st : list string * list string * list LetterBoxWord =>
               fst (fst st) = path ++ [nodeKey]
               /\ exists new, snd st = words ++ new
                    /\ Forall (foundBelow graph trie path nodeKey) new).
  assert (HI : I (p, seenPaths', words')).
  { eapply (forEachM_inv _ I); [| |exact Eloop].
    - split; [reflexivity|]. exact Hwords1.
    - intros x [[p0 sp0] ws0] [[p1 sp1] ws1] Hx [Hp [new [Hs Hnew]]] Eb.
      simpl in Hp, Hs. subst p0 ws0.
      apply IH in Eb. destruct Eb as [-> [new2 [-> Hnew2]]].
      split; [reflexivity|]. exists (new ++ new2). simpl.
      split; [now rewrite app_assoc|].
      apply Forall_app. split; [assumption|].
      eapply Forall_impl; [|exact Hnew2].
      intros w [ext [Hk [Hw [Hisw Hwalk]]]].
      exists (x :: ext). rewrite <- app_assoc in Hk. simpl in Hk.
      repeat split; try assumption.
      simpl. now rewrite (neighbors_adjacent _ _ _ Hx). }
  destruct HI as [Hp Hnew]. simpl in Hp, Hnew. subst p.
  rewrite removelast_last. now split.
Qed.

Lemma append_nil_r s : (s ++ "")%string = s.
Proof. induction s as [|c s IH]; simpl; congruence. Qed.

Lemma append_length s t :
  String.length (s ++ t)%string = String.length s + String.length t.
Proof. induction s as [|c s IH]; simpl; congruence. Qed.

Lemma append_assoc s t u : ((s ++ t) ++ u)%string = (s ++ t ++ u)%string.
Proof. induction s as [|c s IH]; simpl; congruence. Qed.

Lemma join_empty_cons x l : join "" (x :: l) = (x ++ join "" l)%string.
Proof.
  unfold join. destruct l as [|y l]; simpl; [now rewrite append_nil_r | reflexivity].
Qed.

Lemma hasSpace_append s t :
  TrieSearch.hasSpace (s ++ t)%string = TrieSearch.hasSpace s || TrieSearch.hasSpace t.
Proof.
  induction s as [|c s IH]; simpl; [reflexivity|].
  now rewrite IH, orb_assoc.
Qed.

Lemma hasNode_nodes {L} (g : Graph.Graph L) k :
  Graph.hasNode g k = true <-> In k (Graph.nodes g).
Proof. apply has_keys. Qed.

Lemma isLetter_facts l :
  isLetter l = true -> String.length l = 1 /\ TrieSearch.hasSpace l = false.
Proof.
  destruct l as [|c [|d l]]; simpl; try discriminate.
  intros E. apply negb_true_iff in E. rewrite E. auto.
Qed.

Lemma letterGraph_label g k :
  isLetterGraph g = true -> In k (Graph.nodes g) ->
  exists l, Graph.node g k = Some l /\ isLetter l = true.
Proof.
  unfold isLetterGraph. intros Hg Hk. apply andb_true_iff in Hg.
  destruct Hg as [Hn _]. rewrite forallb_forall in Hn. specialize (Hn k Hk).
  destruct (Graph.node g k) as [l|]; [eauto | discriminate].
Qed.

Lemma edgesClosed_adjacent {L} (g : Graph.Graph L) u v :
  edgesClosed g = true -> adjacent g u v = true ->
  In u (Graph.nodes g) /\ In v (Graph.nodes g).
Proof.
  unfold edgesClosed. intros He Hadj. rewrite forallb_forall in He.
  apply adjacent_iff in Hadj.
  destruct Hadj as [H|H]; apply He in H; simpl in H;
    apply andb_true_iff in H; destruct H as [H1 H2];
    split; now apply hasNode_nodes.
Qed.

Lemma walkFrom_closed {L} (g : Graph.Graph L) : forall ext u,
  edgesClosed g = true -> In u (Graph.nodes g) -> walkFrom g u ext = true ->
  Forall (fun k => In k (Graph.nodes g)) (u :: ext).
Proof.
  induction ext as [|v ext IH]; simpl; intros u Hg Hu Hw.
  - now constructor.
  - apply andb_true_iff in Hw. destruct Hw as [Hadj Hw].
    constructor; [assumption|]. apply IH; try assumption.
    now apply (edgesClosed_adjacent g u v).
Qed.

Lemma letterGraph_closed g : isLetterGraph g = true -> edgesClosed g = true.
Proof. unfold isLetterGraph. intros H. now apply andb_true_iff in H. Qed.

Lemma letterGraph_adjacent g u v :
  isLetterGraph g = true -> adjacent g u v = true ->
  In u (Graph.nodes g) /\ In v (Graph.nodes g).
Proof.
  intros Hg. apply edgesClosed_adjacent. now apply letterGraph_closed.
Qed.

Lemma walkFrom_nodes g ext u :
  isLetterGraph g = true -> In u (Graph.nodes g) -> walkFrom g u ext = true ->
  Forall (fun k => In k (Graph.nodes g)) (u :: ext).
Proof.
  intros Hg. apply walkFrom_closed. now apply letterGraph_closed.
Qed.

(** Over nodes of a letter graph, the text of a path has one character per
    node and no white space. *)
Lemma pathPrefix_letters g path :
  isLetterGraph g = true ->
  Forall (fun k => In k (Graph.nodes g)) path ->
  String.length (pathPrefix g path) = length path
  /\ TrieSearch.hasSpace (pathPrefix g path) = false.
Proof.
  intros Hg Hpath. unfold pathPrefix.
  induction Hpath as [|k path Hk _ IH]; [auto|].
  simpl map. rewrite join_empty_cons, append_length, hasSpace_append.
  destruct IH as [-> ->].
  destruct (letterGraph_label g k Hg Hk) as [l [-> Hl]].
  destruct (isLetter_facts l Hl) as [-> ->]. auto.
Qed.

Lemma haAddAll_nil_iff l : TrieSearch.haAddAll l [] = [] -> l = [].
Proof.
  destruct l as [|x l]; [reflexivity|].
  destruct (haAddAll_first x l) as [t ->]. discriminate.
Qed.

(** A text without white space that the trie accepts as a prefix is no
    longer than the trie is deep. *)
Lemma isPrefix_depth prefix trie :
  isPrefix prefix trie = true -> TrieSearch.hasSpace prefix = false ->
  String.length prefix <= TrieSearch.depth trie.
Proof.
  unfold isPrefix. intros E Hsp.
  destruct prefix as [|c prefix]; [simpl; lia|].
  rewrite search_no_space in E by (assumption || discriminate).
  destruct (TrieSearch.findNode (toLowerCase (String c prefix)) trie) as [n|] eqn:En;
    [|discriminate].
  apply findNode_depth in En. now rewrite toLowerCase_length in En.
Qed.

Lemma isWord_length s trie : isWord s trie = true -> 3 <= String.length s.
Proof.
  unfold isWord. destruct (String.length s <? 3) eqn:E; [discriminate|].
  intros _. now apply Nat.ltb_ge.
Qed.

(** On a letter graph the visit comes to an end: a nested visit takes
    place only while the text of the path is a prefix in the trie, so the
    depth of the trie bounds the nesting. *)
Lemma visitNode_total : forall fuel nodeKey path seenPaths graph trie words,
  isLetterGraph graph = true ->
  Forall (fun k => In k (Graph.nodes graph)) (path ++ [nodeKey]) ->
  length path <= TrieSearch.depth trie ->
  TrieSearch.depth trie + 1 <= fuel + length path ->
  exists r, visitNode fuel nodeKey path seenPaths graph trie words = Some r.
Proof.
  induction fuel as [|fuel IH]; intros nodeKey path seenPaths graph trie words
    Hg Hpath Hlen Hfuel; [lia|]. simpl.
  destruct (JsSet.has (join " " (path ++ [nodeKey])) seenPaths); [eauto|].
  set (words1 := if isWord _ trie then _ else words). clearbody words1.
  destruct (isPrefix (pathPrefix graph (path ++ [nodeKey])) trie) eqn:Ep; [|eauto].
  destruct (pathPrefix_letters graph _ Hg Hpath) as [Hl Hsp].
  apply isPrefix_depth in Ep; [|assumption].
  rewrite Hl, length_app in Ep. simpl in Ep.
  match goal with
  | |- exists r, match ?loop with _ => _ end = _ =>
      assert (Hloop : exists r, loop = Some r /\ fst (fst r) = path ++ [nodeKey])
  end.
  { apply (forEachM_total _
             (fun st : list string * list string * list LetterBoxWord =>
                fst (fst st) = path ++ [nodeKey])); [reflexivity|].
    intros x [[p sp] ws] Hx Hp. simpl in Hp. subst p.
    destruct (IH x (path ++ [nodeKey]) sp graph trie ws) as [[[p' sp'] ws'] Er];
      try assumption.
    - apply Forall_app. split; [assumption|]. constructor; [|constructor].
      apply neighbors_adjacent in Hx.
      now apply (letterGraph_adjacent graph nodeKey x).
    - rewrite length_app. simpl. lia.
    - rewrite length_app. simpl. lia.
    - eexists. split; [exact Er|]. simpl.
      now apply visitNode_sound in Er. }
  destruct Hloop as [[[p sp] ws] [-> _]]. eauto.
Qed.

Lemma foundBelow_start graph trie nodeKey w :
  isLetterGraph graph = true -> In nodeKey (Graph.nodes graph) ->
  foundBelow graph trie [] nodeKey w ->
  String.length (word w) = length (nodeKeys w)
  /\ isWalk graph (nodeKeys w) = true
  /\ 3 <= String.length (word w).
Proof.
  intros Hg Hk [ext [Hkeys [Hword [Hisw Hwalk]]]]. simpl in Hkeys.
  split; [|split].
  - rewrite Hword, Hkeys. apply pathPrefix_letters; [assumption|].
    now apply walkFrom_nodes.
  - now rewrite Hkeys.
  - now apply (isWord_length _ trie).
Qed.

Lemma forEachM_ext {A S} (body1 body2 : A -> S -> option S) :
  forall l s r,
    (forall x s r, body1 x s = Some r -> body2 x s = Some r) ->
    forEachM body1 l s = Some r -> forEachM body2 l s = Some r.
Proof.
  induction l as [|x l IH]; simpl; intros s r Hb E; [assumption|].
  destruct (body1 x s) as [s'|] eqn:E1; [|discriminate].
  rewrite (Hb _ _ _ E1). eauto.
Qed.

(** More fuel does not change what a visit returns. *)
Lemma visitNode_fuel_S : forall fuel nodeKey path seenPaths graph trie words r,
  visitNode fuel nodeKey path seenPaths graph trie words = Some r ->
  visitNode (S fuel) nodeKey path seenPaths graph trie words = Some r.
Proof.
  induction fuel as [|fuel IH]; intros nodeKey path seenPaths graph trie words r E;
    [discriminate|].
  simpl in E. remember (S fuel) as fuel1 eqn:Hfuel1. simpl.
  destruct (JsSet.has (join " " (path ++ [nodeKey])) seenPaths); [assumption|].
  destruct (isPrefix (pathPrefix graph (path ++ [nodeKey])) trie); [|assumption].
  match type of E with
  | match ?loop with _ => _ end = _ => destruct loop as [r0|] eqn:Eloop
  end; [|discriminate].
  erewrite forEachM_ext; [exact E| |exact Eloop].
  intros x [[p sp] ws] r1 Er1. subst fuel1. now apply IH.
Qed.

Lemma findWords_fuel_S fuel trie graph words :
  findWords fuel trie graph = Some words ->
  findWords (S fuel) trie graph = Some words.
Proof.
  unfold findWords. apply forEachM_ext. intros x s r.
  destruct (visitNode fuel x [] [] graph trie s) as [r0|] eqn:E; [|discriminate].
  now rewrite (visitNode_fuel_S _ _ _ _ _ _ _ _ E).
Qed.

(** C7. On a letter graph the Word Finder returns, given fuel for one more
    nested visit than the trie is deep, and every word it returns has as
    many characters as node keys, has consecutive node keys adjacent in the
    graph, and has at least 3 characters. *)
Theorem findWords_words_are_walks fuel trie graph :
  isLetterGraph graph = true ->
  TrieSearch.depth trie + 1 <= fuel ->
  exists words,
    findWords fuel trie graph = Some words
    /\ Forall (fun w => String.length (word w) = length (nodeKeys w)
                       /\ isWalk graph (nodeKeys w) = true
                       /\ 3 <= String.length (word w)) words.
Proof.
  intros Hg Hfuel. unfold findWords.
  apply (forEachM_total _
           (Forall (fun w => String.length (word w) = length (nodeKeys w)
                             /\ isWalk graph (nodeKeys w) = true
                             /\ 3 <= String.length (word w))));
    [constructor|].
  intros x ws Hx Hws.
  destruct (visitNode_total fuel x [] [] graph trie ws) as [[[p sp] ws'] Er];
    try assumption.
  - simpl. constructor; [assumption|constructor].
  - simpl. lia.
  - simpl. lia.
  - rewrite Er. eexists. split; [reflexivity|].
    apply visitNode_sound in Er. destruct Er as [_ [new [-> Hnew]]].
    apply Forall_app. split; [assumption|].
    eapply Forall_impl; [|exact Hnew].
    intros w Hw. now apply (foundBelow_start graph trie x).
Qed.

Lemma findWords_words_are_walks_witness :
  isLetterGraph (createLetterBoxGraph [["a"; "c"]; ["b"; "d"]]) = true
  /\ TrieSearch.depth (createTrie ["abc"; "cda"; "abcd"]) + 1 <= 5
  /\ exists words,
       findWords 5 (createTrie ["abc"; "cda"; "abcd"])
                 (createLetterBoxGraph [["a"; "c"]; ["b"; "d"]]) = Some words
       /\ Forall (fun w => String.length (word w) = length (nodeKeys w)
                          /\ isWalk (createLetterBoxGraph [["a"; "c"]; ["b"; "d"]])
                                    (nodeKeys w) = true
                          /\ 3 <= String.length (word w)) words.
Proof.
  split; [reflexivity|]. split; [vm_compute; lia|].
  apply (findWords_words_are_walks 5 (createTrie ["abc"; "cda"; "abcd"])
           (createLetterBoxGraph [["a"; "c"]; ["b"; "d"]])).
  - reflexivity.
  - vm_compute. lia.
Defined.

(** ** The graph operations *)

Lemma get_app_last {K V} `{EqLaws K} (k k' : K) (v : V) m :
  JsMap.get k (m ++ [(k', v)]) =
  match JsMap.get k m with
  | Some x => Some x
  | None => if eqb k k' then Some v else None
  end.
Proof.
  induction m as [|[k0 v0] m IH]; simpl; [reflexivity|].
  destruct (eqb k k0); [reflexivity | exact IH].
Qed.

Section GraphFacts.
Context {L : Type}.
Implicit Types (g : Graph.Graph L) (v w k : string) (e : string * string).

Lemma setNode_nodes g v (l : L) k :
  In k (Graph.nodes (Graph.setNode g v l)) <-> k = v \/ In k (Graph.nodes g).
Proof.
  unfold Graph.nodes, Graph.setNode. simpl. rewrite keys_set.
  destruct (JsMap.has v (Graph.nodeLabels g)) eqn:E.
  - apply has_keys in E. split; [auto | intros [->|]; assumption].
  - rewrite in_app_iff. simpl. intuition congruence.
Qed.

Lemma setNode_NoDup g v (l : L) :
  NoDup (Graph.nodes g) -> NoDup (Graph.nodes (Graph.setNode g v l)).
Proof.
  unfold Graph.nodes, Graph.setNode. simpl. rewrite keys_set. intros Hnd.
  destruct (JsMap.has v (Graph.nodeLabels g)) eqn:E; [assumption|].
  apply NoDup_app; [assumption | repeat constructor; intros [] |].
  intros a Ha [<-|[]]. apply has_keys in Ha. congruence.
Qed.

Lemma setNode_node g v (l : L) k :
  Graph.node (Graph.setNode g v l) k =
  if String.eqb k v then Some l else Graph.node g k.
Proof.
  unfold Graph.node, Graph.setNode. simpl.
  destruct (String.eqb k v) eqn:E.
  - apply String.eqb_eq in E. subst. now rewrite get_set_same.
  - apply String.eqb_neq in E. now rewrite get_set_other.
Qed.

Lemma ensureNode_nodes g v k :
  In k (Graph.nodes (Graph.ensureNode g v)) <-> k = v \/ In k (Graph.nodes g).
Proof.
  unfold Graph.ensureNode. destruct (Graph.hasNode g v) eqn:E.
  - apply hasNode_nodes in E. split; [auto | intros [->|]; assumption].
  - unfold Graph.nodes, JsMap.keys. simpl. rewrite map_app, in_app_iff. simpl.
    intuition congruence.
Qed.

Lemma ensureNode_NoDup g v :
  NoDup (Graph.nodes g) -> NoDup (Graph.nodes (Graph.ensureNode g v)).
Proof.
  unfold Graph.ensureNode. intros Hnd.
  destruct (Graph.hasNode g v) eqn:E; [assumption|].
  unfold Graph.nodes, JsMap.keys. simpl. rewrite map_app. simpl.
  apply NoDup_app; [assumption | repeat constructor; intros [] |].
  intros a Ha [<-|[]]. apply hasNode_nodes in Ha. congruence.
Qed.

Lemma ensureNode_node g v k :
  Graph.node (Graph.ensureNode g v) k = Graph.node g k.
Proof.
  unfold Graph.ensureNode. destruct (Graph.hasNode g v) eqn:E; [reflexivity|].
  unfold Graph.node. simpl. rewrite get_app_last.
  destruct (JsMap.get k (Graph.nodeLabels g)) eqn:Eg; [reflexivity|].
  now destruct (eqb k v).
Qed.

Lemma ensureNode_edges g v :
  Graph.edgeObjs (Graph.ensureNode g v) = Graph.edgeObjs g.
Proof. unfold Graph.ensureNode. now destruct (Graph.hasNode g v). Qed.

Lemma ensureNode_directed g v :
  Graph.isDirected (Graph.ensureNode g v) = Graph.isDirected g.
Proof. unfold Graph.ensureNode. now destruct (Graph.hasNode g v). Qed.

Lemma hasEdge_In g v w :
  Graph.hasEdge g v w = true <->
  In (Graph.edgeArgs (Graph.isDirected g) v w) (Graph.edgeObjs g).
Proof.
  unfold Graph.hasEdge. rewrite existsb_exists. split.
  - intros [e [He E]]. apply edge_eqb_eq in E. now subst.
  - intros H. eexists. split; [exact H | now apply edge_eqb_eq].
Qed.

Lemma setEdge_edges g v w e :
  In e (Graph.edgeObjs (Graph.setEdge g v w)) <->
  e = Graph.edgeArgs (Graph.isDirected g) v w \/ In e (Graph.edgeObjs g).
Proof.
  unfold Graph.setEdge. destruct (Graph.hasEdge g v w) eqn:E.
  - apply hasEdge_In in E. split; [auto | intros [->|]; assumption].
  - simpl. rewrite !ensureNode_edges, in_app_iff. simpl. intuition congruence.
Qed.

Lemma setEdge_nodes g v w :
  Graph.hasNode g v = true -> Graph.hasNode g w = true ->
  Graph.nodes (Graph.setEdge g v w) = Graph.nodes g.
Proof.
  intros Hv Hw. unfold Graph.setEdge.
  destruct (Graph.hasEdge g v w); [reflexivity|].
  unfold Graph.nodes. simpl. unfold Graph.ensureNode at 2. rewrite Hv.
  unfold Graph.ensureNode. now rewrite Hw.
Qed.

Lemma setEdge_node g v w k :
  Graph.node (Graph.setEdge g v w) k = Graph.node g k.
Proof.
  unfold Graph.setEdge. destruct (Graph.hasEdge g v w); [reflexivity|].
  unfold Graph.node at 1. simpl.
  change (Graph.node (Graph.ensureNode (Graph.ensureNode g v) w) k = Graph.node g k).
  now rewrite !ensureNode_node.
Qed.

Lemma setEdge_directed g v w :
  Graph.isDirected (Graph.setEdge g v w) = Graph.isDirected g.
Proof.
  unfold Graph.setEdge. destruct (Graph.hasEdge g v w); [reflexivity|].
  simpl. now rewrite !ensureNode_directed.
Qed.

Lemma setEdge_NoDup g v w :
  NoDup (Graph.nodes g) -> NoDup (Graph.nodes (Graph.setEdge g v w)).
Proof.
  unfold Graph.setEdge. intros Hnd.
  destruct (Graph.hasEdge g v w); [assumption|].
  unfold Graph.nodes at 1. simpl.
  change (NoDup (Graph.nodes (Graph.ensureNode (Graph.ensureNode g v) w))).
  now apply ensureNode_NoDup, ensureNode_NoDup.
Qed.
End GraphFacts.

(** ** Letter Graph Builder *)

Lemma fold_left_ext {A S} (f g : S -> A -> S) l :
  (forall s x, f s x = g s x) -> forall s, fold_left f l s = fold_left g l s.
Proof.
  intros Hfg. induction l as [|x l IH]; simpl; intros s; [reflexivity|].
  now rewrite Hfg, IH.
Qed.

Lemma fold_left_flat_map {A B S} (f : S -> B -> S) (h : A -> list B) l :
  forall s, fold_left f (flat_map h l) s
            = fold_left (fun s x => fold_left f (h x) s) l s.
Proof.
  induction l as [|x l IH]; simpl; intros s; [reflexivity|].
  now rewrite fold_left_app, IH.
Qed.

Lemma fold_left_map {A B S} (f : S -> B -> S) (h : A -> B) l :
  forall s, fold_left f (map h l) s = fold_left (fun s x => f s (h x)) l s.
Proof.
  induction l as [|x l IH]; simpl; intros s; [reflexivity|]. apply IH.
Qed.

(** The nested loops run the iterations of [boxSteps] one after the other. *)
Lemma createLetterBoxGraph_steps sides :
  createLetterBoxGraph sides
  = fold_left (boxStep sides) (boxSteps sides) (Graph.new false).
Proof.
  unfold createLetterBoxGraph, boxSteps, forRange.
  rewrite fold_left_flat_map. apply fold_left_ext. intros g i.
  rewrite fold_left_flat_map. apply fold_left_ext. intros g1 j.
  rewrite fold_left_flat_map. apply fold_left_ext. intros g2 p.
  rewrite fold_left_map. apply fold_left_ext. intros g3 q. reflexivity.
Qed.

Lemma boxSteps_In sides i j p q :
  In (i, j, p, q) (boxSteps sides) <->
  i < j /\ j < length sides
  /\ p < length (nth i sides []) /\ q < length (nth j sides []).
Proof.
  unfold boxSteps. rewrite in_flat_map. split.
  - intros [i' [Hi H]]. apply in_flat_map in H. destruct H as [j' [Hj H]].
    apply in_flat_map in H. destruct H as [p' [Hp H]].
    apply in_map_iff in H. destruct H as [q' [E Hq]].
    inversion E; subst. apply in_seq in Hi, Hj, Hp, Hq. lia.
  - intros [Hij [Hj [Hp Hq]]]. exists i. split; [apply in_seq; lia|].
    apply in_flat_map. exists j. split; [apply in_seq; lia|].
    apply in_flat_map. exists p. split; [apply in_seq; lia|].
    apply in_map_iff. exists q. split; [reflexivity | apply in_seq; lia].
Qed.

Lemma letterAt_nth sides i p :
  i < length sides -> p < length (nth i sides []) ->
  letterAt sides i p = Some (nth p (nth i sides []) "").
Proof.
  intros Hi Hp. unfold letterAt.
  rewrite (nth_error_nth' sides [] Hi). now apply nth_error_nth'.
Qed.

Lemma letterAt_Some sides i p l :
  letterAt sides i p = Some l ->
  i < length sides /\ p < length (nth i sides []) /\ l = nth p (nth i sides []) "".
Proof.
  unfold letterAt. intros E.
  destruct (nth_error sides i) as [side|] eqn:Es; [|discriminate].
  assert (Hi : i < length sides) by (apply nth_error_Some; congruence).
  assert (Hside : nth i sides [] = side) by (now apply nth_error_nth).
  rewrite Hside.
  assert (Hp : p < length side) by (apply nth_error_Some; congruence).
  repeat split; try assumption. symmetry. now apply nth_error_nth.
Qed.

(** One iteration: both keys become nodes labelled with their letters and
    the edge between them is recorded. *)
Lemma boxStep_spec sides g it :
  let g' := boxStep sides g it in
  (forall k, In k (Graph.nodes g') <->
             k = stepKey1 sides it \/ k = stepKey2 sides it \/ In k (Graph.nodes g))
  /\ (forall e, In e (Graph.edgeObjs g') <->
                e = Graph.edgeArgs (Graph.isDirected g) (stepKey1 sides it) (stepKey2 sides it)
                \/ In e (Graph.edgeObjs g))
  /\ (NoDup (Graph.nodes g) -> NoDup (Graph.nodes g'))
  /\ Graph.isDirected g' = Graph.isDirected g
  /\ (forall k, Graph.node g' k =
                if String.eqb k (stepKey2 sides it)
                then Some (let '(_, j, _, q) := it in nth q (nth j sides []) "")
                else if String.eqb k (stepKey1 sides it)
                     then Some (let '(i, _, p, _) := it in nth p (nth i sides []) "")
                     else Graph.node g k).
Proof.
  destruct it as [[[i j] p] q]. unfold boxStep, stepKey1, stepKey2.
  set (l1 := nth p (nth i sides []) ""). set (l2 := nth q (nth j sides []) "").
  set (k1 := letterKey i p l1). set (k2 := letterKey j q l2).
  set (g2 := Graph.setNode (Graph.setNode g k1 l1) k2 l2).
  assert (H1 : Graph.hasNode g2 k1 = true).
  { apply hasNode_nodes. unfold g2. rewrite !setNode_nodes. auto. }
  assert (H2 : Graph.hasNode g2 k2 = true).
  { apply hasNode_nodes. unfold g2. rewrite !setNode_nodes. auto. }
  cbv zeta. split; [|split; [|split; [|split]]].
  - intros k. rewrite (setEdge_nodes g2 k1 k2 H1 H2). unfold g2.
    rewrite !setNode_nodes. tauto.
  - intros e. rewrite setEdge_edges. reflexivity.
  - intros Hnd. now apply setEdge_NoDup, setNode_NoDup, setNode_NoDup.
  - now rewrite setEdge_directed.
  - intros k. rewrite setEdge_node. unfold g2. now rewrite !setNode_node.
Qed.

(** The graph after a run of iterations, from what it was before. *)
Lemma boxSteps_fold sides : forall steps g,
  let g' := fold_left (boxStep sides) steps g in
  (forall k, In k (Graph.nodes g') <->
             In k (Graph.nodes g)
             \/ exists it, In it steps /\ (k = stepKey1 sides it \/ k = stepKey2 sides it))
  /\ (forall e, In e (Graph.edgeObjs g') <->
                In e (Graph.edgeObjs g)
                \/ exists it, In it steps
                     /\ e = Graph.edgeArgs (Graph.isDirected g)
                                            (stepKey1 sides it) (stepKey2 sides it))
  /\ (NoDup (Graph.nodes g) -> NoDup (Graph.nodes g'))
  /\ Graph.isDirected g' = Graph.isDirected g.
Proof.
  induction steps as [|it steps IH]; intros g; cbv zeta; simpl.
  - repeat split; auto; try tauto.
    + intros [H|[it [[] _]]]; exact H.
    + intros [H|[it [[] _]]]; exact H.
  - destruct (boxStep_spec sides g it) as [Hn [He [Hnd [Hd _]]]].
    destruct (IH (boxStep sides g it)) as [Hn' [He' [Hnd' Hd']]].
    cbv zeta in *. split; [|split; [|split]].
    + intros k. rewrite Hn', Hn. split.
      * intros [[H|[H|H]]|[it' [Hit H]]]; eauto 6.
      * intros [H|[it' [[<-|Hit] H]]]; [tauto|tauto|eauto].
    + intros e. rewrite He', He, Hd. split.
      * intros [[H|H]|[it' [Hit H]]]; eauto 6.
      * intros [H|[it' [[<-|Hit] H]]]; [tauto|tauto|eauto].
    + auto.
    + congruence.
Qed.

Lemma boxSteps_labelled sides : forall steps g,
  incl steps (boxSteps sides) -> labelled sides g ->
  labelled sides (fold_left (boxStep sides) steps g).
Proof.
  induction steps as [|it steps IH]; intros g Hincl Hg; simpl; [exact Hg|].
  apply IH; [intros x Hx; apply Hincl; now right|].
  assert (Hit : In it (boxSteps sides)) by (apply Hincl; now left).
  destruct (boxStep_spec sides g it) as [Hn [_ [_ [_ Hl]]]]. cbv zeta in *.
  destruct it as [[[i j] p] q]. apply boxSteps_In in Hit.
  destruct Hit as [Hij [Hj [Hp Hq]]].
  intros k Hk. rewrite Hl. simpl in *.
  destruct (String.eqb k (letterKey j q (nth q (nth j sides []) ""))) eqn:E2.
  { apply String.eqb_eq in E2. exists j, q, (nth q (nth j sides []) "").
    split; [apply letterAt_nth; lia | auto]. }
  destruct (String.eqb k (letterKey i p (nth p (nth i sides []) ""))) eqn:E1.
  { apply String.eqb_eq in E1. exists i, p, (nth p (nth i sides []) "").
    split; [apply letterAt_nth; lia | auto]. }
  apply String.eqb_neq in E1, E2. apply Hn in Hk.
  destruct Hk as [Hk|[Hk|Hk]]; [contradiction|contradiction|now apply Hg].
Qed.

Lemma createLetterBoxGraph_labelled sides :
  labelled sides (createLetterBoxGraph sides).
Proof.
  rewrite createLetterBoxGraph_steps.
  apply boxSteps_labelled; [apply incl_refl | intros k []].
Qed.

Lemma createLetterBoxGraph_NoDup sides :
  NoDup (Graph.nodes (createLetterBoxGraph sides)).
Proof.
  rewrite createLetterBoxGraph_steps.
  apply (boxSteps_fold sides (boxSteps sides) (Graph.new false)). constructor.
Qed.

Lemma createLetterBoxGraph_undirected sides :
  Graph.isDirected (createLetterBoxGraph sides) = false.
Proof.
  rewrite createLetterBoxGraph_steps.
  apply (boxSteps_fold sides (boxSteps sides) (Graph.new false)).
Qed.

Lemma createLetterBoxGraph_edges sides e :
  In e (Graph.edgeObjs (createLetterBoxGraph sides)) <->
  exists it, In it (boxSteps sides)
             /\ e = Graph.edgeArgs false (stepKey1 sides it) (stepKey2 sides it).
Proof.
  rewrite createLetterBoxGraph_steps.
  destruct (boxSteps_fold sides (boxSteps sides) (Graph.new false)) as [_ [He _]].
  cbv zeta in He. rewrite He. simpl. tauto.
Qed.

Lemma createLetterBoxGraph_nodes_steps sides k :
  In k (Graph.nodes (createLetterBoxGraph sides)) <->
  exists it, In it (boxSteps sides)
             /\ (k = stepKey1 sides it \/ k = stepKey2 sides it).
Proof.
  rewrite createLetterBoxGraph_steps.
  destruct (boxSteps_fold sides (boxSteps sides) (Graph.new false)) as [Hn _].
  cbv zeta in Hn. rewrite Hn. simpl. tauto.
Qed.

Lemma nth_nonempty_lt {A} (l : list (list A)) j :
  nth j l [] <> [] -> j < length l /\ 0 < length (nth j l []).
Proof.
  intros Hne. split.
  - destruct (Nat.lt_ge_cases j (length l)) as [H|H]; [exact H|].
    now rewrite nth_overflow in Hne.
  - destruct (nth j l []); [congruence | simpl; lia].
Qed.

(** The nodes are the keys of the letters that have a letter on another
    side. *)
Lemma createLetterBoxGraph_nodes sides k :
  In k (Graph.nodes (createLetterBoxGraph sides)) <->
  exists i p l, linkedOccurrence sides i p l /\ k = letterKey i p l.
Proof.
  rewrite createLetterBoxGraph_nodes_steps. split.
  - intros [[[[i j] p] q] [Hit Hk]]. apply boxSteps_In in Hit.
    destruct Hit as [Hij [Hj [Hp Hq]]]. simpl in Hk. destruct Hk as [->| ->].
    + exists i, p, (nth p (nth i sides []) ""). split; [|reflexivity].
      split; [apply letterAt_nth; lia|].
      exists j. split; [lia|]. intros E. rewrite E in Hq. simpl in Hq. lia.
    + exists j, q, (nth q (nth j sides []) ""). split; [|reflexivity].
      split; [apply letterAt_nth; lia|].
      exists i. split; [lia|]. intros E. rewrite E in Hp. simpl in Hp. lia.
  - intros [i [p [l [[Hl [j [Hji Hj]]] ->]]]].
    apply letterAt_Some in Hl. destruct Hl as [Hi [Hp ->]].
    apply nth_nonempty_lt in Hj. destruct Hj as [Hj Hj0].
    destruct (Nat.lt_ge_cases i j) as [Hlt|Hge].
    + exists (i, j, p, 0). split; [apply boxSteps_In; lia | now left].
    + exists (j, i, 0, p). split; [apply boxSteps_In; lia | now right].
Qed.

Lemma ltb_antisym a b : String.ltb a b = true -> String.ltb b a = false.
Proof.
  unfold String.ltb. rewrite (String.compare_antisym b a).
  destruct (String.compare a b); simpl; congruence.
Qed.

Lemma ltb_total a b : String.ltb a b = false -> String.ltb b a = false -> a = b.
Proof.
  unfold String.ltb. rewrite (String.compare_antisym b a).
  destruct (String.compare a b) eqn:E; simpl; try congruence.
  intros _ _. now apply String.compare_eq_iff.
Qed.

(** An undirected edge object stands for an unordered pair. *)
Lemma edgeArgs_undirected a b c d :
  Graph.edgeArgs false a b = Graph.edgeArgs false c d <->
  (a = c /\ b = d) \/ (a = d /\ b = c).
Proof.
  unfold Graph.edgeArgs. simpl.
  destruct (String.ltb b a) eqn:Eba, (String.ltb d c) eqn:Edc; split;
    try (intros E; inversion E; subst; tauto).
  - intros [[-> ->]|[-> ->]]; [reflexivity|].
    apply ltb_antisym in Eba. congruence.
  - intros [[-> ->]|[-> ->]]; [congruence | reflexivity].
  - intros [[-> ->]|[-> ->]]; [congruence | reflexivity].
  - intros [[-> ->]|[-> ->]]; [reflexivity|].
    now rewrite (ltb_total _ _ Eba Edc).
Qed.

Lemma string_of_nat_digit n :
  n < 10 -> string_of_nat n = String (ascii_of_nat (48 + n)) "".
Proof.
  intros Hn. do 10 (destruct n as [|n]; [reflexivity|]). lia.
Qed.

(** With single-digit indices a key determines the side, the position and
    the letter. *)
Lemma letterKey_inj i p l j q l' :
  i < 10 -> p < 10 -> j < 10 -> q < 10 ->
  letterKey i p l = letterKey j q l' -> i = j /\ p = q /\ l = l'.
Proof.
  intros Hi Hp Hj Hq. unfold letterKey.
  rewrite !string_of_nat_digit by assumption. simpl. intros E.
  inversion E as [[Ei Ep El]].
  apply (f_equal nat_of_ascii) in Ei, Ep.
  rewrite !nat_ascii_embedding in Ei, Ep by lia.
  repeat split; try lia; congruence.
Qed.

Lemma smallBox_bounds sides i p l :
  smallBox sides = true -> letterAt sides i p = Some l -> i < 10 /\ p < 10.
Proof.
  unfold smallBox. intros Hs Hl. apply andb_true_iff in Hs.
  destruct Hs as [Hn Hsides]. apply Nat.leb_le in Hn.
  rewrite forallb_forall in Hsides.
  apply letterAt_Some in Hl. destruct Hl as [Hi [Hp _]].
  specialize (Hsides (nth i sides []) (nth_In _ _ Hi)).
  apply Nat.leb_le in Hsides. lia.
Qed.

(** C3, as amended. For a layout of at most ten sides of at most ten
    letters, the graph has exactly one node per letter that has a letter on
    another side: the node keys are distinct, they are the keys of these
    letters, distinct letters have distinct keys, each node is labelled
    with its letter, and two nodes are joined by an edge exactly when
    their letters lie on different sides. *)
Theorem createLetterBoxGraph_one_node_per_linked_letter sides :
  smallBox sides = true ->
  oneNodePerOccurrence (linkedOccurrence sides) (createLetterBoxGraph sides).
Proof.
  intros Hs.
  assert (Hinj : forall i p l j q l',
            letterAt sides i p = Some l -> letterAt sides j q = Some l' ->
            letterKey i p l = letterKey j q l' -> i = j /\ p = q /\ l = l').
  { intros i p l j q l' H1 H2 E.
    destruct (smallBox_bounds sides i p l Hs H1).
    destruct (smallBox_bounds sides j q l' Hs H2).
    now apply letterKey_inj. }
  split; [apply createLetterBoxGraph_NoDup|].
  split; [apply createLetterBoxGraph_nodes|].
  split; [|split].
  - intros i p l j q l' [H1 _] [H2 _] E.
    destruct (Hinj _ _ _ _ _ _ H1 H2 E) as [? [? _]]. auto.
  - intros i p l Hocc.
    assert (Hk : In (letterKey i p l) (Graph.nodes (createLetterBoxGraph sides))).
    { apply createLetterBoxGraph_nodes. eauto. }
    destruct (createLetterBoxGraph_labelled sides _ Hk) as [i' [p' [l' [H' [E Hnode]]]]].
    destruct Hocc as [H1 _].
    destruct (Hinj _ _ _ _ _ _ H1 H' E) as [_ [_ ->]]. exact Hnode.
  - intros i p l j q l' [H1 _] [H2 _].
    rewrite hasEdge_In, createLetterBoxGraph_undirected, createLetterBoxGraph_edges.
    pose proof (letterAt_Some _ _ _ _ H1) as [Hi [Hp El]].
    pose proof (letterAt_Some _ _ _ _ H2) as [Hj [Hq El']].
    split.
    + intros [[[[i' j'] p'] q'] [Hit E]]. apply boxSteps_In in Hit.
      destruct Hit as [Hij [Hj' [Hp' Hq']]]. simpl in E.
      assert (A1 : letterAt sides i' p' = Some (nth p' (nth i' sides []) ""))
        by (apply letterAt_nth; lia).
      assert (A2 : letterAt sides j' q' = Some (nth q' (nth j' sides []) ""))
        by (apply letterAt_nth; lia).
      apply edgeArgs_undirected in E. destruct E as [[Ea Eb]|[Ea Eb]].
      * destruct (Hinj _ _ _ _ _ _ H1 A1 Ea) as [-> _].
        destruct (Hinj _ _ _ _ _ _ H2 A2 Eb) as [-> _]. lia.
      * destruct (Hinj _ _ _ _ _ _ H1 A2 Ea) as [-> _].
        destruct (Hinj _ _ _ _ _ _ H2 A1 Eb) as [-> _]. lia.
    + intros Hne. subst l l'.
      destruct (Nat.lt_ge_cases i j) as [Hlt|Hge].
      * exists (i, j, p, q). split; [apply boxSteps_In; lia | reflexivity].
      * exists (j, i, q, p). split; [apply boxSteps_In; lia|].
        simpl. apply edgeArgs_undirected. auto.
Qed.

Lemma createLetterBoxGraph_one_node_per_linked_letter_witness :
  smallBox [["a"; "c"]; ["b"; "d"]] = true
  /\ oneNodePerOccurrence (linkedOccurrence [["a"; "c"]; ["b"; "d"]])
                          (createLetterBoxGraph [["a"; "c"]; ["b"; "d"]]).
Proof.
  split; [reflexivity|].
  apply (createLetterBoxGraph_one_node_per_linked_letter [["a"; "c"]; ["b"; "d"]]).
  reflexivity.
Defined.

(** C3, as stated, fails: the letters of a layout with a single side get
    no node at all. *)
Lemma createLetterBoxGraph_single_side_has_no_node :
  occurrence [["a"; "b"]] 0 0 "a"
  /\ Graph.nodes (createLetterBoxGraph [["a"; "b"]]) = []
  /\ ~ oneNodePerOccurrence (occurrence [["a"; "b"]])
                            (createLetterBoxGraph [["a"; "b"]]).
Proof.
  split; [reflexivity|]. split; [reflexivity|].
  intros [_ [Hnodes _]].
  assert (H : In (letterKey 0 0 "a") (Graph.nodes (createLetterBoxGraph [["a"; "b"]]))).
  { apply Hnodes. exists 0, 0, "a". split; reflexivity. }
  vm_compute in H. exact H.
Qed.

(** With two-digit indices two letters can share a key: in the layout of
    twelve sides of twelve letters "x", position 11 of side 1 and position
    1 of side 11 are both keyed "111:x". *)
Lemma letterKey_two_digit_collision :
  linkedOccurrence twelveBox 1 11 "x"
  /\ linkedOccurrence twelveBox 11 1 "x"
  /\ letterKey 1 11 "x" = letterKey 11 1 "x"
  /\ ~ oneNodePerOccurrence (linkedOccurrence twelveBox)
                            (createLetterBoxGraph twelveBox).
Proof.
  assert (H1 : linkedOccurrence twelveBox 1 11 "x").
  { split; [reflexivity|]. exists 0. split; [lia | discriminate]. }
  assert (H2 : linkedOccurrence twelveBox 11 1 "x").
  { split; [reflexivity|]. exists 0. split; [lia | discriminate]. }
  split; [exact H1|]. split; [exact H2|]. split; [reflexivity|].
  intros [_ [_ [Hinj _]]].
  destruct (Hinj 1 11 "x" 11 1 "x" H1 H2 eq_refl) as [E _]. discriminate.
Qed.

Lemma createLetterBoxGraph_edgesClosed sides :
  edgesClosed (createLetterBoxGraph sides) = true.
Proof.
  apply forallb_forall. intros e He.
  apply createLetterBoxGraph_edges in He. destruct He as [it [Hit ->]].
  assert (H1 : In (stepKey1 sides it) (Graph.nodes (createLetterBoxGraph sides)))
    by (apply createLetterBoxGraph_nodes_steps; eauto).
  assert (H2 : In (stepKey2 sides it) (Graph.nodes (createLetterBoxGraph sides)))
    by (apply createLetterBoxGraph_nodes_steps; eauto).
  apply hasNode_nodes in H1, H2.
  unfold Graph.edgeArgs. destruct (negb false && _); simpl; now rewrite H1, H2.
Qed.

(** The graph of a layout of letters is a letter graph. *)
Lemma createLetterBoxGraph_isLetterGraph sides :
  forallb (forallb isLetter) sides = true ->
  isLetterGraph (createLetterBoxGraph sides) = true.
Proof.
  intros Hsides. unfold isLetterGraph. apply andb_true_iff.
  split; [|apply createLetterBoxGraph_edgesClosed].
  apply forallb_forall. intros k Hk.
  destruct (createLetterBoxGraph_labelled sides k Hk) as [i [p [l [Hl [_ ->]]]]].
  unfold letterAt in Hl.
  destruct (nth_error sides i) as [side|] eqn:Es; [|discriminate].
  apply nth_error_In in Es, Hl.
  rewrite forallb_forall in Hsides. specialize (Hsides side Es).
  rewrite forallb_forall in Hsides. now apply Hsides.
Qed.

(** ** Word Graph Builder *)

Lemma endpointMaps_fold words : forall a b,
  fold_left
    (fun '(startMap, endMap) word =>
       let startCharKey := nth_error (nodeKeys word) 0 in
       let endCharKey := nth_error (nodeKeys word) (length (nodeKeys word) - 1) in
       let startMap :=
         if negb (JsMap.has startCharKey startMap)
         then JsMap.set startCharKey [] startMap else startMap in
       let endMap :=
         if negb (JsMap.has endCharKey endMap)
         then JsMap.set endCharKey [] endMap else endMap in
       (pushAt startCharKey word startMap, pushAt endCharKey word endMap))
    words (a, b)
  = (fold_left (groupStep firstKey) words a, fold_left (groupStep lastKey) words b).
Proof.
  induction words as [|w words IH]; intros a b; simpl; [reflexivity|].
  now rewrite IH.
Qed.

(** The nested loops run the iterations of [wordSteps] one after the other. *)
Lemma createWordGraph_steps words :
  createWordGraph words = fold_left wordStep (wordSteps words) (Graph.new true).
Proof.
  unfold createWordGraph, wordSteps. rewrite endpointMaps_fold.
  unfold endpointMaps.
  rewrite fold_left_flat_map. apply fold_left_ext. intros g key.
  rewrite fold_left_flat_map. apply fold_left_ext. intros g1 startWord.
  rewrite fold_left_map. apply fold_left_ext. intros g2 endWord. reflexivity.
Qed.

Lemma okey_eqb_eq (a b : option string) : eqb a b = true -> a = b.
Proof. apply (eqb_iff (A := option string)). Qed.

Lemma okey_eqb_refl (a : option string) : eqb a a = true.
Proof. now apply (eqb_iff (A := option string)). Qed.

(** A map of the first loop holds, under each key, the words with that
    key, in order. *)
Lemma groupStep_get f : forall words m key,
  orEmpty (JsMap.get key (fold_left (groupStep f) words m))
  = orEmpty (JsMap.get key m) ++ filter (fun w => eqb (f w) key) words.
Proof.
  induction words as [|w words IH]; intros m key;
    [simpl; now rewrite app_nil_r|].
  cbn [fold_left filter]. rewrite IH. unfold groupStep, pushAt.
  set (m0 := if negb (JsMap.has (f w) m) then JsMap.set (f w) [] m else m).
  assert (Hm0 : forall k, orEmpty (JsMap.get k m0) = orEmpty (JsMap.get k m)).
  { intros k. unfold m0, JsMap.has.
    destruct (JsMap.get (f w) m) as [l|] eqn:Eg; cbn [negb]; [reflexivity|].
    destruct (eqb (f w) k) eqn:E.
    - apply okey_eqb_eq in E. subst k. rewrite get_set_same, Eg. reflexivity.
    - rewrite get_set_other; [reflexivity|].
      intros ->. rewrite okey_eqb_refl in E. discriminate. }
  destruct (eqb (f w) key) eqn:E.
  - apply okey_eqb_eq in E. subst key. rewrite get_set_same. cbn [orEmpty].
    rewrite Hm0, <- app_assoc. reflexivity.
  - rewrite get_set_other, Hm0; [reflexivity|].
    intros ->. rewrite okey_eqb_refl in E. discriminate.
Qed.

Lemma orEmpty_In_key {K V} `{EqLaws K} (k : K) (m : list (K * list V)) x :
  In x (orEmpty (JsMap.get k m)) -> In k (JsMap.keys m).
Proof.
  destruct (JsMap.get k m) as [l|] eqn:E; simpl; [|tauto].
  intros _. eapply get_In_key; eauto.
Qed.

(** The iterations pair every word with every word that ends where it
    starts. *)
Lemma wordSteps_In words startWord endWord :
  In (startWord, endWord) (wordSteps words) <->
  In startWord words /\ In endWord words /\ lastKey endWord = firstKey startWord.
Proof.
  unfold wordSteps, endpointMaps. rewrite in_flat_map. split.
  - intros [key [_ H]]. apply in_flat_map in H. destruct H as [sW [Hs H]].
    apply in_map_iff in H. destruct H as [eW [E He]]. inversion E; subst.
    rewrite groupStep_get in Hs, He. simpl in Hs, He.
    apply filter_In in Hs, He. destruct Hs as [Hs Es], He as [He Ee].
    apply okey_eqb_eq in Es, Ee. repeat split; try assumption. congruence.
  - intros [Hs [He E]].
    assert (Hs' : In startWord
              (orEmpty (JsMap.get (firstKey startWord)
                          (fold_left (groupStep firstKey) words [])))).
    { rewrite groupStep_get. simpl. apply filter_In.
      split; [assumption | apply okey_eqb_refl]. }
    assert (He' : In endWord
              (orEmpty (JsMap.get (firstKey startWord)
                          (fold_left (groupStep lastKey) words [])))).
    { rewrite groupStep_get. simpl. apply filter_In.
      split; [assumption | rewrite E; apply okey_eqb_refl]. }
    exists (firstKey startWord). split.
    + apply (proj2 (of_list_In _ _)), in_or_app. left.
      eapply orEmpty_In_key; eauto.
    + apply in_flat_map. exists startWord. split; [assumption|].
      apply in_map_iff. now exists endWord.
Qed.

Lemma wordStep_spec g it :
  let g' := wordStep g it in
  (forall e, In e (Graph.edgeObjs g') <->
             In e (Graph.edgeObjs g)
             \/ (wordKey (fst it) <> wordKey (snd it)
                 /\ e = Graph.edgeArgs (Graph.isDirected g)
                                       (wordKey (snd it)) (wordKey (fst it))))
  /\ Graph.isDirected g' = Graph.isDirected g.
Proof.
  destruct it as [startWord endWord]. unfold wordStep. simpl fst. simpl snd.
  destruct (String.eqb (wordKey startWord) (wordKey endWord)) eqn:E; simpl.
  - apply String.eqb_eq in E. split; [|reflexivity].
    intros e. tauto.
  - apply String.eqb_neq in E. split; [|now rewrite setEdge_directed].
    intros e. rewrite setEdge_edges. simpl. tauto.
Qed.

Lemma wordSteps_fold : forall steps g,
  let g' := fold_left wordStep steps g in
  (forall e, In e (Graph.edgeObjs g') <->
             In e (Graph.edgeObjs g)
             \/ exists it, In it steps
                  /\ wordKey (fst it) <> wordKey (snd it)
                  /\ e = Graph.edgeArgs (Graph.isDirected g)
                                        (wordKey (snd it)) (wordKey (fst it)))
  /\ Graph.isDirected g' = Graph.isDirected g.
Proof.
  induction steps as [|it steps IH]; intros g; cbv zeta; simpl.
  - split; [|reflexivity]. intros e. split; [auto|].
    intros [H|[it [[] _]]]. exact H.
  - destruct (wordStep_spec g it) as [He Hd].
    destruct (IH (wordStep g it)) as [He' Hd']. cbv zeta in *.
    split; [|congruence].
    intros e. rewrite He', He, Hd. split.
    + intros [[H|H]|[it' [Hit H]]]; eauto 6.
    + intros [H|[it' [[<-|Hit] H]]]; [tauto|tauto|eauto].
Qed.

(** The edges of the word graph, by keys: one from the key of each word to
    the key of each word that starts where it ends, when the keys differ. *)
Lemma createWordGraph_hasEdge words u v :
  Graph.hasEdge (createWordGraph words) u v = true <->
  exists X Y, In X words /\ In Y words /\ u = wordKey X /\ v = wordKey Y
              /\ lastKey X = firstKey Y /\ wordKey X <> wordKey Y.
Proof.
  rewrite hasEdge_In, createWordGraph_steps.
  destruct (wordSteps_fold (wordSteps words) (Graph.new true)) as [He Hd].
  cbv zeta in *. rewrite Hd, He. simpl. unfold Graph.edgeArgs. simpl. split.
  - intros [[]|[[startWord endWord] [Hit [Hne E]]]]. simpl in *.
    apply wordSteps_In in Hit. destruct Hit as [Hs [Hend Hk]].
    inversion E; subst. exists endWord, startWord. repeat split; auto.
  - intros [X [Y [HX [HY [-> [-> [Hk Hne]]]]]]]. right.
    exists (Y, X). simpl. split; [apply wordSteps_In; auto|]. split; auto.
Qed.

Lemma dashFree_append s t :
  dashFree (s ++ String "-" t)%string = false.
Proof.
  unfold dashFree. induction s as [|c s IH]; simpl; [reflexivity|].
  rewrite IH. apply andb_false_r.
Qed.

Lemma split_at_dash : forall s1 t1 s2 t2,
  dashFree s1 = true -> dashFree s2 = true ->
  (s1 ++ String "-" t1)%string = (s2 ++ String "-" t2)%string ->
  s1 = s2 /\ t1 = t2.
Proof.
  unfold dashFree.
  induction s1 as [|c s1 IH]; intros t1 [|c2 s2] t2 H1 H2 E; simpl in *.
  - inversion E. auto.
  - inversion E; subst. simpl in H2. discriminate.
  - inversion E; subst. simpl in H1. discriminate.
  - inversion E; subst. apply andb_true_iff in H1, H2.
    destruct H1 as [_ H1], H2 as [_ H2].
    destruct (IH _ _ _ H1 H2 H3) as [-> ->]. auto.
Qed.

Lemma join_arrow_cons x y l :
  join "->" (x :: y :: l) = (x ++ String "-" (String ">" (join "->" (y :: l))))%string.
Proof. reflexivity. Qed.

(** Dash-free keys can be read back from their join. *)
Lemma join_arrow_inj : forall l1 l2,
  l1 <> [] -> l2 <> [] ->
  forallb dashFree l1 = true -> forallb dashFree l2 = true ->
  join "->" l1 = join "->" l2 -> l1 = l2.
Proof.
  induction l1 as [|x l1 IH]; intros l2 Hn1 Hn2 H1 H2 E; [congruence|].
  destruct l2 as [|y l2]; [congruence|].
  simpl in H1, H2. apply andb_true_iff in H1, H2.
  destruct H1 as [Hx H1], H2 as [Hy H2].
  destruct l1 as [|x2 l1], l2 as [|y2 l2].
  - simpl in E. congruence.
  - rewrite join_arrow_cons in E. change (join "->" [x]) with x in E. subst x.
    rewrite dashFree_append in Hx. discriminate.
  - rewrite join_arrow_cons in E. change (join "->" [y]) with y in E. subst y.
    rewrite dashFree_append in Hy. discriminate.
  - rewrite !join_arrow_cons in E.
    destruct (split_at_dash _ _ _ _ Hx Hy E) as [-> E'].
    inversion E' as [E'']. f_equal.
    apply IH; try assumption; discriminate.
Qed.

Lemma keyedWords_wordKey words X Y :
  keyedWords words = true -> In X words -> In Y words ->
  (wordKey X = wordKey Y <-> nodeKeys X = nodeKeys Y).
Proof.
  unfold keyedWords. intros Hk HX HY. rewrite forallb_forall in Hk.
  pose proof (Hk X HX) as HkX. pose proof (Hk Y HY) as HkY.
  apply andb_true_iff in HkX, HkY. destruct HkX as [Hx1 Hx2], HkY as [Hy1 Hy2].
  unfold wordKey. split; [|congruence].
  apply join_arrow_inj; try assumption.
  - destruct (nodeKeys X); [discriminate Hx1 | discriminate].
  - destruct (nodeKeys Y); [discriminate Hy1 | discriminate].
Qed.

(** C8. For words given by non-empty sequences of dash-free node keys, the
    word graph has an edge from [u] to [v] exactly when [u] and [v] are the
    keys of two words of the set such that the first ends on the letter
    node the second starts on and their node sequences differ. *)
Theorem createWordGraph_edges words u v :
  keyedWords words = true ->
  Graph.hasEdge (createWordGraph words) u v = true <->
  exists X Y, In X words /\ In Y words /\ u = wordKey X /\ v = wordKey Y
              /\ lastKey X = firstKey Y /\ nodeKeys X <> nodeKeys Y.
Proof.
  intros Hk. rewrite createWordGraph_hasEdge. split.
  - intros [X [Y [HX [HY [Hu [Hv [Hl Hne]]]]]]]. exists X, Y.
    repeat split; try assumption.
    intros E. apply Hne. now apply (keyedWords_wordKey words X Y Hk HX HY).
  - intros [X [Y [HX [HY [Hu [Hv [Hl Hne]]]]]]]. exists X, Y.
    repeat split; try assumption.
    intros E. apply Hne. now apply (keyedWords_wordKey words X Y Hk HX HY).
Qed.

(** ** Degenerate inputs *)

Lemma forallb_isEmptySide_nth sides j :
  forallb isEmptySide sides = true -> nth j sides [] = [].
Proof.
  intros H. destruct (Nat.lt_ge_cases j (length sides)) as [Hj|Hj].
  - rewrite forallb_forall in H. specialize (H _ (nth_In sides [] Hj)).
    now destruct (nth j sides []).
  - now apply nth_overflow.
Qed.

Lemma atMostOneSide_pairs : forall sides i j,
  atMostOneSide sides = true -> i < j ->
  nth i sides [] = [] \/ nth j sides [] = [].
Proof.
  induction sides as [|side rest IH]; intros i j H Hij.
  - left. now destruct i.
  - destruct j as [|j]; [lia|]. simpl in H. destruct side as [|l side].
    + destruct i as [|i]; [now left|]. simpl. apply IH; [assumption | lia].
    + right. simpl. now apply forallb_isEmptySide_nth.
Qed.

(** Without two sides that hold letters the loops add nothing. *)
Lemma createLetterBoxGraph_atMostOneSide sides :
  atMostOneSide sides = true -> createLetterBoxGraph sides = Graph.new false.
Proof.
  intros H. rewrite createLetterBoxGraph_steps.
  destruct (boxSteps sides) as [|[[[i j] p] q] steps] eqn:E; [reflexivity|].
  assert (Hit : In (i, j, p, q) (boxSteps sides)) by (rewrite E; now left).
  apply boxSteps_In in Hit. destruct Hit as [Hij [_ [Hp Hq]]].
  destruct (atMostOneSide_pairs sides i j H Hij) as [Ei|Ej].
  - rewrite Ei in Hp. simpl in Hp. lia.
  - rewrite Ej in Hq. simpl in Hq. lia.
Qed.

Lemma search_new phrase : TrieSearch.search phrase TrieSearch.new = [].
Proof.
  destruct (TrieSearch.search phrase TrieSearch.new) as [|x l] eqn:E; [reflexivity|].
  assert (H : In x (TrieSearch.aggregate TrieSearch.new)).
  { apply (search_aggregate phrase). rewrite E. now left. }
  destruct H.
Qed.

(** With an empty trie a visit finds nothing and does not go further. *)
Lemma visitNode_new fuel nodeKey path seenPaths graph words :
  exists seenPaths',
    visitNode (S fuel) nodeKey path seenPaths graph TrieSearch.new words
    = Some (path, seenPaths', words).
Proof.
  simpl. unfold isWord, isPrefix. rewrite search_new. simpl.
  rewrite removelast_last.
  destruct (JsSet.has (join " " (path ++ [nodeKey])) seenPaths); eauto.
  destruct (String.length (pathPrefix graph (path ++ [nodeKey])) <? 3); eauto.
Qed.

Lemma findWords_new fuel graph :
  findWords (S fuel) TrieSearch.new graph = Some [].
Proof.
  unfold findWords. generalize (Graph.nodes graph). intros l.
  induction l as [|k l IH]; [reflexivity|].
  cbn [forEachM].
  destruct (visitNode_new fuel k [] [] graph []) as [sp ->]. exact IH.
Qed.

(** C9, as amended. For a layout in which at most one side holds letters
    (a layout with zero sides among them) or for an empty dictionary, the
    pipeline completes without error and yields nothing: the letter graph
    is empty in the first case, and in both the Word Finder returns no
    word and the Solution Search returns no solution. *)
Theorem degenerate_input_yields_nothing fuel sides allWords :
  atMostOneSide sides = true \/ allWords = [] ->
  (atMostOneSide sides = true -> createLetterBoxGraph sides = Graph.new false)
  /\ findWords (S fuel) (createTrie allWords) (createLetterBoxGraph sides) = Some []
  /\ solve (S fuel) sides allWords = Some (Return []).
Proof.
  intros H. split; [apply createLetterBoxGraph_atMostOneSide|].
  assert (Hfind : findWords (S fuel) (createTrie allWords) (createLetterBoxGraph sides)
                  = Some []).
  { destruct H as [H| ->].
    - now rewrite (createLetterBoxGraph_atMostOneSide sides H).
    - apply findWords_new. }
  split; [exact Hfind|].
  unfold solve. rewrite Hfind. reflexivity.
Qed.

Lemma degenerate_input_yields_nothing_witness :
  (createLetterBoxGraph [] = Graph.new false
   /\ findWords 27 (createTrie ["abc"]) (createLetterBoxGraph []) = Some []
   /\ solve 27 [] ["abc"] = Some (Return []))
  /\ (findWords 27 (createTrie []) (createLetterBoxGraph [["a"; "c"]; ["b"]]) = Some []
      /\ solve 27 [["a"; "c"]; ["b"]] [] = Some (Return [])).
Proof.
  split.
  - destruct (degenerate_input_yields_nothing 26 [] ["abc"] (or_introl eq_refl))
      as [Hg [Hw Hs]].
    split; [apply Hg; reflexivity|]. split; assumption.
  - destruct (degenerate_input_yields_nothing 26 [["a"; "c"]; ["b"]] []
                (or_intror eq_refl)) as [_ [Hw Hs]].
    split; assumption.
Defined.

(** C9, as stated, fails for a layout that has an empty side next to two
    sides with letters: the empty side is skipped, "aba" is found on the
    box [a | | b] and is a solution. *)
Lemma empty_side_is_not_degenerate :
  let aba := {| word := "aba"; nodeKeys := ["00:a"; "20:b"; "00:a"] |} in
  In [] [["a"]; []; ["b"]]
  /\ findWords 27 (createTrie ["aba"]) (createLetterBoxGraph [["a"]; []; ["b"]])
     = Some [aba]
  /\ solve 27 [["a"]; []; ["b"]] ["aba"]
     = Some (Return [{| numSeenLetterNodes := 2; letterBoxWordList := [aba] |}]).
Proof.
  split; [simpl; auto|]. split; vm_compute; reflexivity.
Qed.

(** ** The example box *)

Lemma findSolutions_cover_at_last_word_witness :
  onBox (createLetterBoxGraph exampleBox) exampleWordGraph = true
  /\ exists sols,
       findSolutions 27 exampleWordGraph (Graph.nodeCount (createLetterBoxGraph exampleBox))
       = Some (Return sols)
       /\ map (fun s => map word (letterBoxWordList s)) sols = [["abcd"]; ["cda"; "abcd"]]
       /\ Forall (fun s =>
                    numSeenLetterNodes s = Graph.nodeCount (createLetterBoxGraph exampleBox)
                    /\ coverage (letterBoxWordList s)
                       = Graph.nodeCount (createLetterBoxGraph exampleBox)
                    /\ forall k, k < length (letterBoxWordList s) ->
                         coverage (firstn k (letterBoxWordList s))
                         < Graph.nodeCount (createLetterBoxGraph exampleBox))
                 sols.
Proof.
  split; [vm_compute; reflexivity|].
  eexists. split; [vm_compute; reflexivity|]. split; [reflexivity|].
  apply (findSolutions_cover_at_last_word 27 (createLetterBoxGraph exampleBox)
           exampleWordGraph).
  - vm_compute. reflexivity.
  - vm_compute. reflexivity.
Defined.

Lemma createWordGraph_edges_witness :
  let cda := {| word := "cda"; nodeKeys := ["01:c"; "11:d"; "00:a"] |} in
  let abcd := {| word := "abcd"; nodeKeys := ["00:a"; "10:b"; "01:c"; "11:d"] |} in
  keyedWords [cda; abcd] = true
  /\ Graph.hasEdge (createWordGraph [cda; abcd]) (wordKey cda) (wordKey abcd) = true
  /\ (Graph.hasEdge (createWordGraph [cda; abcd]) (wordKey cda) (wordKey abcd) = true <->
      exists X Y, In X [cda; abcd] /\ In Y [cda; abcd]
                  /\ wordKey cda = wordKey X /\ wordKey abcd = wordKey Y
                  /\ lastKey X = firstKey Y /\ nodeKeys X <> nodeKeys Y).
Proof.
  intros cda abcd. split; [reflexivity|]. split; [reflexivity|].
  apply (createWordGraph_edges [cda; abcd] (wordKey cda) (wordKey abcd)).
  reflexivity.
Defined.

(** ** Reading the dictionary *)

Lemma isAlpha_lower c : isAlpha c = true -> isLower (lowerChar c) = true.
Proof.
  destruct c as [[] [] [] [] [] [] [] []]; simpl; intros E;
    try discriminate; reflexivity.
Qed.

Lemma isAlphaWord_lower w : isAlphaWord w = true -> isLowerWord (toLowerCase w) = true.
Proof.
  unfold isAlphaWord, isLowerWord. intros E. apply andb_true_iff in E.
  destruct E as [Hne Hch]. apply andb_true_iff. split.
  - destruct w; [discriminate | reflexivity].
  - clear Hne. induction w as [|c w IH]; simpl in *; [reflexivity|].
    apply andb_true_iff in Hch. destruct Hch as [Hc Hw].
    now rewrite (isAlpha_lower c Hc), (IH Hw).
Qed.

(** The word set [getWords] reads has no repeated word and is normalized. *)
Lemma getWords_normalized wordsContents :
  NoDup (getWords wordsContents) /\ normalized (getWords wordsContents) = true.
Proof.
  unfold getWords. split; [apply of_list_NoDup|].
  unfold normalized. apply forallb_forall. intros w Hw.
  apply (proj1 (of_list_In _ _)) in Hw. apply in_map_iff in Hw.
  destruct Hw as [w0 [<- Hw0]]. apply filter_In in Hw0.
  now apply isAlphaWord_lower.
Qed.

(** ** The pipeline *)

(** The words the Word Finder returns were found from a node of the graph. *)
Lemma findWords_found fuel trie graph words :
  findWords fuel trie graph = Some words ->
  Forall (fun w => exists nodeKey, In nodeKey (Graph.nodes graph)
                                   /\ foundBelow graph trie [] nodeKey w) words.
Proof.
  unfold findWords. intros E.
  eapply (forEachM_inv _ (Forall (fun w => exists nodeKey,
                                    In nodeKey (Graph.nodes graph)
                                    /\ foundBelow graph trie [] nodeKey w)));
    [constructor| |exact E].
  intros x ws ws' Hx Hws Eb. cbv beta in Eb.
  destruct (visitNode fuel x [] [] graph trie ws) as [[[p sp] ws1]|] eqn:Ev;
    [|discriminate].
  inversion Eb; subst. apply visitNode_sound in Ev.
  destruct Ev as [_ [new [-> Hnew]]]. apply Forall_app. split; [assumption|].
  eapply Forall_impl; [|exact Hnew]. intros w Hw. eauto.
Qed.

(** Their node sequences are non-empty and stay on the graph. *)
Lemma findWords_nodeKeys fuel trie graph words :
  edgesClosed graph = true ->
  findWords fuel trie graph = Some words ->
  Forall (fun w => nodeKeys w <> []
                   /\ Forall (fun k => In k (Graph.nodes graph)) (nodeKeys w)) words.
Proof.
  intros Hg E. apply findWords_found in E.
  eapply Forall_impl; [|exact E].
  intros w [x [Hx [ext [Hk [_ [_ Hwalk]]]]]]. simpl in Hk. rewrite Hk.
  split; [discriminate|]. now apply walkFrom_closed.
Qed.

Lemma set_In {K V} `{EqType K} (k k' : K) (v v' : V) m :
  In (k, v) (JsMap.set k' v' m) -> (k, v) = (k', v') \/ In (k, v) m.
Proof.
  induction m as [|[k0 v0] m IH]; simpl.
  - intros [E|[]]. now left.
  - destruct (eqb k' k0); simpl.
    + intros [E|Hin]; auto.
    + intros [E|Hin]; [auto|]. destruct (IH Hin); auto.
Qed.

Lemma labelsOf_In {L} (g : Graph.Graph L) l :
  In l (labelsOf g) <-> exists k, In (k, Some l) (Graph.nodeLabels g).
Proof.
  unfold labelsOf. rewrite in_flat_map. split.
  - intros [[k [x|]] [Hin Hl]]; simpl in Hl; [|destruct Hl].
    destruct Hl as [->|[]]. eauto.
  - intros [k Hin]. exists (k, Some l). split; [assumption | now left].
Qed.

Lemma labelsOf_setNode {L} (g : Graph.Graph L) k x l :
  In l (labelsOf (Graph.setNode g k x)) -> l = x \/ In l (labelsOf g).
Proof.
  rewrite !labelsOf_In. simpl. intros [k0 Hin].
  apply set_In in Hin. destruct Hin as [E|Hin]; [inversion E; auto | eauto].
Qed.

Lemma labelsOf_ensureNode {L} (g : Graph.Graph L) v l :
  In l (labelsOf (Graph.ensureNode g v)) -> In l (labelsOf g).
Proof.
  unfold Graph.ensureNode. destruct (Graph.hasNode g v); [auto|].
  rewrite !labelsOf_In. simpl. intros [k Hin].
  apply in_app_or in Hin. destruct Hin as [Hin|[E|[]]]; [eauto | discriminate].
Qed.

Lemma labelsOf_setEdge {L} (g : Graph.Graph L) v w l :
  In l (labelsOf (Graph.setEdge g v w)) -> In l (labelsOf g).
Proof.
  unfold Graph.setEdge. destruct (Graph.hasEdge g v w); [auto|].
  intros H.
  apply (labelsOf_ensureNode g v), (labelsOf_ensureNode (Graph.ensureNode g v) w).
  exact H.
Qed.

(** The labels of the word graph are words of the set it was built from. *)
Lemma createWordGraph_labels words l :
  In l (labelsOf (createWordGraph words)) -> In l words.
Proof.
  rewrite createWordGraph_steps.
  assert (H : forall steps g,
            In l (labelsOf (fold_left wordStep steps g)) ->
            In l (labelsOf g)
            \/ exists it, In it steps /\ (l = fst it \/ l = snd it)).
  { induction steps as [|[sW eW] steps IH]; simpl; intros g Hl; [auto|].
    apply IH in Hl. destruct Hl as [Hl|[it [Hit Hl]]]; [|eauto].
    unfold wordStep in Hl.
    assert (Hl2 : In l (labelsOf (Graph.setNode (Graph.setNode g (wordKey sW) sW)
                                                 (wordKey eW) eW))).
    { destruct (negb (String.eqb (wordKey sW) (wordKey eW))); [|exact Hl].
      now apply labelsOf_setEdge in Hl. }
    apply labelsOf_setNode in Hl2. destruct Hl2 as [->|Hl2].
    - right. exists (sW, eW). simpl. auto.
    - apply labelsOf_setNode in Hl2. destruct Hl2 as [->|Hl2]; [|auto].
      right. exists (sW, eW). simpl. auto. }
  intros Hl. apply H in Hl. destruct Hl as [Hl|[[sW eW] [Hit Hl]]].
  - destruct Hl.
  - apply wordSteps_In in Hit. simpl in Hl. destruct Hl as [->| ->]; tauto.
Qed.

(** The word graph of the pipeline walks over the letter graph. *)
Lemma pipeline_onBox fuel trie sides words :
  findWords fuel trie (createLetterBoxGraph sides) = Some words ->
  onBox (createLetterBoxGraph sides)
        (createWordGraph (filterWordsInLetterBox words)) = true.
Proof.
  intros E. unfold onBox. apply forallb_forall. intros w Hw.
  apply createWordGraph_labels, filterWordsInLetterBox_In in Hw.
  apply findWords_nodeKeys in E; [|apply createLetterBoxGraph_edgesClosed].
  rewrite Forall_forall in E. destruct (E w Hw) as [_ Hkeys].
  apply forallb_forall. intros k Hk. apply has_In.
  rewrite Forall_forall in Hkeys. now apply Hkeys.
Qed.

(** Every solution the pipeline returns covers all the letter nodes of the
    box, and no proper prefix of its chain does. *)
Corollary solve_solutions_cover fuel sides allWords sols :
  solve fuel sides allWords = Some (Return sols) ->
  Forall (fun s =>
            coverage (letterBoxWordList s)
            = Graph.nodeCount (createLetterBoxGraph sides)
            /\ forall k, k < length (letterBoxWordList s) ->
                 coverage (firstn k (letterBoxWordList s))
                 < Graph.nodeCount (createLetterBoxGraph sides))
         sols.
Proof.
  unfold solve. intros E.
  destruct (findWords fuel (createTrie allWords) (createLetterBoxGraph sides))
    as [words|] eqn:Ew; [|discriminate].
  apply findSolutions_sound in E.
  pose proof (pipeline_onBox _ _ _ _ Ew) as Hbox.
  eapply Forall_impl; [|exact E].
  intros s [ext [Hne [Ed [Hnum [Hpos [Hmin [Hlen Hpre]]]]]]].
  assert (Hle : coverage (letterBoxWordList s)
                <= Graph.nodeCount (createLetterBoxGraph sides)).
  { apply coverage_le_nodeCount. intros w Hw.
    eapply allDefined_In in Hw; [|exact Ed]. apply in_map_iff in Hw.
    destruct Hw as [key [Hkey _]]. eapply onBox_incl; eauto. }
  split; [lia|].
  intros k Hk. destruct k as [|k].
  - simpl. unfold coverage at 1. simpl. lia.
  - apply Hpre; simpl; [lia|].
    rewrite (allDefined_length _ _ Ed), length_map in Hk. exact Hk.
Qed.

Lemma dashFree_app s t : dashFree (s ++ t)%string = dashFree s && dashFree t.
Proof.
  unfold dashFree. induction s as [|c s IH]; simpl; [reflexivity|].
  now rewrite IH, andb_assoc.
Qed.

Lemma string_of_uint_dashFree d : dashFree (NilEmpty.string_of_uint d) = true.
Proof. induction d; simpl; auto. Qed.

Lemma letterKey_dashFree i p l :
  dashFree l = true -> dashFree (letterKey i p l) = true.
Proof.
  intros Hl. unfold letterKey, string_of_nat.
  rewrite !dashFree_app, !string_of_uint_dashFree. simpl. exact Hl.
Qed.

(** On a layout whose letters are not dashes, the words of the pipeline
    are keyed as the Word Graph Builder needs them. *)
Lemma pipeline_keyedWords fuel trie sides words :
  forallb (forallb dashFree) sides = true ->
  findWords fuel trie (createLetterBoxGraph sides) = Some words ->
  keyedWords (filterWordsInLetterBox words) = true.
Proof.
  intros Hsides E. unfold keyedWords. apply forallb_forall. intros w Hw.
  apply filterWordsInLetterBox_In in Hw.
  apply findWords_nodeKeys in E; [|apply createLetterBoxGraph_edgesClosed].
  rewrite Forall_forall in E. destruct (E w Hw) as [Hne Hkeys].
  apply andb_true_iff. split; [destruct (nodeKeys w); congruence|].
  apply forallb_forall. intros k Hk.
  rewrite Forall_forall in Hkeys. specialize (Hkeys k Hk).
  destruct (createLetterBoxGraph_labelled sides k Hkeys) as [i [p [l [Hl [-> _]]]]].
  apply letterKey_dashFree. unfold letterAt in Hl.
  destruct (nth_error sides i) as [side|] eqn:Es; [|discriminate].
  apply nth_error_In in Es, Hl.
  rewrite forallb_forall in Hsides. specialize (Hsides side Es).
  rewrite forallb_forall in Hsides. now apply Hsides.
Qed.

(** Without normalization the complete-word test can miss an entry: with
    the entries "ABC" and "abc" the search for "abc" returns the item of
    "ABC" first. *)
Lemma isWord_mixed_case_entries :
  normalized ["ABC"; "abc"] = false
  /\ In "abc" ["ABC"; "abc"]
  /\ isWord "abc" (createTrie ["ABC"; "abc"]) = false.
Proof. repeat split; simpl; auto. Qed.

(** * Further properties of the code *)

(** ** Reading the dictionary *)

(** X1. The word set [getWords] returns has no repeated word, is
    normalized, and holds exactly the lower-cased lines of the file that
    consist of one or more letters. *)
Theorem getWords_lines wordsContents :
  NoDup (getWords wordsContents)
  /\ normalized (getWords wordsContents) = true
  /\ forall w, In w (getWords wordsContents) <->
               exists line, In line (splitOn "010"%char wordsContents)
                            /\ isAlphaWord line = true /\ w = toLowerCase line.
Proof.
  destruct (getWords_normalized wordsContents) as [Hnd Hn].
  split; [exact Hnd|]. split; [exact Hn|].
  intros w. unfold getWords. rewrite of_list_In, in_map_iff. split.
  - intros [line [<- Hl]]. apply filter_In in Hl. exists line. tauto.
  - intros [line [Hl [Ha ->]]]. exists line. split; [reflexivity|].
    apply filter_In. tauto.
Qed.

(** ** Prefix test *)

Lemma prefix_iff : forall s w,
  String.prefix s w = true <-> exists r, w = (s ++ r)%string.
Proof.
  induction s as [|a s IH]; intros w.
  - split; [intros _; now exists w | intros _; now destruct w].
  - destruct w as [|b w]; simpl.
    + split; [discriminate | intros [r E]; discriminate].
    + destruct (Ascii.ascii_dec a b) as [->|Hne].
      * rewrite IH. split; intros [r E]; exists r; [now rewrite E | now inversion E].
      * split; [discriminate | intros [r E]; inversion E; congruence].
Qed.

Lemma dropPrefix_Some : forall s key r,
  dropPrefix s key = Some r -> key = (s ++ r)%string.
Proof.
  induction s as [|a s IH]; intros key r E; simpl in E.
  - now inversion E.
  - destruct key as [|b key]; [discriminate|].
    destruct (Ascii.eqb a b) eqn:Eab; [|discriminate].
    apply Ascii.eqb_eq in Eab. subst b. simpl. now rewrite (IH _ _ E).
Qed.

Lemma findNode_app_inv : forall s r n n',
  TrieSearch.findNode (s ++ r)%string n = Some n' ->
  exists n1, TrieSearch.findNode s n = Some n1 /\ TrieSearch.findNode r n1 = Some n'.
Proof.
  induction s as [|a s IH]; simpl; intros r n n' E; [eauto|].
  destruct (JsMap.get a (TrieSearch.children n)) as [c|]; [|discriminate].
  now apply IH.
Qed.

Lemma value_aggregate n x :
  In x (TrieSearch.value n) -> In x (TrieSearch.aggregate n).
Proof.
  destruct n as [val cs]. rewrite aggregate_eq. simpl. intros H.
  apply in_or_app. now left.
Qed.

(** The node an insertion leaves at [s]: the old one, with the rest of
    the key inserted below it when [s] is a prefix of the key. *)
Lemma findNode_insert : forall s key v n,
  TrieSearch.findNode s (TrieSearch.insert key v n) =
  match dropPrefix s key with
  | Some r => Some (TrieSearch.insert r v
                      match TrieSearch.findNode s n with
                      | Some m => m
                      | None => TrieSearch.new
                      end)
  | None => TrieSearch.findNode s n
  end.
Proof.
  induction s as [|a s IH]; intros key v [val cs].
  - reflexivity.
  - destruct key as [|b key]; [reflexivity|].
    simpl. destruct (Ascii.eqb a b) eqn:Eab.
    + apply Ascii.eqb_eq in Eab. subst b. rewrite get_set_same, IH.
      destruct (JsMap.get a cs) as [c|]; [reflexivity|].
      destruct (dropPrefix s key) as [r|] eqn:Ed.
      * now destruct s.
      * destruct s; [discriminate | reflexivity].
    + apply Ascii.eqb_neq in Eab. now rewrite get_set_other.
Qed.

(** In the trie of a normalized dictionary, whatever lies at or below the
    node of [s] is an entry that starts with [s]. *)
Lemma createTrie_prefix words :
  normalized words = true ->
  forall s n x, TrieSearch.findNode s (createTrie words) = Some n ->
                In x (TrieSearch.aggregate n) ->
                String.prefix s (TriNode.word x) = true.
Proof.
  unfold createTrie, normalized. intros Hn.
  assert (H : forall ws t,
            forallb isLowerWord ws = true ->
            (forall s n x, TrieSearch.findNode s t = Some n ->
                           In x (TrieSearch.aggregate n) ->
                           String.prefix s (TriNode.word x) = true) ->
            forall s n x,
              TrieSearch.findNode s
                (fold_left (fun trie word => TrieSearch.add (TriNode.mk word) trie) ws t)
              = Some n ->
              In x (TrieSearch.aggregate n) ->
              String.prefix s (TriNode.word x) = true).
  { induction ws as [|w ws IH]; simpl; intros t Hws Ht; [exact Ht|].
    apply andb_true_iff in Hws. destruct Hws as [Hw Hws].
    apply IH; [assumption|]. rewrite (add_lower _ _ Hw).
    intros s n x. rewrite findNode_insert.
    destruct (dropPrefix s w) as [r|] eqn:Ed; [|apply Ht].
    intros E Hx. inversion E; subst n. clear E.
    apply insert_aggregate in Hx. destruct Hx as [->|Hx].
    - simpl. apply prefix_iff. exists r. now apply dropPrefix_Some.
    - destruct (TrieSearch.findNode s t) as [m|] eqn:Em; [|destruct Hx].
      now apply (Ht s m). }
  apply H; [assumption|].
  intros s n x E Hx. destruct s; simpl in E; [|discriminate].
  inversion E; subst. destruct Hx.
Qed.

(** X2. For a trie built from a normalized dictionary and a non-empty
    string without white space, [isPrefix] answers true exactly when some
    entry of the dictionary starts with the lower-cased string. *)
Theorem isPrefix_iff_entry_starts words s :
  normalized words = true -> TrieSearch.hasSpace s = false -> s <> "" ->
  isPrefix s (createTrie words) = true <->
  exists w, In w words /\ String.prefix (toLowerCase s) w = true.
Proof.
  intros Hn Hsp Hne. unfold isPrefix. rewrite (search_no_space _ _ Hsp Hne). split.
  - intros E.
    destruct (TrieSearch.findNode (toLowerCase s) (createTrie words)) as [n|] eqn:En;
      [|discriminate].
    destruct (TrieSearch.aggregate n) as [|x l] eqn:Ea; [discriminate|].
    assert (Hx : In x (TrieSearch.aggregate n)) by (rewrite Ea; now left).
    exists (TriNode.word x). split.
    + apply createTrie_aggregate. eapply findNode_aggregate; eauto.
    + eapply createTrie_prefix; eauto.
  - intros [w [Hw Hp]]. apply prefix_iff in Hp. destruct Hp as [r ->].
    destruct (createTrie_valueAt words Hn) as [_ Hstored].
    specialize (Hstored _ Hw). unfold valueAt in Hstored.
    destruct (TrieSearch.findNode (toLowerCase s ++ r) (createTrie words))
      as [n'|] eqn:En'; [|destruct Hstored].
    apply findNode_app_inv in En'. destruct En' as [n [En Er]]. rewrite En.
    assert (Hx : In (TriNode.mk (toLowerCase s ++ r)) (TrieSearch.aggregate n)).
    { eapply findNode_aggregate; [exact Er|]. now apply value_aggregate. }
    destruct (TrieSearch.aggregate n) as [|x l]; [destruct Hx|].
    destruct (haAddAll_first x l) as [t1 ->].
    destruct (haAddAll_first x t1) as [t2 ->]. reflexivity.
Qed.

Lemma isPrefix_iff_entry_starts_witness :
  normalized ["cat"; "cats"; "car"] = true
  /\ TrieSearch.hasSpace "Ca" = false /\ "Ca" <> ""
  /\ (isPrefix "Ca" (createTrie ["cat"; "cats"; "car"]) = true <->
      exists w, In w ["cat"; "cats"; "car"]
                /\ String.prefix (toLowerCase "Ca") w = true).
Proof.
  split; [reflexivity|]. split; [reflexivity|]. split; [discriminate|].
  apply (isPrefix_iff_entry_starts ["cat"; "cats"; "car"] "Ca");
    [reflexivity | reflexivity | discriminate].
Defined.

(** X3. Whatever the trie, the empty string is not a prefix, and a string
    that passes the complete-word test passes the prefix test, so that the
    Word Finder goes on past a word it has found. *)
Theorem isPrefix_empty_and_words trie :
  isPrefix "" trie = false
  /\ forall s, isWord s trie = true -> isPrefix s trie = true.
Proof.
  split; [reflexivity|].
  intros s. unfold isWord, isPrefix.
  destruct (String.length s <? 3); [discriminate|].
  intros E. now apply andb_true_iff in E.
Qed.

(** ** New letter nodes *)

Lemma addAll_same {A} `{EqLaws A} (l : list A) : forall s,
  (forall x, In x l -> In x s) -> JsSet.addAll l s = s.
Proof.
  unfold JsSet.addAll.
  induction l as [|x l IH]; simpl; intros s Hl; [reflexivity|].
  assert (Hx : JsSet.has x s = true) by (apply has_In, Hl; now left).
  assert (Ea : JsSet.add x s = s) by (unfold JsSet.add; now rewrite Hx).
  rewrite Ea. apply IH. intros y Hy. apply Hl. now right.
Qed.

Lemma addAll_grows {A} `{EqLaws A} (l : list A) : forall s x,
  In x l -> ~ In x s -> length s < length (JsSet.addAll l s).
Proof.
  unfold JsSet.addAll.
  induction l as [|y l IH]; simpl; intros s x Hx Hs; [destruct Hx|].
  destruct (JsSet.has y s) eqn:Ey.
  - assert (Ea : JsSet.add y s = s) by (unfold JsSet.add; now rewrite Ey).
    rewrite Ea. destruct Hx as [->|Hx]; [|now apply (IH s x)].
    apply has_In in Ey. contradiction.
  - assert (Ea : JsSet.add y s = s ++ [y]) by (unfold JsSet.add; now rewrite Ey).
    rewrite Ea. pose proof (addAll_length l (s ++ [y])) as Hle.
    unfold JsSet.addAll in Hle. rewrite length_app in Hle. simpl in Hle. lia.
Qed.

Lemma letterNodesOf_In words k :
  In k (letterNodesOf words) <-> exists w, In w words /\ In k (nodeKeys w).
Proof.
  unfold letterNodesOf. rewrite of_list_In, in_concat. split.
  - intros [ks [Hks Hk]]. apply in_map_iff in Hks.
    destruct Hks as [w [<- Hw]]. eauto.
  - intros [w [Hw Hk]]. exists (nodeKeys w). split; [now apply in_map | exact Hk].
Qed.

(** A word has a new node exactly when one of its keys belongs to none of
    the words seen. *)
Lemma hasNewNode_true word seenWords :
  hasNewNode word seenWords = true <->
  exists k, In k (nodeKeys word) /\ ~ In k (letterNodesOf seenWords).
Proof.
  unfold hasNewNode, JsSet.size. rewrite Nat.ltb_lt. split.
  - intros Hlt.
    destruct (existsb (fun k => negb (JsSet.has k (letterNodesOf seenWords)))
                      (nodeKeys word)) eqn:E.
    + apply existsb_exists in E. destruct E as [k [Hk Hn]].
      exists k. split; [exact Hk|]. apply negb_true_iff in Hn.
      now apply has_not_In.
    + exfalso. rewrite addAll_same in Hlt; [lia|].
      intros x Hx.
      destruct (JsSet.has x (letterNodesOf seenWords)) eqn:Ex; [now apply has_In|].
      assert (existsb (fun k => negb (JsSet.has k (letterNodesOf seenWords)))
                      (nodeKeys word) = true).
      { apply existsb_exists. exists x. split; [exact Hx | now rewrite Ex]. }
      congruence.
  - intros [k [Hk Hn]]. now apply (addAll_grows _ _ k).
Qed.

(** X4. [hasNewNode] answers true exactly when the word has a letter node
    that none of the seen words has; in particular it answers false for a
    word that is among the seen words, and for the first word of a chain it
    only asks for a node. *)
Theorem hasNewNode_iff word seenWords :
  (hasNewNode word seenWords = true <->
   exists k, In k (nodeKeys word)
             /\ forall w, In w seenWords -> ~ In k (nodeKeys w))
  /\ (In word seenWords -> hasNewNode word seenWords = false)
  /\ (hasNewNode word [] = true <-> nodeKeys word <> []).
Proof.
  split; [|split].
  - rewrite hasNewNode_true. split.
    + intros [k [Hk Hn]]. exists k. split; [exact Hk|].
      intros w Hw Hkw. apply Hn. apply letterNodesOf_In. eauto.
    + intros [k [Hk Hn]]. exists k. split; [exact Hk|].
      intros Hin. apply letterNodesOf_In in Hin. destruct Hin as [w [Hw Hkw]].
      now apply (Hn w).
  - intros Hin. destruct (hasNewNode word seenWords) eqn:E; [|reflexivity].
    apply hasNewNode_true in E. destruct E as [k [Hk Hn]].
    exfalso. apply Hn. apply letterNodesOf_In. eauto.
  - rewrite hasNewNode_true. split.
    + intros [k [Hk _]] E. rewrite E in Hk. destruct Hk.
    + intros Hne. destruct (nodeKeys word) as [|k ks]; [congruence|].
      exists k. split; [now left | intros []].
Qed.

(** ** Dominance Filter, continued *)

Lemma filterWordsInLetterBox_split : forall ws pre x post,
  filterWordsInLetterBox ws = pre ++ x :: post ->
  exists pre0 post0,
    ws = pre0 ++ x :: post0
    /\ post = filterWordsInLetterBox post0
    /\ existsb (fun word2 => noKeyOutside x word2) post0 = false.
Proof.
  induction ws as [|w ws IH]; intros pre x post E; simpl in E.
  - destruct pre; discriminate.
  - destruct (existsb (fun word2 => noKeyOutside w word2) ws) eqn:Ec; simpl in E.
    + destruct (IH _ _ _ E) as [pre0 [post0 [-> [Hp Hx]]]].
      exists (w :: pre0), post0. auto.
    + destruct pre as [|p pre]; simpl in E; inversion E; subst.
      * exists [], ws. auto.
      * destruct (IH _ _ _ H1) as [pre0 [post0 [-> [Hp Hx]]]].
        exists (p :: pre0), post0. auto.
Qed.

(** X5. What the filter guarantees between survivors: a surviving word is
    covered by no word that survives after it (a word that survives before
    it may cover it). *)
Theorem filterWordsInLetterBox_no_later_cover ws pre x post y :
  filterWordsInLetterBox ws = pre ++ x :: post ->
  In y post -> ~ incl (nodeKeys x) (nodeKeys y).
Proof.
  intros E Hy Hincl.
  destruct (filterWordsInLetterBox_split ws pre x post E) as [pre0 [post0 [_ [-> Hx]]]].
  apply filterWordsInLetterBox_In in Hy.
  assert (existsb (fun word2 => noKeyOutside x word2) post0 = true).
  { apply existsb_exists. exists y. split; [exact Hy | now apply noKeyOutside_incl]. }
  congruence.
Qed.

Lemma filterWordsInLetterBox_no_later_cover_witness :
  let ab := {| word := "ab"; nodeKeys := ["1"; "2"] |} in
  let abc := {| word := "abc"; nodeKeys := ["1"; "2"; "3"] |} in
  let cd := {| word := "cd"; nodeKeys := ["3"; "4"] |} in
  filterWordsInLetterBox [ab; abc; cd] = [] ++ abc :: [cd]
  /\ ~ incl (nodeKeys abc) (nodeKeys cd).
Proof.
  intros ab abc cd. split; [reflexivity|].
  apply (filterWordsInLetterBox_no_later_cover [ab; abc; cd] [] abc [cd] cd);
    [reflexivity | simpl; auto].
Defined.

(** X6. The filter loses no coverage: every word of the input is covered
    by a word that survives, so the surviving words cover the same letter
    nodes as the input. *)
Theorem filterWordsInLetterBox_keeps_cover ws w :
  In w ws ->
  exists s, In s (filterWordsInLetterBox ws) /\ incl (nodeKeys w) (nodeKeys s).
Proof.
  revert w. induction ws as [|w1 rest IH]; intros w Hw; [destruct Hw|].
  simpl. destruct (existsb (fun word2 => noKeyOutside w1 word2) rest) eqn:E; simpl.
  - destruct Hw as [<-|Hw]; [|now apply IH].
    apply existsb_exists in E. destruct E as [w2 [Hw2 Hc]].
    apply noKeyOutside_incl in Hc.
    destruct (IH w2 Hw2) as [s [Hs Hincl]].
    exists s. split; [exact Hs|]. now apply incl_tran with (m := nodeKeys w2).
  - destruct Hw as [<-|Hw].
    + exists w1. split; [now left | apply incl_refl].
    + destruct (IH w Hw) as [s [Hs Hincl]]. exists s. split; [now right | exact Hincl].
Qed.

Lemma filterWordsInLetterBox_keeps_cover_witness :
  let ab := {| word := "ab"; nodeKeys := ["1"; "2"] |} in
  let abc := {| word := "abc"; nodeKeys := ["1"; "2"; "3"] |} in
  In ab [ab; abc]
  /\ exists s, In s (filterWordsInLetterBox [ab; abc])
               /\ incl (nodeKeys ab) (nodeKeys s).
Proof.
  intros ab abc. split; [simpl; auto|].
  apply (filterWordsInLetterBox_keeps_cover [ab; abc] ab). simpl. auto.
Defined.

(** ** Word Finder, continued *)

Lemma isWord_In words s :
  isWord s (createTrie words) = true -> In s words.
Proof.
  unfold isWord. destruct (String.length s <? 3); [discriminate|].
  destruct (TrieSearch.search s (createTrie words)) as [|w ws] eqn:Es;
    [discriminate|].
  simpl. intros E. apply String.eqb_eq in E. subst s.
  apply createTrie_aggregate. apply (search_aggregate (TriNode.word w)).
  rewrite Es. now left.
Qed.

(** X7. Every word the Word Finder returns is an entry of the dictionary
    the trie was built from, and its text is the text of the letters along
    its node sequence. *)
Theorem findWords_words_are_entries fuel allWords graph words :
  findWords fuel (createTrie allWords) graph = Some words ->
  Forall (fun w => In (word w) allWords
                   /\ word w = pathPrefix graph (nodeKeys w)) words.
Proof.
  intros E. apply findWords_found in E.
  eapply Forall_impl; [|exact E].
  intros w [x [_ [ext [_ [Hw [Hisw _]]]]]]. split; [|exact Hw].
  now apply isWord_In.
Qed.

Lemma findWords_words_are_entries_witness :
  exists words,
    findWords 5 (createTrie exampleWords) (createLetterBoxGraph exampleBox) = Some words
    /\ map word words = ["abc"; "abcd"; "cda"]
    /\ Forall (fun w => In (word w) exampleWords
                        /\ word w = pathPrefix (createLetterBoxGraph exampleBox)
                                               (nodeKeys w)) words.
Proof.
  eexists. split; [vm_compute; reflexivity|]. split; [reflexivity|].
  apply (findWords_words_are_entries 5 exampleWords (createLetterBoxGraph exampleBox)).
  vm_compute. reflexivity.
Defined.

Lemma NoDup_map_compose {A B C} (h : A -> B) (g : B -> C) (l : list A) :
  NoDup (map (fun x => g (h x)) l) -> NoDup (map h l).
Proof.
  induction l as [|x l IH]; simpl; intros H; [constructor|].
  inversion H as [|? ? Hx Hl]; subst. constructor; [|now apply IH].
  intros Hin. apply Hx. apply in_map_iff in Hin. destruct Hin as [y [Ey Hy]].
  apply in_map_iff. exists y. split; [now rewrite Ey | exact Hy].
Qed.

Lemma add_incl {A} `{EqLaws A} (x : A) s : incl s (JsSet.add x s).
Proof. intros y Hy. apply add_In. now right. Qed.

(** A visit records the key of every node sequence it turns into a word,
    and never turns a recorded one into a word again. *)
Lemma visitNode_fresh : forall fuel nodeKey path seenPaths graph trie words
    path' seenPaths' words',
  visitNode fuel nodeKey path seenPaths graph trie words
    = Some (path', seenPaths', words') ->
  incl seenPaths seenPaths'
  /\ exists new, words' = words ++ new
                 /\ NoDup (map pathKeyOf new)
                 /\ forall w, In w new ->
                      In (pathKeyOf w) seenPaths' /\ ~ In (pathKeyOf w) seenPaths.
Proof.
  induction fuel as [|fuel IH]; intros nodeKey path seenPaths graph trie words
    path' seenPaths' words' E; simpl in E; [discriminate|].
  destruct (JsSet.has (join " " (path ++ [nodeKey])) seenPaths) eqn:Hseen.
  { inversion E; subst. split; [apply incl_refl|].
    exists []. rewrite app_nil_r. split; [reflexivity|].
    split; [constructor | intros w []]. }
  apply has_not_In in Hseen.
  set (seen1 := JsSet.add (join " " (path ++ [nodeKey])) seenPaths) in E.
  set (words1 := if isWord (pathPrefix graph (path ++ [nodeKey])) trie
                 then words ++ [{| word := pathPrefix graph (path ++ [nodeKey]);
                                  nodeKeys := path ++ [nodeKey] |}]
                 else words) in E.
  assert (Hseen1 : incl seenPaths seen1) by apply add_incl.
  assert (Hwords1 : exists new, words1 = words ++ new
                      /\ NoDup (map pathKeyOf new)
                      /\ forall w, In w new ->
                           In (pathKeyOf w) seen1 /\ ~ In (pathKeyOf w) seenPaths).
  { unfold words1.
    destruct (isWord (pathPrefix graph (path ++ [nodeKey])) trie).
    - eexists. split; [reflexivity|]. split.
      + simpl. constructor; [intros [] | constructor].
      + intros w [<-|[]]. unfold pathKeyOf. simpl. split; [|exact Hseen].
        apply add_In. now left.
    - exists []. rewrite app_nil_r. split; [reflexivity|].
      split; [constructor | intros w []]. }
  clearbody words1.
  destruct (isPrefix (pathPrefix graph (path ++ [nodeKey])) trie).
  2:{ inversion E; subst. now split. }
  match type of E with
  | match ?loop with _ => _ end = _ => destruct loop as [[[p sp] ws]|] eqn:Eloop
  end; [|discriminate].
  inversion E; subst. clear E.
  pose (I := fun st : list string * list string * list LetterBoxWord =>
               incl seen1 (snd (fst st))
               /\ exists new, snd st = words ++ new
                    /\ NoDup (map pathKeyOf new)
                    /\ forall w, In w new ->
                         In (pathKeyOf w) (snd (fst st))
                         /\ ~ In (pathKeyOf w) seenPaths).
  assert (HI : I (p, seenPaths', words')).
  { eapply (forEachM_inv _ I); [| |exact Eloop].
    - split; [apply incl_refl | exact Hwords1].
    - intros x [[p0 sp0] ws0] [[p1 sp1] ws1] _ [Hsp [new [Hs [Hnd Hnew]]]] Eb.
      simpl in Hsp, Hs, Hnew. subst ws0.
      apply IH in Eb. destruct Eb as [Hsub [new2 [-> [Hnd2 Hnew2]]]].
      split; [simpl; now apply incl_tran with (m := sp0)|].
      exists (new ++ new2). simpl. split; [now rewrite app_assoc|]. split.
      + rewrite map_app. apply NoDup_app; try assumption.
        intros k Hk Hk2. apply in_map_iff in Hk, Hk2.
        destruct Hk as [w [<- Hw]], Hk2 as [w2 [Ek Hw2]].
        destruct (Hnew w Hw) as [Hin _]. destruct (Hnew2 w2 Hw2) as [_ Hout].
        rewrite Ek in Hout. contradiction.
      + intros w Hw. apply in_app_or in Hw. destruct Hw as [Hw|Hw].
        * destruct (Hnew w Hw). split; [now apply Hsub | assumption].
        * destruct (Hnew2 w Hw) as [Hin Hout]. split; [exact Hin|].
          intros Hs. apply Hout, Hsp, Hseen1, Hs. }
  destruct HI as [Hsp Hnew]. simpl in Hsp, Hnew.
  split; [now apply incl_tran with (m := seen1) | exact Hnew].
Qed.

Lemma foundBelow_head graph trie nodeKey w :
  foundBelow graph trie [] nodeKey w -> hd_error (nodeKeys w) = Some nodeKey.
Proof. intros [ext [Hk _]]. now rewrite Hk. Qed.

(** From distinct start nodes the Word Finder gathers words with distinct
    node sequences. *)
Lemma findWords_distinct fuel trie graph : forall nodes words0 words,
  NoDup nodes ->
  forEachM
    (fun node words =>
       match visitNode fuel node [] [] graph trie words with
       | Some (_, _, words) => Some words
       | None => None
       end) nodes words0 = Some words ->
  exists new, words = words0 ++ new
              /\ NoDup (map nodeKeys new)
              /\ forall w, In w new ->
                   exists x, In x nodes /\ hd_error (nodeKeys w) = Some x.
Proof.
  induction nodes as [|x nodes IH]; intros words0 words Hnd E; simpl in E.
  - inversion E; subst. exists []. rewrite app_nil_r.
    split; [reflexivity|]. split; [constructor | intros w []].
  - destruct (visitNode fuel x [] [] graph trie words0) as [[[p sp] ws1]|] eqn:Ev;
      [|discriminate].
    inversion Hnd as [|? ? Hx Hnodes]; subst.
    destruct (IH _ _ Hnodes E) as [new2 [-> [Hnd2 Hhd2]]].
    pose proof (visitNode_sound _ _ _ _ _ _ _ _ _ _ Ev) as [_ [new1 [E1 Hfound]]].
    pose proof (visitNode_fresh _ _ _ _ _ _ _ _ _ _ Ev) as [_ [new1' [E1' [Hnd1 _]]]].
    assert (new1' = new1) by (rewrite E1 in E1'; now apply app_inv_head in E1').
    subst new1' ws1.
    exists (new1 ++ new2). split; [now rewrite app_assoc|]. split.
    + rewrite map_app. apply NoDup_app.
      * now apply (NoDup_map_compose nodeKeys (join " ")).
      * exact Hnd2.
      * intros ks Hk1 Hk2. apply in_map_iff in Hk1, Hk2.
        destruct Hk1 as [w1 [<- Hw1]], Hk2 as [w2 [Ek Hw2]].
        rewrite Forall_forall in Hfound.
        pose proof (foundBelow_head _ _ _ _ (Hfound w1 Hw1)) as H1.
        destruct (Hhd2 w2 Hw2) as [y [Hy H2]].
        rewrite Ek, H1 in H2. inversion H2; subst. contradiction.
    + intros w Hw. apply in_app_or in Hw. destruct Hw as [Hw|Hw].
      * exists x. split; [now left|]. rewrite Forall_forall in Hfound.
        apply (foundBelow_head graph trie). now apply Hfound.
      * destruct (Hhd2 w Hw) as [y [Hy H2]]. exists y. split; [now right | exact H2].
Qed.

(** X8. On the letter graph of a layout, no two words the Word Finder
    returns have the same node sequence. *)
Theorem findWords_distinct_walks fuel trie sides words :
  findWords fuel trie (createLetterBoxGraph sides) = Some words ->
  NoDup (map nodeKeys words).
Proof.
  unfold findWords. intros E.
  destruct (findWords_distinct fuel trie (createLetterBoxGraph sides) _ _ _
              (createLetterBoxGraph_NoDup sides) E) as [new [-> [Hnd _]]].
  exact Hnd.
Qed.

Lemma findWords_distinct_walks_witness :
  exists words,
    findWords 5 (createTrie exampleWords) (createLetterBoxGraph exampleBox) = Some words
    /\ length words = 3
    /\ NoDup (map nodeKeys words).
Proof.
  eexists. split; [vm_compute; reflexivity|]. split; [reflexivity|].
  apply (findWords_distinct_walks 5 (createTrie exampleWords) exampleBox).
  vm_compute. reflexivity.
Defined.

(** ** Word Graph Builder, continued *)

(** One iteration: both words become nodes labelled with themselves. *)
Lemma wordStep_nodes g it :
  let g' := wordStep g it in
  (forall k, In k (Graph.nodes g') <->
             k = wordKey (fst it) \/ k = wordKey (snd it) \/ In k (Graph.nodes g))
  /\ (NoDup (Graph.nodes g) -> NoDup (Graph.nodes g'))
  /\ (forall k, Graph.node g' k =
                if String.eqb k (wordKey (snd it)) then Some (snd it)
                else if String.eqb k (wordKey (fst it)) then Some (fst it)
                     else Graph.node g k).
Proof.
  destruct it as [sW eW]. unfold wordStep. simpl fst. simpl snd.
  set (g2 := Graph.setNode (Graph.setNode g (wordKey sW) sW) (wordKey eW) eW).
  assert (H1 : Graph.hasNode g2 (wordKey sW) = true).
  { apply hasNode_nodes. unfold g2. rewrite !setNode_nodes. auto. }
  assert (H2 : Graph.hasNode g2 (wordKey eW) = true).
  { apply hasNode_nodes. unfold g2. rewrite !setNode_nodes. auto. }
  assert (Hn2 : forall k, In k (Graph.nodes g2) <->
                          k = wordKey sW \/ k = wordKey eW \/ In k (Graph.nodes g)).
  { intros k. unfold g2. rewrite !setNode_nodes. tauto. }
  assert (Hl2 : forall k, Graph.node g2 k =
                          if String.eqb k (wordKey eW) then Some eW
                          else if String.eqb k (wordKey sW) then Some sW
                               else Graph.node g k).
  { intros k. unfold g2. now rewrite !setNode_node. }
  cbv zeta.
  destruct (negb (String.eqb (wordKey sW) (wordKey eW))).
  - split; [|split].
    + intros k. now rewrite (setEdge_nodes g2 _ _ H2 H1).
    + intros Hnd. now apply setEdge_NoDup, setNode_NoDup, setNode_NoDup.
    + intros k. now rewrite setEdge_node.
  - split; [exact Hn2|]. split; [|exact Hl2].
    intros Hnd. now apply setNode_NoDup, setNode_NoDup.
Qed.

Lemma wordSteps_nodes : forall steps g,
  let g' := fold_left wordStep steps g in
  (forall k, In k (Graph.nodes g') <->
             In k (Graph.nodes g)
             \/ exists it, In it steps
                  /\ (k = wordKey (fst it) \/ k = wordKey (snd it)))
  /\ (NoDup (Graph.nodes g) -> NoDup (Graph.nodes g')).
Proof.
  induction steps as [|it steps IH]; intros g; cbv zeta; simpl.
  - split; [|auto]. intros k. split; [auto|]. intros [H|[it [[] _]]]. exact H.
  - destruct (wordStep_nodes g it) as [Hn [Hnd _]].
    destruct (IH (wordStep g it)) as [Hn' Hnd']. cbv zeta in *.
    split; [|auto].
    intros k. rewrite Hn', Hn. split.
    + intros [[H|[H|H]]|[it' [Hit H]]]; eauto 6.
    + intros [H|[it' [[<-|Hit] H]]]; [tauto|tauto|eauto].
Qed.

(** Every node carries a word of the set, under the key of that word. *)
Lemma wordSteps_keyed words : forall steps g,
  (forall it, In it steps -> In (fst it) words /\ In (snd it) words) ->
  (forall u, In u (Graph.nodes g) ->
     exists W, Graph.node g u = Some W /\ In W words /\ wordKey W = u) ->
  forall u, In u (Graph.nodes (fold_left wordStep steps g)) ->
    exists W, Graph.node (fold_left wordStep steps g) u = Some W
              /\ In W words /\ wordKey W = u.
Proof.
  induction steps as [|it steps IH]; intros g Hsteps Hg; simpl; [exact Hg|].
  apply IH; [intros it' Hit'; apply Hsteps; now right|].
  destruct (Hsteps it (or_introl eq_refl)) as [Hs He].
  destruct (wordStep_nodes g it) as [Hn [_ Hl]]. cbv zeta in *.
  intros u Hu. rewrite Hl.
  destruct (String.eqb u (wordKey (snd it))) eqn:E2.
  { apply String.eqb_eq in E2. eauto. }
  destruct (String.eqb u (wordKey (fst it))) eqn:E1.
  { apply String.eqb_eq in E1. eauto. }
  apply String.eqb_neq in E1, E2. apply Hn in Hu.
  destruct Hu as [Hu|[Hu|Hu]]; [contradiction|contradiction|now apply Hg].
Qed.

Lemma createWordGraph_keyed words u :
  In u (Graph.nodes (createWordGraph words)) ->
  exists W, Graph.node (createWordGraph words) u = Some W
            /\ In W words /\ wordKey W = u.
Proof.
  rewrite createWordGraph_steps. apply wordSteps_keyed.
  - intros [sW eW] Hit. apply wordSteps_In in Hit. simpl. tauto.
  - intros k [].
Qed.

Lemma createWordGraph_nodes_steps words u :
  In u (Graph.nodes (createWordGraph words)) <->
  exists it, In it (wordSteps words)
             /\ (u = wordKey (fst it) \/ u = wordKey (snd it)).
Proof.
  rewrite createWordGraph_steps.
  destruct (wordSteps_nodes (wordSteps words) (Graph.new true)) as [Hn _].
  cbv zeta in Hn. rewrite Hn. simpl. tauto.
Qed.

Lemma createWordGraph_NoDup words : NoDup (Graph.nodes (createWordGraph words)).
Proof.
  rewrite createWordGraph_steps.
  apply (wordSteps_nodes (wordSteps words) (Graph.new true)). constructor.
Qed.

(** X9. The nodes of the word graph: a word of the set is a node exactly
    when some word of the set ends on its first letter node or starts on
    its last one (a word with neither is left out of the graph); every node
    is labelled with a word of the set that has the node's key, and no key
    is a node twice. *)
Theorem createWordGraph_nodes words :
  (forall u, In u (Graph.nodes (createWordGraph words)) <->
     exists W, In W words /\ u = wordKey W
               /\ ((exists E, In E words /\ lastKey E = firstKey W)
                   \/ (exists S, In S words /\ lastKey W = firstKey S)))
  /\ (forall u, In u (Graph.nodes (createWordGraph words)) ->
        exists W, Graph.node (createWordGraph words) u = Some W
                  /\ In W words /\ wordKey W = u)
  /\ NoDup (Graph.nodes (createWordGraph words)).
Proof.
  split; [|split; [apply createWordGraph_keyed | apply createWordGraph_NoDup]].
  intros u. rewrite createWordGraph_nodes_steps. split.
  - intros [[sW eW] [Hit Hu]]. apply wordSteps_In in Hit.
    destruct Hit as [Hs [He Hk]]. simpl in Hu. destruct Hu as [->| ->].
    + exists sW. repeat split; try assumption. left. eauto.
    + exists eW. repeat split; try assumption. right. eauto.
  - intros [W [HW [-> [[E [HE Hk]]|[S [HS Hk]]]]]].
    + exists (W, E). split; [apply wordSteps_In; auto | now left].
    + exists (S, W). split; [apply wordSteps_In; auto | now right].
Qed.

(** The word graph has all its nodes labelled and its edges between
    nodes. *)
Lemma createWordGraph_allLabelled words :
  allLabelled (createWordGraph words) = true.
Proof.
  unfold allLabelled. apply andb_true_iff. split.
  - apply forallb_forall. intros k Hk.
    destruct (createWordGraph_keyed words k Hk) as [W [-> _]]. reflexivity.
  - unfold edgesClosed. apply forallb_forall. intros [u v] He.
    assert (Hh : Graph.hasEdge (createWordGraph words) u v = true).
    { apply hasEdge_In. rewrite createWordGraph_steps.
      destruct (wordSteps_fold (wordSteps words) (Graph.new true)) as [_ Hd].
      cbv zeta in Hd. rewrite Hd. rewrite <- createWordGraph_steps. exact He. }
    apply createWordGraph_hasEdge in Hh.
    destruct Hh as [X [Y [HX [HY [-> [-> [Hk _]]]]]]]. simpl.
    apply andb_true_iff. split; apply hasNode_nodes, createWordGraph_nodes_steps.
    + exists (Y, X). split; [apply wordSteps_In; auto | now right].
    + exists (Y, X). split; [apply wordSteps_In; auto | now left].
Qed.

(** ** Solution Search, continued *)

Lemma growingFrom_snoc : forall chain seen w,
  growingFrom seen (chain ++ [w])
  = growingFrom seen chain && hasNewNode w (seen ++ chain).
Proof.
  induction chain as [|c chain IH]; intros seen w; simpl.
  - now rewrite app_nil_r, andb_true_r.
  - rewrite IH, <- app_assoc. simpl. now rewrite andb_assoc.
Qed.

Lemma successors_isSuccessor {L} (g : Graph.Graph L) u v :
  In v (orEmpty (Graph.successors g u)) -> isSuccessor g u v = true.
Proof.
  unfold Graph.successors, isSuccessor.
  destruct (Graph.hasNode g u); simpl; [|tauto].
  intros Hv. apply in_map_iff in Hv. destruct Hv as [[a b] [<- He]].
  apply filter_In in He. destruct He as [He E]. simpl in E.
  apply String.eqb_eq in E. subst a.
  apply existsb_exists. exists (u, b). split; [exact He | now apply edge_eqb_eq].
Qed.

(** The chain of a recorded solution follows the successors of the graph
    and grows by a new letter node with every word. *)
Lemma exploreWordGraph_chain : forall fuel nodeKey path graph seenPaths minNumNodes
    solutions path' seenPaths' solutions',
  exploreWordGraph fuel nodeKey path graph seenPaths minNumNodes solutions
    = Some (Return (path', seenPaths', solutions')) ->
  (forall seenWords,
     allDefined (map (fun key => Graph.node graph key) path) = Some seenWords ->
     growing seenWords = true) ->
  exists new, solutions' = solutions ++ new
              /\ Forall (chainBelow graph path nodeKey) new.
Proof.
  induction fuel as [|fuel IH]; intros nodeKey path graph seenPaths minNumNodes
    solutions path' seenPaths' solutions' E Hgrow; simpl in E; [discriminate|].
  destruct (25 <? length path); [discriminate|].
  destruct (Graph.node graph nodeKey) as [nodeWord|] eqn:Enode; [|discriminate].
  destruct (allDefined (map (fun key => Graph.node graph key) path))
    as [seenWords|] eqn:Eseen; [|discriminate].
  specialize (Hgrow seenWords eq_refl).
  assert (Ewords : allDefined (map (fun key => Graph.node graph key) (path ++ [nodeKey]))
                   = Some (seenWords ++ [nodeWord])).
  { rewrite map_app, allDefined_app, Eseen. simpl. now rewrite Enode. }
  destruct (hasNewNode nodeWord seenWords) eqn:Hadds; simpl in E.
  2:{ inversion E; subst. exists []. now rewrite app_nil_r. }
  assert (Hgrow1 : growing (seenWords ++ [nodeWord]) = true).
  { unfold growing in *. rewrite growingFrom_snoc, Hgrow. exact Hadds. }
  destruct (JsSet.has (join "" (path ++ [nodeKey])) seenPaths).
  { inversion E; subst. exists []. now rewrite app_nil_r. }
  destruct (minNumNodes <=? JsSet.size (letterNodesOf (seenWords ++ [nodeWord]))).
  - inversion E; subst. eexists. split; [reflexivity|].
    constructor; [|constructor]. exists []. simpl. auto.
  - match type of E with
    | match ?loop with _ => _ end = _ => destruct loop as [[[[p sp] sols]|e]|] eqn:Eloop
    end; try discriminate.
    inversion E; subst. clear E.
    pose (I := fun st : list string * list string * list LetterBoxSolution =>
                 fst (fst st) = path ++ [nodeKey]
                 /\ exists new, snd st = solutions ++ new
                      /\ Forall (chainBelow graph path nodeKey) new).
    assert (HI : I (p, seenPaths', solutions')).
    { eapply (forEachT_inv _ I); [| |exact Eloop].
      - split; [reflexivity|]. exists []. simpl. now rewrite app_nil_r.
      - intros x [[p0 sp0] sols0] [[p1 sp1] sols1] Hx [Hp [new [Hs Hnew]]] Eb.
        simpl in Hp, Hs. subst p0 sols0.
        pose proof (exploreWordGraph_sound _ _ _ _ _ _ _ _ _ _ Eb) as [-> _].
        apply IH in Eb.
        2:{ intros ws Ews. rewrite Ewords in Ews. inversion Ews; now subst. }
        destruct Eb as [new2 [-> Hnew2]].
        split; [reflexivity|]. exists (new ++ new2). simpl.
        split; [now rewrite app_assoc|].
        apply Forall_app. split; [assumption|].
        eapply Forall_impl; [|exact Hnew2].
        intros s [ext [Hd [Hch Hg]]]. exists (x :: ext).
        rewrite <- app_assoc in Hd. simpl in Hd.
        repeat split; try assumption.
        simpl. now rewrite (successors_isSuccessor _ _ _ Hx). }
    destruct HI as [_ Hnew]. exact Hnew.
Qed.

Lemma findSolutions_chainBelow fuel graph minNumNodes sols :
  findSolutions fuel graph minNumNodes = Some (Return sols) ->
  Forall (fun s => exists nodeKey, In nodeKey (Graph.nodes graph)
                                   /\ chainBelow graph [] nodeKey s) sols.
Proof.
  unfold findSolutions. intros E.
  eapply (forEachT_inv _ (Forall (fun s => exists nodeKey,
                                    In nodeKey (Graph.nodes graph)
                                    /\ chainBelow graph [] nodeKey s)));
    [constructor| |exact E].
  intros x sols0 sols1 Hx Hs Eb. unfold exploreFrom in Eb.
  destruct (exploreWordGraph fuel x [] graph [] minNumNodes sols0)
    as [[[[p sp] sols2]|e]|] eqn:Ex; try discriminate.
  inversion Eb; subst. apply exploreWordGraph_chain in Ex.
  - destruct Ex as [new [-> Hnew]]. apply Forall_app. split; [assumption|].
    eapply Forall_impl; [|exact Hnew]. intros s Hs'. eauto.
  - intros ws Ews. simpl in Ews. inversion Ews. reflexivity.
Qed.

(** X10. In a run of [findSolutions] that returns, the chain of every
    solution is the sequence of labels of a non-empty sequence of node keys
    that starts on a node of the word graph and goes from a node to one of
    its successors. *)
Theorem findSolutions_chains_follow_edges fuel graph minNumNodes sols :
  findSolutions fuel graph minNumNodes = Some (Return sols) ->
  Forall (fun s => exists keys,
            isChainOf graph keys = true
            /\ allDefined (map (fun key => Graph.node graph key) keys)
               = Some (letterBoxWordList s)) sols.
Proof.
  intros E. apply findSolutions_chainBelow in E.
  eapply Forall_impl; [|exact E].
  intros s [x [Hx [ext [Hd [Hch _]]]]]. exists (x :: ext). split; [|exact Hd].
  simpl. apply andb_true_iff. split; [now apply hasNode_nodes | exact Hch].
Qed.

Lemma findSolutions_chains_follow_edges_witness :
  exists sols,
    findSolutions 27 exampleWordGraph 4 = Some (Return sols)
    /\ length sols = 2
    /\ Forall (fun s => exists keys,
                 isChainOf exampleWordGraph keys = true
                 /\ allDefined (map (fun key => Graph.node exampleWordGraph key) keys)
                    = Some (letterBoxWordList s)) sols.
Proof.
  eexists. split; [vm_compute; reflexivity|]. split; [reflexivity|].
  apply (findSolutions_chains_follow_edges 27 exampleWordGraph 4).
  vm_compute. reflexivity.
Defined.

Lemma growingFrom_fresh : forall chain seen,
  growingFrom seen chain = true ->
  (forall w, In w chain -> ~ In w seen) /\ NoDup chain.
Proof.
  induction chain as [|c chain IH]; intros seen H; simpl in H.
  - split; [intros w [] | constructor].
  - apply andb_true_iff in H. destruct H as [Hc Hrest].
    destruct (IH _ Hrest) as [Hout Hnd].
    assert (Hcs : ~ In c seen).
    { intros Hin. apply hasNewNode_true in Hc. destruct Hc as [k [Hk Hn]].
      apply Hn. apply letterNodesOf_In. eauto. }
    split.
    + intros w [<-|Hw]; [exact Hcs|].
      intros Hin. apply (Hout w Hw). apply in_or_app. now left.
    + constructor; [|exact Hnd].
      intros Hin. apply (Hout c Hin). apply in_or_app. right. now left.
Qed.

Lemma growingFrom_coverage : forall chain seen,
  growingFrom seen chain = true ->
  coverage seen + length chain <= coverage (seen ++ chain).
Proof.
  induction chain as [|c chain IH]; intros seen H; simpl in H.
  - rewrite app_nil_r. simpl. lia.
  - apply andb_true_iff in H. destruct H as [Hc Hrest].
    specialize (IH _ Hrest). rewrite <- app_assoc in IH. simpl in IH.
    unfold hasNewNode in Hc. apply Nat.ltb_lt in Hc.
    rewrite <- letterNodesOf_snoc in Hc. unfold coverage in *.
    cbn [length]. lia.
Qed.

(** X11. In a run of [findSolutions] that returns, every word of a chain
    brings a letter node that the words before it do not have, so no word
    occurs twice in a chain and a chain has at most as many words as the
    letter nodes the solution counts. *)
Theorem findSolutions_chains_grow fuel graph minNumNodes sols :
  findSolutions fuel graph minNumNodes = Some (Return sols) ->
  Forall (fun s => growing (letterBoxWordList s) = true
                   /\ NoDup (letterBoxWordList s)
                   /\ length (letterBoxWordList s) <= numSeenLetterNodes s) sols.
Proof.
  intros E.
  pose proof (findSolutions_sound _ _ _ _ E) as Hrec.
  pose proof (findSolutions_chainBelow _ _ _ _ E) as Hch.
  rewrite Forall_forall in *. intros s Hs.
  destruct (Hch s Hs) as [x [_ [ext [_ [_ Hg]]]]].
  destruct (Hrec s Hs) as [ext' [_ [_ [Hnum _]]]].
  split; [exact Hg|]. unfold growing in Hg.
  split; [now apply (growingFrom_fresh _ [])|].
  apply growingFrom_coverage in Hg. cbn [app] in Hg.
  change (coverage []) with 0 in Hg. rewrite Hnum. lia.
Qed.

Lemma findSolutions_chains_grow_witness :
  exists sols,
    findSolutions 27 exampleWordGraph 4 = Some (Return sols)
    /\ length sols = 2
    /\ Forall (fun s => growing (letterBoxWordList s) = true
                        /\ NoDup (letterBoxWordList s)
                        /\ length (letterBoxWordList s) <= numSeenLetterNodes s) sols.
Proof.
  eexists. split; [vm_compute; reflexivity|]. split; [reflexivity|].
  apply (findSolutions_chains_grow 27 exampleWordGraph 4).
  vm_compute. reflexivity.
Defined.

Lemma coverage_incl a b :
  (forall w, In w a -> In w b) -> coverage a <= coverage b.
Proof.
  intros Hab. unfold coverage, JsSet.size.
  apply NoDup_incl_length; [apply of_list_NoDup|].
  intros k Hk. apply letterNodesOf_In in Hk. destruct Hk as [w [Hw Hk]].
  apply letterNodesOf_In. eauto.
Qed.

(** X12. When all the words of the word graph together cover fewer letter
    nodes than the target, a run of [findSolutions] that returns has found
    no solution. *)
Theorem findSolutions_none_when_uncoverable fuel graph minNumNodes sols :
  coverage (labelsOf graph) < minNumNodes ->
  findSolutions fuel graph minNumNodes = Some (Return sols) ->
  sols = [].
Proof.
  intros Hcov E. apply findSolutions_sound in E.
  destruct sols as [|s sols]; [reflexivity|]. exfalso.
  inversion E as [|? ? Hs _]; subst.
  destruct Hs as [ext [_ [Ed [Hnum [_ [Hmin _]]]]]].
  assert (Hle : coverage (letterBoxWordList s) <= coverage (labelsOf graph)).
  { apply coverage_incl. intros w Hw.
    eapply allDefined_In in Hw; [|exact Ed]. apply in_map_iff in Hw.
    destruct Hw as [key [Hkey _]]. eapply node_labelsOf; eauto. }
  lia.
Qed.

Lemma findSolutions_none_when_uncoverable_witness :
  coverage (labelsOf exampleWordGraph) < 5
  /\ exists sols,
       findSolutions 27 exampleWordGraph 5 = Some (Return sols) /\ sols = [].
Proof.
  split; [vm_compute; lia|].
  eexists. split; [vm_compute; reflexivity|].
  apply (findSolutions_none_when_uncoverable 27 exampleWordGraph 5);
    [vm_compute; lia | vm_compute; reflexivity].
Defined.

Lemma forEachT_returns {A S} (body : A -> S -> option (outcome S)) (I : S -> Prop) :
  forall l s,
    I s ->
    (forall x s, In x l -> I s -> exists s', body x s = Some (Return s') /\ I s') ->
    exists r, forEachT body l s = Some (Return r) /\ I r.
Proof.
  induction l as [|x l IH]; simpl; intros s Hs Hbody.
  - eauto.
  - destruct (Hbody x s (or_introl eq_refl) Hs) as [s' [Es' Hs']]. rewrite Es'.
    apply IH; [exact Hs' | intros; apply Hbody; auto].
Qed.

Lemma allLabelled_node {L} (g : Graph.Graph L) k :
  allLabelled g = true -> In k (Graph.nodes g) -> exists l, Graph.node g k = Some l.
Proof.
  unfold allLabelled. intros Hg Hk. apply andb_true_iff in Hg.
  destruct Hg as [Hn _]. rewrite forallb_forall in Hn. specialize (Hn k Hk).
  destruct (Graph.node g k) as [l|]; [eauto | discriminate].
Qed.

Lemma allLabelled_successor {L} (g : Graph.Graph L) u v :
  allLabelled g = true -> In v (orEmpty (Graph.successors g u)) ->
  In v (Graph.nodes g).
Proof.
  unfold allLabelled, edgesClosed. intros Hg Hv. apply andb_true_iff in Hg.
  destruct Hg as [_ He]. rewrite forallb_forall in He.
  apply successors_isSuccessor in Hv. unfold isSuccessor in Hv.
  apply existsb_exists in Hv. destruct Hv as [e [Hin E]].
  apply edge_eqb_eq in E. subst e. specialize (He _ Hin). simpl in He.
  apply andb_true_iff in He. now apply hasNode_nodes.
Qed.

(** On a box of at most 25 letter nodes a growing chain never reaches the
    cap, so an exploration from a node returns. *)
Lemma exploreWordGraph_returns letterGraph graph minNumNodes :
  allLabelled graph = true -> onBox letterGraph graph = true ->
  Graph.nodeCount letterGraph <= 25 ->
  forall fuel nodeKey path seenPaths solutions seenWords,
    In nodeKey (Graph.nodes graph) ->
    allDefined (map (fun key => Graph.node graph key) path) = Some seenWords ->
    growing seenWords = true ->
    1 <= fuel -> 27 <= fuel + length path ->
    exists seenPaths' solutions',
      exploreWordGraph fuel nodeKey path graph seenPaths minNumNodes solutions
      = Some (Return (path, seenPaths', solutions')).
Proof.
  intros Hlab Hbox Hcount.
  induction fuel as [|fuel IH]; intros nodeKey path seenPaths solutions seenWords
    Hnode Eseen Hgrow Hfuel Hlen; [lia|]. simpl.
  assert (Hpath : length path <= 25).
  { rewrite <- (length_map (fun key => Graph.node graph key) path).
    rewrite <- (allDefined_length _ _ Eseen).
    pose proof (growingFrom_coverage _ _ Hgrow) as Hc. cbn [app] in Hc.
    change (coverage []) with 0 in Hc.
    assert (coverage seenWords <= Graph.nodeCount letterGraph).
    { apply coverage_le_nodeCount. intros w Hw.
      eapply allDefined_In in Hw; [|exact Eseen]. apply in_map_iff in Hw.
      destruct Hw as [key [Hkey _]]. eapply onBox_incl; eauto. }
    lia. }
  apply Nat.ltb_ge in Hpath. rewrite Hpath. apply Nat.ltb_ge in Hpath.
  destruct (allLabelled_node graph nodeKey Hlab Hnode) as [nodeWord Enode].
  rewrite Enode, Eseen.
  assert (Ewords : allDefined (map (fun key => Graph.node graph key) (path ++ [nodeKey]))
                   = Some (seenWords ++ [nodeWord])).
  { rewrite map_app, allDefined_app, Eseen. simpl. now rewrite Enode. }
  destruct (hasNewNode nodeWord seenWords) eqn:Hadds; simpl; [|eauto].
  assert (Hgrow1 : growing (seenWords ++ [nodeWord]) = true).
  { unfold growing in *. rewrite growingFrom_snoc, Hgrow. exact Hadds. }
  destruct (JsSet.has (join "" (path ++ [nodeKey])) seenPaths).
  { rewrite removelast_last. eauto. }
  destruct (minNumNodes <=? JsSet.size (letterNodesOf (seenWords ++ [nodeWord]))).
  { rewrite removelast_last. eauto. }
  match goal with
  | |- exists _ _, match ?loop with _ => _ end = _ =>
      assert (Hloop : exists r, loop = Some (Return r)
                                /\ fst (fst r) = path ++ [nodeKey])
  end.
  { apply (forEachT_returns _
             (fun st : list string * list string * list LetterBoxSolution =>
                fst (fst st) = path ++ [nodeKey])); [reflexivity|].
    intros x [[p sp] sols] Hx Hp. simpl in Hp. subst p.
    destruct (IH x (path ++ [nodeKey]) sp sols (seenWords ++ [nodeWord]))
      as [sp' [sols' Er]]; try assumption.
    - now apply (allLabelled_successor graph nodeKey).
    - lia.
    - rewrite length_app. simpl. lia.
    - eexists. split; [exact Er | reflexivity]. }
  destruct Hloop as [[[p sp] sols] [-> Hp]]. simpl in Hp. subst p.
  rewrite removelast_last. eauto.
Qed.

(** X13. On a word graph whose nodes are all labelled, whose edges join
    nodes and whose words walk over a letter graph of at most 25 nodes, the
    Solution Search never throws: with 27 units of fuel or more,
    [findSolutions] returns a list of solutions whatever the target. *)
Theorem findSolutions_returns_on_small_box fuel letterGraph graph minNumNodes :
  allLabelled graph = true -> onBox letterGraph graph = true ->
  Graph.nodeCount letterGraph <= 25 -> 27 <= fuel ->
  exists sols, findSolutions fuel graph minNumNodes = Some (Return sols).
Proof.
  intros Hlab Hbox Hcount Hfuel. unfold findSolutions.
  destruct (forEachT_returns (exploreFrom fuel graph minNumNodes) (fun _ => True)
              (Graph.nodes graph) []) as [r [Er _]]; [exact I| |eauto].
  intros x sols Hx _. unfold exploreFrom.
  destruct (exploreWordGraph_returns letterGraph graph minNumNodes Hlab Hbox Hcount
              fuel x [] [] sols [] Hx eq_refl eq_refl) as [sp [sols' ->]];
    [lia | simpl; lia |]. eauto.
Qed.

Lemma findSolutions_returns_on_small_box_witness :
  allLabelled exampleWordGraph = true
  /\ onBox (createLetterBoxGraph exampleBox) exampleWordGraph = true
  /\ Graph.nodeCount (createLetterBoxGraph exampleBox) <= 25
  /\ exists sols, findSolutions 27 exampleWordGraph 4 = Some (Return sols).
Proof.
  split; [vm_compute; reflexivity|]. split; [vm_compute; reflexivity|].
  split; [vm_compute; lia|].
  apply (findSolutions_returns_on_small_box 27 (createLetterBoxGraph exampleBox)
           exampleWordGraph 4);
    [vm_compute; reflexivity | vm_compute; reflexivity | vm_compute; lia | lia].
Defined.

(** ** Chains of the word graph *)

Lemma createWordGraph_directed words :
  Graph.isDirected (createWordGraph words) = true.
Proof.
  rewrite createWordGraph_steps.
  now destruct (wordSteps_fold (wordSteps words) (Graph.new true)) as [_ ->].
Qed.

Lemma createWordGraph_isSuccessor words u v :
  isSuccessor (createWordGraph words) u v = true ->
  Graph.hasEdge (createWordGraph words) u v = true.
Proof.
  unfold isSuccessor. intros H. apply existsb_exists in H.
  destruct H as [e [He E]]. apply edge_eqb_eq in E. subst e.
  apply hasEdge_In. now rewrite createWordGraph_directed.
Qed.

(** The label of a node that has an edge to another one ends where the
    label of the other one starts. *)
Lemma createWordGraph_successor_linked words u v Wu Wv :
  keyedWords words = true ->
  isSuccessor (createWordGraph words) u v = true ->
  Graph.node (createWordGraph words) u = Some Wu ->
  Graph.node (createWordGraph words) v = Some Wv ->
  lastKey Wu = firstKey Wv.
Proof.
  intros Hk Hs Eu Ev. apply createWordGraph_isSuccessor in Hs.
  pose proof (createWordGraph_allLabelled words) as Hl.
  unfold allLabelled in Hl. apply andb_true_iff in Hl. destruct Hl as [_ Hc].
  apply createWordGraph_hasEdge in Hs.
  destruct Hs as [X [Y [HX [HY [-> [-> [Hxy Hne]]]]]]].
  assert (Hnodes : forall Z, In Z words ->
            In (wordKey Z) (Graph.nodes (createWordGraph words)) ->
            forall W, Graph.node (createWordGraph words) (wordKey Z) = Some W ->
                      nodeKeys W = nodeKeys Z).
  { intros Z HZ Hin W EW.
    destruct (createWordGraph_keyed words _ Hin) as [W' [EW' [HW' Hkey]]].
    rewrite EW in EW'. inversion EW'; subst W'.
    now apply (keyedWords_wordKey words W Z Hk HW' HZ). }
  assert (HinX : In (wordKey X) (Graph.nodes (createWordGraph words))).
  { apply createWordGraph_nodes_steps. exists (Y, X).
    split; [apply wordSteps_In; auto | now right]. }
  assert (HinY : In (wordKey Y) (Graph.nodes (createWordGraph words))).
  { apply createWordGraph_nodes_steps. exists (Y, X).
    split; [apply wordSteps_In; auto | now left]. }
  unfold lastKey, firstKey in *.
  rewrite (Hnodes X HX HinX Wu Eu), (Hnodes Y HY HinY Wv Ev). exact Hxy.
Qed.

Lemma allDefined_map_cons {A B} (f : A -> option B) x l :
  allDefined (map f (x :: l)) =
  match f x with
  | Some a => match allDefined (map f l) with Some xs => Some (a :: xs) | None => None end
  | None => None
  end.
Proof. reflexivity. Qed.

Lemma succChain_linked words :
  keyedWords words = true ->
  forall ext x ws,
    allDefined (map (fun key => Graph.node (createWordGraph words) key) (x :: ext))
    = Some ws ->
    succChain (createWordGraph words) x ext = true ->
    exists W rest, ws = W :: rest
                   /\ Graph.node (createWordGraph words) x = Some W
                   /\ linkedFrom W rest = true.
Proof.
  intros Hk. induction ext as [|y ext IH]; intros x ws Ed Hs.
  - simpl in Ed. destruct (Graph.node (createWordGraph words) x) as [W|];
      [|discriminate].
    inversion Ed. exists W, []. auto.
  - rewrite allDefined_map_cons in Ed. cbn [succChain] in Hs.
    apply andb_true_iff in Hs. destruct Hs as [Hxy Hrest].
    destruct (Graph.node (createWordGraph words) x) as [W|] eqn:Ex; [|discriminate].
    destruct (allDefined (map (fun key => Graph.node (createWordGraph words) key)
                              (y :: ext))) as [ws'|] eqn:Ed'; [|discriminate].
    destruct (IH y ws' Ed' Hrest) as [W' [rest [-> [Ey Hl]]]].
    inversion Ed. exists W, (W' :: rest). split; [reflexivity|].
    split; [reflexivity|]. simpl. apply andb_true_iff. split; [|exact Hl].
    rewrite (createWordGraph_successor_linked words x y W W' Hk Hxy Ex Ey).
    apply okey_eqb_refl.
Qed.

(** The chain of a solution recorded below the empty chain is made of
    words of the set, each starting where the one before it ends. *)
Lemma chainBelow_linked words x s :
  keyedWords words = true ->
  chainBelow (createWordGraph words) [] x s ->
  linkedChain (letterBoxWordList s) = true
  /\ Forall (fun w => In w words) (letterBoxWordList s).
Proof.
  intros Hk [ext [Hd [Hch _]]]. cbn [app] in Hd. split.
  - destruct (succChain_linked words Hk ext x _ Hd Hch) as [W [rest [-> [_ Hl]]]].
    exact Hl.
  - apply Forall_forall. intros w Hw.
    eapply allDefined_In in Hw; [|exact Hd]. apply in_map_iff in Hw.
    destruct Hw as [key [Hkey Hin]].
    apply createWordGraph_labels. now apply (node_labelsOf _ key).
Qed.

(** X14. On the word graph of a set of words with dash-free keys, every
    chain a returning Solution Search records is made of words of the set,
    and each word of it starts on the letter node the word before it ends
    on. *)
Theorem createWordGraph_solutions_linked fuel words minNumNodes sols :
  keyedWords words = true ->
  findSolutions fuel (createWordGraph words) minNumNodes = Some (Return sols) ->
  Forall (fun s => linkedChain (letterBoxWordList s) = true
                   /\ Forall (fun w => In w words) (letterBoxWordList s)) sols.
Proof.
  intros Hk E. apply findSolutions_chainBelow in E.
  eapply Forall_impl; [|exact E].
  intros s [x [_ Hs]]. now apply (chainBelow_linked words x).
Qed.

Lemma createWordGraph_solutions_linked_witness :
  keyedWords (filterWordsInLetterBox
                (orEmpty (findWords 5 (createTrie exampleWords)
                                    (createLetterBoxGraph exampleBox)))) = true
  /\ exists sols,
       findSolutions 27 exampleWordGraph 4 = Some (Return sols)
       /\ length sols = 2
       /\ Forall (fun s =>
                    linkedChain (letterBoxWordList s) = true
                    /\ Forall (fun w =>
                                 In w (filterWordsInLetterBox
                                         (orEmpty (findWords 5 (createTrie exampleWords)
                                                     (createLetterBoxGraph exampleBox)))))
                              (letterBoxWordList s)) sols.
Proof.
  split; [vm_compute; reflexivity|].
  eexists. split; [vm_compute; reflexivity|]. split; [reflexivity|].
  apply (createWordGraph_solutions_linked 27
           (filterWordsInLetterBox
              (orEmpty (findWords 5 (createTrie exampleWords)
                                  (createLetterBoxGraph exampleBox)))) 4);
    vm_compute; reflexivity.
Defined.

(** ** The letter graph and the letters of the layout *)

Lemma nodeCount_nodes {L} (g : Graph.Graph L) :
  Graph.nodeCount g = length (Graph.nodes g).
Proof. unfold Graph.nodeCount, Graph.nodes, JsMap.keys. now rewrite length_map. Qed.

Lemma map_nth_seq {A} (l : list A) d :
  map (fun i => nth i l d) (seq 0 (length l)) = l.
Proof.
  apply (nth_ext _ _ d d).
  - now rewrite length_map, length_seq.
  - intros n Hn. rewrite length_map, length_seq in Hn.
    rewrite (nth_indep _ d (nth 0 l d)) by (now rewrite length_map, length_seq).
    rewrite (map_nth (fun i => nth i l d) (seq 0 (length l)) 0 n).
    now rewrite seq_nth.
Qed.

Lemma boxKeys_length sides : length (boxKeys sides) = length (concat sides).
Proof.
  unfold boxKeys. rewrite length_flat_map, length_concat. f_equal.
  transitivity (map (@length string)
                    (map (fun i => nth i sides []) (seq 0 (length sides))));
    [|now rewrite map_nth_seq].
  rewrite map_map. apply map_ext. intros i. now rewrite length_map, length_seq.
Qed.

Lemma boxKeys_In sides k :
  In k (boxKeys sides) <-> exists i p l, occurrence sides i p l /\ k = letterKey i p l.
Proof.
  unfold boxKeys, occurrence. rewrite in_flat_map. split.
  - intros [i [Hi Hk]]. apply in_map_iff in Hk. destruct Hk as [p [<- Hp]].
    apply in_seq in Hi, Hp. exists i, p, (nth p (nth i sides []) "").
    split; [apply letterAt_nth; lia | reflexivity].
  - intros [i [p [l [Hl ->]]]]. apply letterAt_Some in Hl.
    destruct Hl as [Hi [Hp ->]]. exists i. split; [apply in_seq; lia|].
    apply in_map_iff. exists p. split; [reflexivity | apply in_seq; lia].
Qed.

Lemma createLetterBoxGraph_nodes_boxKeys sides :
  incl (Graph.nodes (createLetterBoxGraph sides)) (boxKeys sides).
Proof.
  intros k Hk. apply createLetterBoxGraph_nodes in Hk.
  destruct Hk as [i [p [l [[Hl _] ->]]]]. apply boxKeys_In. eauto.
Qed.

(** The letter graph has at most one node per letter of the layout. *)
Lemma createLetterBoxGraph_nodeCount_le sides :
  Graph.nodeCount (createLetterBoxGraph sides) <= length (concat sides).
Proof.
  rewrite nodeCount_nodes, <- boxKeys_length.
  apply NoDup_incl_length;
    [apply createLetterBoxGraph_NoDup | apply createLetterBoxGraph_nodes_boxKeys].
Qed.

Lemma nonEmpty_sides : forall sides : list (list string),
  (1 <= length (filter (fun side => negb (isEmptySide side)) sides) ->
   exists j, nth j sides [] <> [])
  /\ (2 <= length (filter (fun side => negb (isEmptySide side)) sides) ->
      exists j1 j2, j1 <> j2 /\ nth j1 sides [] <> [] /\ nth j2 sides [] <> []).
Proof.
  induction sides as [|side sides [IH1 IH2]]; simpl.
  - split; intros H; lia.
  - destruct side as [|l side]; simpl.
    + split.
      * intros H. destruct (IH1 H) as [j Hj]. now exists (S j).
      * intros H. destruct (IH2 H) as [j1 [j2 [Hne [H1 H2]]]].
        exists (S j1), (S j2). repeat split; auto.
    + split.
      * intros _. exists 0. discriminate.
      * intros H. destruct IH1 as [j Hj]; [lia|].
        exists 0, (S j). repeat split; [discriminate | discriminate | exact Hj].
Qed.

Lemma twoSides_linked sides i :
  twoSides sides = true -> exists j, j <> i /\ nth j sides [] <> [].
Proof.
  unfold twoSides. intros H. apply Nat.leb_le in H.
  destruct (proj2 (nonEmpty_sides sides) H) as [j1 [j2 [Hne [H1 H2]]]].
  destruct (Nat.eq_dec j1 i) as [->|Hj]; [exists j2 | exists j1]; auto.
Qed.

Lemma boxKeys_NoDup sides : smallBox sides = true -> NoDup (boxKeys sides).
Proof.
  intros Hs. unfold boxKeys.
  assert (H : forall rows,
            NoDup rows -> (forall i, In i rows -> i < length sides) ->
            NoDup (flat_map (fun i =>
                               map (fun p => letterKey i p (nth p (nth i sides []) ""))
                                   (seq 0 (length (nth i sides [])))) rows)).
  { induction rows as [|i rows IH]; intros Hnd Hlt; simpl; [constructor|].
    inversion Hnd as [|? ? Hi Hrows]; subst.
    assert (Hb : forall p, p < length (nth i sides []) -> i < 10 /\ p < 10).
    { intros p Hp.
      apply (smallBox_bounds sides i p (nth p (nth i sides []) "") Hs).
      apply letterAt_nth; [apply Hlt; now left | exact Hp]. }
    apply NoDup_app.
    - apply NoDup_map_NoDup_ForallPairs; [|apply seq_NoDup].
      intros p q Hp Hq E. apply in_seq in Hp, Hq.
      destruct (Hb p) as [Hi10 Hp10]; [lia|]. destruct (Hb q) as [_ Hq10]; [lia|].
      now apply letterKey_inj in E.
    - apply IH; [exact Hrows | intros j Hj; apply Hlt; now right].
    - intros k Hk Hk'. apply in_map_iff in Hk. destruct Hk as [p [<- Hp]].
      apply in_flat_map in Hk'. destruct Hk' as [j [Hj Hk']].
      apply in_map_iff in Hk'. destruct Hk' as [q [E Hq]].
      apply in_seq in Hp, Hq.
      destruct (Hb p) as [Hi10 Hp10]; [lia|].
      assert (Hj10 : j < 10 /\ q < 10).
      { apply (smallBox_bounds sides j q (nth q (nth j sides []) "") Hs).
        apply letterAt_nth; [apply Hlt; now right | lia]. }
      apply letterKey_inj in E; try lia. destruct E as [-> _]. contradiction. }
  apply H; [apply seq_NoDup | intros i Hi; apply in_seq in Hi; lia].
Qed.

(** X15. The letter graph has at most one node per letter of the layout,
    and exactly one when the layout has at most ten sides of at most ten
    letters and two of its sides or more hold a letter. *)
Theorem createLetterBoxGraph_nodeCount sides :
  Graph.nodeCount (createLetterBoxGraph sides) <= length (concat sides)
  /\ (smallBox sides = true -> twoSides sides = true ->
      Graph.nodeCount (createLetterBoxGraph sides) = length (concat sides)).
Proof.
  split; [apply createLetterBoxGraph_nodeCount_le|].
  intros Hs Ht. apply Nat.le_antisymm; [apply createLetterBoxGraph_nodeCount_le|].
  rewrite nodeCount_nodes, <- boxKeys_length.
  apply NoDup_incl_length; [now apply boxKeys_NoDup|].
  intros k Hk. apply boxKeys_In in Hk. destruct Hk as [i [p [l [Hl ->]]]].
  apply createLetterBoxGraph_nodes. exists i, p, l. split; [|reflexivity].
  split; [exact Hl | now apply twoSides_linked].
Qed.

Lemma createLetterBoxGraph_nodeCount_witness :
  smallBox exampleBox = true /\ twoSides exampleBox = true
  /\ Graph.nodeCount (createLetterBoxGraph exampleBox) = 4.
Proof.
  split; [reflexivity|]. split; [reflexivity|].
  apply (proj2 (createLetterBoxGraph_nodeCount exampleBox)); reflexivity.
Defined.

(** ** The pipeline, continued *)

(** On a letter graph the Word Finder returns, given fuel for one more
    nested visit than the trie is deep. *)
Lemma findWords_total fuel trie graph :
  isLetterGraph graph = true ->
  TrieSearch.depth trie + 1 <= fuel ->
  exists words, findWords fuel trie graph = Some words.
Proof.
  intros Hg Hfuel. unfold findWords.
  destruct (forEachM_total (fun nodeKey words =>
                              match visitNode fuel nodeKey [] [] graph trie words with
                              | Some (_, _, words') => Some words'
                              | None => None
                              end)
              (fun _ => True) (Graph.nodes graph) []) as [r [Er _]];
    [exact I| |eauto].
  intros x ws Hx _.
  destruct (visitNode_total fuel x [] [] graph trie ws) as [[[p sp] ws'] Er];
    try assumption.
  - simpl. constructor; [assumption|constructor].
  - simpl. lia.
  - simpl. lia.
  - rewrite Er. eauto.
Qed.

(** X16. On a layout whose letters hold no dash, every solution the
    pipeline returns is a chain of dictionary entries, each spelled by the
    letters along a walk of the letter graph and each starting on the
    letter node the entry before it ends on. *)
Theorem solve_solutions_are_linked_entries fuel sides allWords sols :
  forallb (forallb dashFree) sides = true ->
  solve fuel sides allWords = Some (Return sols) ->
  Forall (fun s =>
            linkedChain (letterBoxWordList s) = true
            /\ Forall (fun w =>
                         In (word w) allWords
                         /\ word w = pathPrefix (createLetterBoxGraph sides) (nodeKeys w)
                         /\ isWalk (createLetterBoxGraph sides) (nodeKeys w) = true)
                      (letterBoxWordList s)) sols.
Proof.
  unfold solve. intros Hsides E.
  destruct (findWords fuel (createTrie allWords) (createLetterBoxGraph sides))
    as [words|] eqn:Ew; [|discriminate].
  pose proof (pipeline_keyedWords _ _ _ _ Hsides Ew) as Hk.
  apply findWords_found in Ew. rewrite Forall_forall in Ew.
  apply findSolutions_chainBelow in E.
  eapply Forall_impl; [|exact E].
  intros s [x [_ Hs]].
  destruct (chainBelow_linked _ x s Hk Hs) as [Hl Hin]. split; [exact Hl|].
  eapply Forall_impl; [|exact Hin].
  intros w Hw. apply filterWordsInLetterBox_In in Hw.
  destruct (Ew w Hw) as [y [_ [ext [Hkeys [Hword [Hisw Hwalk]]]]]].
  split; [now apply isWord_In|]. split; [exact Hword|].
  rewrite Hkeys. exact Hwalk.
Qed.

Lemma solve_solutions_are_linked_entries_witness :
  forallb (forallb dashFree) exampleBox = true
  /\ exists sols,
       solve 27 exampleBox exampleWords = Some (Return sols)
       /\ length sols = 2
       /\ Forall (fun s =>
                    linkedChain (letterBoxWordList s) = true
                    /\ Forall (fun w =>
                                 In (word w) exampleWords
                                 /\ word w = pathPrefix (createLetterBoxGraph exampleBox)
                                                        (nodeKeys w)
                                 /\ isWalk (createLetterBoxGraph exampleBox)
                                           (nodeKeys w) = true)
                              (letterBoxWordList s)) sols.
Proof.
  split; [reflexivity|].
  eexists. split; [vm_compute; reflexivity|]. split; [reflexivity|].
  apply (solve_solutions_are_linked_entries 27 exampleBox exampleWords);
    vm_compute; reflexivity.
Defined.

(** X17. On a layout of at most 25 letters the pipeline never throws and
    never runs out of fuel: with 27 units of fuel or more, and one more
    than the trie is deep, [solve] returns a list of solutions. *)
Theorem solve_returns fuel sides allWords :
  forallb (forallb isLetter) sides = true ->
  length (concat sides) <= 25 ->
  27 <= fuel -> TrieSearch.depth (createTrie allWords) + 1 <= fuel ->
  exists sols, solve fuel sides allWords = Some (Return sols).
Proof.
  intros Hsides Hlen Hfuel Hdepth. unfold solve.
  destruct (findWords_total fuel (createTrie allWords) (createLetterBoxGraph sides))
    as [words Ew]; [now apply createLetterBoxGraph_isLetterGraph | exact Hdepth |].
  rewrite Ew.
  destruct (forEachT_returns
              (exploreFrom fuel (createWordGraph (filterWordsInLetterBox words))
                           (Graph.nodeCount (createLetterBoxGraph sides)))
              (fun _ => True)
              (Graph.nodes (createWordGraph (filterWordsInLetterBox words))) [])
    as [r [Er _]]; [exact I| |exists r; exact Er].
  intros x sols Hx _. unfold exploreFrom.
  pose proof (createLetterBoxGraph_nodeCount_le sides) as Hcount.
  destruct (exploreWordGraph_returns (createLetterBoxGraph sides)
              (createWordGraph (filterWordsInLetterBox words))
              (Graph.nodeCount (createLetterBoxGraph sides))
              (createWordGraph_allLabelled _) (pipeline_onBox _ _ _ _ Ew)
              ltac:(lia) fuel x [] [] sols [] Hx eq_refl eq_refl)
    as [sp [sols' ->]]; [lia | simpl; lia |]. eauto.
Qed.

Lemma solve_returns_witness :
  forallb (forallb isLetter) exampleBox = true
  /\ length (concat exampleBox) <= 25
  /\ TrieSearch.depth (createTrie exampleWords) + 1 <= 27
  /\ exists sols, solve 27 exampleBox exampleWords = Some (Return sols).
Proof.
  split; [reflexivity|]. split; [simpl; lia|]. split; [vm_compute; lia|].
  apply (solve_returns 27 exampleBox exampleWords);
    [reflexivity | simpl; lia | lia | vm_compute; lia].
Defined.

(** ** Solutions are recorded once *)

Lemma node_nodes {L} (g : Graph.Graph L) u (l : L) :
  Graph.node g u = Some l -> In u (Graph.nodes g).
Proof.
  unfold Graph.node, Graph.nodes, JsMap.keys. intros E.
  destruct (JsMap.get u (Graph.nodeLabels g)) as [o|] eqn:Eg; [|discriminate].
  apply JsMap_get_In in Eg. now apply (in_map fst) in Eg.
Qed.

Lemma createWordGraph_selfKeyed words : selfKeyed (createWordGraph words).
Proof.
  intros u W E.
  destruct (createWordGraph_keyed words u (node_nodes _ _ _ E)) as [W' [E' [_ Hk]]].
  rewrite E in E'. now inversion E'; subst.
Qed.

Lemma allDefined_selfKeyed g :
  selfKeyed g ->
  forall keys ws,
    allDefined (map (fun key => Graph.node g key) keys) = Some ws ->
    map wordKey ws = keys.
Proof.
  intros Hg. induction keys as [|k keys IH]; intros ws E.
  - simpl in E. now inversion E.
  - rewrite allDefined_map_cons in E.
    destruct (Graph.node g k) as [W|] eqn:Ek; [|discriminate].
    destruct (allDefined (map (fun key => Graph.node g key) keys)) as [ws'|];
      [|discriminate].
    inversion E. simpl. now rewrite (Hg k W Ek), (IH ws' eq_refl).
Qed.

(** An exploration records the key of every chain it turns into a
    solution, and turns no chain into a solution whose key it had already
    recorded. *)
Lemma exploreWordGraph_fresh graph minNumNodes :
  selfKeyed graph ->
  forall fuel nodeKey path seenPaths solutions path' seenPaths' solutions',
    exploreWordGraph fuel nodeKey path graph seenPaths minNumNodes solutions
      = Some (Return (path', seenPaths', solutions')) ->
    incl seenPaths seenPaths'
    /\ exists new, solutions' = solutions ++ new
                   /\ NoDup (map chainKeyOf new)
                   /\ forall s, In s new ->
                        In (chainKeyOf s) seenPaths' /\ ~ In (chainKeyOf s) seenPaths.
Proof.
  intros Hg.
  induction fuel as [|fuel IH]; intros nodeKey path seenPaths solutions
    path' seenPaths' solutions' E; simpl in E; [discriminate|].
  assert (Hnone : incl seenPaths seenPaths
                  /\ exists new, solutions = solutions ++ new
                       /\ NoDup (map chainKeyOf new)
                       /\ forall s, In s new ->
                            In (chainKeyOf s) seenPaths /\ ~ In (chainKeyOf s) seenPaths).
  { split; [apply incl_refl|]. exists []. rewrite app_nil_r.
    split; [reflexivity|]. split; [constructor | intros s []]. }
  destruct (25 <? length path); [discriminate|].
  destruct (Graph.node graph nodeKey) as [nodeWord|] eqn:Enode; [|discriminate].
  destruct (allDefined (map (fun key => Graph.node graph key) path))
    as [seenWords|] eqn:Eseen; [|discriminate].
  assert (Ewords : allDefined (map (fun key => Graph.node graph key) (path ++ [nodeKey]))
                   = Some (seenWords ++ [nodeWord])).
  { rewrite map_app, allDefined_app, Eseen. simpl. now rewrite Enode. }
  apply (allDefined_selfKeyed graph Hg) in Ewords.
  destruct (hasNewNode nodeWord seenWords); simpl in E.
  2:{ inversion E; subst. exact Hnone. }
  destruct (JsSet.has (join "" (path ++ [nodeKey])) seenPaths) eqn:Hseen.
  { inversion E; subst. exact Hnone. }
  clear Hnone. apply has_not_In in Hseen.
  set (seen1 := JsSet.add (join "" (path ++ [nodeKey])) seenPaths) in E.
  assert (Hseen1 : incl seenPaths seen1) by apply add_incl.
  destruct (minNumNodes <=? JsSet.size (letterNodesOf (seenWords ++ [nodeWord]))).
  - inversion E; subst. split; [exact Hseen1|].
    eexists. split; [reflexivity|]. split.
    + simpl. constructor; [intros [] | constructor].
    + intros s [<-|[]]. unfold chainKeyOf. simpl. rewrite Ewords.
      split; [apply add_In; now left | exact Hseen].
  - match type of E with
    | match ?loop with _ => _ end = _ => destruct loop as [[[[p sp] sols]|e]|] eqn:Eloop
    end; try discriminate.
    inversion E; subst. clear E.
    pose (I := fun st : list string * list string * list LetterBoxSolution =>
                 incl seen1 (snd (fst st))
                 /\ exists new, snd st = solutions ++ new
                      /\ NoDup (map chainKeyOf new)
                      /\ forall s, In s new ->
                           In (chainKeyOf s) (snd (fst st))
                           /\ ~ In (chainKeyOf s) seenPaths).
    assert (HI : I (p, seenPaths', solutions')).
    { eapply (forEachT_inv _ I); [| |exact Eloop].
      - split; [apply incl_refl|]. exists []. simpl. rewrite app_nil_r.
        split; [reflexivity|]. split; [constructor | intros s []].
      - intros x [[p0 sp0] sols0] [[p1 sp1] sols1] _ [Hsp [new [Hs [Hnd Hnew]]]] Eb.
        simpl in Hsp, Hs, Hnew. subst sols0.
        apply IH in Eb. destruct Eb as [Hsub [new2 [-> [Hnd2 Hnew2]]]].
        split; [simpl; now apply incl_tran with (m := sp0)|].
        exists (new ++ new2). simpl. split; [now rewrite app_assoc|]. split.
        + rewrite map_app. apply NoDup_app; try assumption.
          intros k Hk Hk2. apply in_map_iff in Hk, Hk2.
          destruct Hk as [s [<- Hs]], Hk2 as [s2 [Ek Hs2]].
          destruct (Hnew s Hs) as [Hin _]. destruct (Hnew2 s2 Hs2) as [_ Hout].
          rewrite Ek in Hout. contradiction.
        + intros s Hs. apply in_app_or in Hs. destruct Hs as [Hs|Hs].
          * destruct (Hnew s Hs). split; [now apply Hsub | assumption].
          * destruct (Hnew2 s Hs) as [Hin Hout]. split; [exact Hin|].
            intros Hc. apply Hout, Hsp, Hseen1, Hc. }
    destruct HI as [Hsp Hnew]. simpl in Hsp, Hnew.
    split; [now apply incl_tran with (m := seen1) | exact Hnew].
Qed.

(** From distinct start nodes the Solution Search gathers distinct
    chains. *)
Lemma findSolutions_distinct fuel graph minNumNodes :
  selfKeyed graph ->
  forall nodes sols0 sols,
    NoDup nodes ->
    forEachT (exploreFrom fuel graph minNumNodes) nodes sols0 = Some (Return sols) ->
    exists new, sols = sols0 ++ new
                /\ NoDup (map letterBoxWordList new)
                /\ forall s, In s new ->
                     exists x, In x nodes
                               /\ hd_error (map wordKey (letterBoxWordList s)) = Some x.
Proof.
  intros Hg. induction nodes as [|x nodes IH]; intros sols0 sols Hnd E; simpl in E.
  - inversion E; subst. exists []. rewrite app_nil_r.
    split; [reflexivity|]. split; [constructor | intros s []].
  - unfold exploreFrom at 1 in E.
    destruct (exploreWordGraph fuel x [] graph [] minNumNodes sols0)
      as [[[[p sp] sols1]|e]|] eqn:Ex; try discriminate.
    inversion Hnd as [|? ? Hx Hnodes]; subst.
    destruct (IH _ _ Hnodes E) as [new2 [-> [Hnd2 Hhd2]]].
    destruct (exploreWordGraph_chain _ _ _ _ _ _ _ _ _ _ Ex) as [new1 [E1 Hch]].
    { intros ws Ews. simpl in Ews. inversion Ews. reflexivity. }
    destruct (exploreWordGraph_fresh graph minNumNodes Hg _ _ _ _ _ _ _ _ Ex)
      as [_ [new1' [E1' [Hnd1 _]]]].
    assert (new1' = new1) by (rewrite E1 in E1'; now apply app_inv_head in E1').
    subst new1' sols1.
    assert (Hhd1 : forall s, In s new1 ->
              hd_error (map wordKey (letterBoxWordList s)) = Some x).
    { intros s Hs. rewrite Forall_forall in Hch.
      destruct (Hch s Hs) as [ext [Hd _]]. cbn [app] in Hd.
      now rewrite (allDefined_selfKeyed graph Hg _ _ Hd). }
    exists (new1 ++ new2). split; [now rewrite app_assoc|]. split.
    + rewrite map_app. apply NoDup_app.
      * apply (NoDup_map_compose letterBoxWordList
                 (fun chain => join "" (map wordKey chain))). exact Hnd1.
      * exact Hnd2.
      * intros ch Hk1 Hk2. apply in_map_iff in Hk1, Hk2.
        destruct Hk1 as [s1 [<- Hs1]], Hk2 as [s2 [Ek Hs2]].
        destruct (Hhd2 s2 Hs2) as [y [Hy H2]].
        rewrite Ek, (Hhd1 s1 Hs1) in H2. inversion H2; subst. contradiction.
    + intros s Hs. apply in_app_or in Hs. destruct Hs as [Hs|Hs].
      * exists x. split; [now left | now apply Hhd1].
      * destruct (Hhd2 s Hs) as [y [Hy H2]]. exists y. split; [now right | exact H2].
Qed.

(** X18. On the word graph the Word Graph Builder makes, a returning
    Solution Search records no chain of words twice. *)
Theorem createWordGraph_solutions_distinct fuel words minNumNodes sols :
  findSolutions fuel (createWordGraph words) minNumNodes = Some (Return sols) ->
  NoDup (map letterBoxWordList sols).
Proof.
  unfold findSolutions. intros E.
  destruct (findSolutions_distinct fuel (createWordGraph words) minNumNodes
              (createWordGraph_selfKeyed words) _ _ _
              (createWordGraph_NoDup words) E) as [new [-> [Hnd _]]].
  exact Hnd.
Qed.

Lemma createWordGraph_solutions_distinct_witness :
  exists sols,
    findSolutions 27 exampleWordGraph 4 = Some (Return sols)
    /\ length sols = 2
    /\ NoDup (map letterBoxWordList sols).
Proof.
  eexists. split; [vm_compute; reflexivity|]. split; [reflexivity|].
  apply (createWordGraph_solutions_distinct 27
           (filterWordsInLetterBox
              (orEmpty (findWords 5 (createTrie exampleWords)
                                  (createLetterBoxGraph exampleBox)))) 4).
  vm_compute. reflexivity.
Defined.

(** ** Word Finder: every word of the box is found *)

Lemma allChars_app p s t :
  allChars p (s ++ t)%string = allChars p s && allChars p t.
Proof.
  induction s as [|c s IH]; simpl; [reflexivity|]. now rewrite IH, andb_assoc.
Qed.

Lemma spaceFree_append s t : spaceFree (s ++ String " " t)%string = false.
Proof.
  unfold spaceFree. rewrite allChars_app. simpl. apply andb_false_r.
Qed.

Lemma split_at_space : forall s1 t1 s2 t2,
  spaceFree s1 = true -> spaceFree s2 = true ->
  (s1 ++ String " " t1)%string = (s2 ++ String " " t2)%string ->
  s1 = s2 /\ t1 = t2.
Proof.
  unfold spaceFree.
  induction s1 as [|c s1 IH]; intros t1 [|c2 s2] t2 H1 H2 E; simpl in *.
  - inversion E. auto.
  - inversion E; subst. simpl in H2. discriminate.
  - inversion E; subst. simpl in H1. discriminate.
  - inversion E; subst. apply andb_true_iff in H1, H2.
    destruct H1 as [_ H1], H2 as [_ H2].
    destruct (IH _ _ _ H1 H2 H3) as [-> ->]. auto.
Qed.

Lemma join_space_cons x y l :
  join " " (x :: y :: l) = (x ++ String " " (join " " (y :: l)))%string.
Proof. reflexivity. Qed.

(** Space-free keys can be read back from the key of a path. *)
Lemma join_space_inj : forall l1 l2,
  l1 <> [] -> l2 <> [] ->
  forallb spaceFree l1 = true -> forallb spaceFree l2 = true ->
  join " " l1 = join " " l2 -> l1 = l2.
Proof.
  induction l1 as [|x l1 IH]; intros l2 Hn1 Hn2 H1 H2 E; [congruence|].
  destruct l2 as [|y l2]; [congruence|].
  simpl in H1, H2. apply andb_true_iff in H1, H2.
  destruct H1 as [Hx H1], H2 as [Hy H2].
  destruct l1 as [|x2 l1], l2 as [|y2 l2].
  - simpl in E. congruence.
  - rewrite join_space_cons in E. change (join " " [x]) with x in E. subst x.
    rewrite spaceFree_append in Hx. discriminate.
  - rewrite join_space_cons in E. change (join " " [y]) with y in E. subst y.
    rewrite spaceFree_append in Hy. discriminate.
  - rewrite !join_space_cons in E.
    destruct (split_at_space _ _ _ _ Hx Hy E) as [-> E'].
    f_equal. apply IH; try assumption; discriminate.
Qed.

(** An entry of a normalized dictionary passes the complete-word test when
    it has 3 characters or more. *)
Lemma isWord_of_entry words s :
  normalized words = true -> 3 <= String.length s -> In s words ->
  isWord s (createTrie words) = true.
Proof.
  intros Hn Hlen Hin. unfold isWord.
  assert (Hlow : isLowerWord s = true).
  { unfold normalized in Hn. rewrite forallb_forall in Hn. now apply Hn. }
  apply Nat.ltb_ge in Hlen. rewrite Hlen.
  unfold isLowerWord in Hlow. apply andb_true_iff in Hlow.
  destruct Hlow as [Hne Hchars]. apply negb_true_iff, String.eqb_neq in Hne.
  destruct (allLower_facts s Hchars) as [Hlc Hsp].
  rewrite (search_no_space _ _ Hsp Hne), Hlc.
  destruct (createTrie_valueAt words Hn) as [Hat Hstored].
  specialize (Hstored s Hin). unfold valueAt in Hstored, Hat.
  destruct (TrieSearch.findNode s (createTrie words)) as [[val cs]|] eqn:En;
    [|destruct Hstored].
  simpl in Hstored. rewrite aggregate_eq.
  destruct val as [|x0 val]; [destruct Hstored|].
  assert (Hx0 : TriNode.word x0 = s).
  { apply Hat. rewrite En. now left. }
  simpl app.
  destruct (haAddAll_first x0 (val ++ flat_map (fun p => TrieSearch.aggregate (snd p)) cs))
    as [t1 ->].
  destruct (haAddAll_first x0 t1) as [t2 ->].
  simpl. rewrite Hx0. apply String.eqb_refl.
Qed.

(** A non-empty start of an entry of a normalized dictionary passes the
    prefix test. *)
Lemma isPrefix_of_entry words s r :
  normalized words = true -> s <> "" -> In (s ++ r)%string words ->
  isPrefix s (createTrie words) = true.
Proof.
  intros Hn Hne Hin.
  assert (Hlow : isLowerWord (s ++ r) = true).
  { unfold normalized in Hn. rewrite forallb_forall in Hn. now apply Hn. }
  unfold isLowerWord in Hlow. apply andb_true_iff in Hlow.
  destruct Hlow as [_ Hchars]. rewrite allChars_app in Hchars.
  apply andb_true_iff in Hchars. destruct Hchars as [Hs _].
  destruct (allLower_facts s Hs) as [Hlc Hsp].
  unfold isPrefix. rewrite (search_no_space _ _ Hsp Hne), Hlc.
  destruct (createTrie_valueAt words Hn) as [_ Hstored].
  specialize (Hstored _ Hin). unfold valueAt in Hstored.
  destruct (TrieSearch.findNode (s ++ r) (createTrie words)) as [n'|] eqn:En';
    [|destruct Hstored].
  apply findNode_app_inv in En'. destruct En' as [n [En Er]]. rewrite En.
  assert (Hx : In (TriNode.mk (s ++ r)) (TrieSearch.aggregate n)).
  { eapply findNode_aggregate; [exact Er|]. now apply value_aggregate. }
  destruct (TrieSearch.aggregate n) as [|x l]; [destruct Hx|].
  destruct (haAddAll_first x l) as [t1 ->].
  destruct (haAddAll_first x t1) as [t2 ->]. reflexivity.
Qed.

(** [neighbors] enumerates, once each, the nodes joined to a node. *)
Lemma adjacent_neighbors {L} (g : Graph.Graph L) u v :
  In u (Graph.nodes g) -> adjacent g u v = true ->
  In v (orEmpty (Graph.neighbors g u)).
Proof.
  intros Hu Hadj. apply hasNode_nodes in Hu. apply adjacent_iff in Hadj.
  unfold Graph.neighbors, Graph.predecessors, Graph.successors. rewrite Hu. simpl.
  apply addAll_In. destruct Hadj as [H|H].
  - left. apply in_map_iff. exists (u, v). split; [reflexivity|].
    apply filter_In. split; [exact H | apply String.eqb_refl].
  - right. apply (proj2 (of_list_In _ _)). apply in_map_iff. exists (v, u).
    split; [reflexivity|]. apply filter_In. split; [exact H | apply String.eqb_refl].
Qed.

Lemma neighbors_NoDup {L} (g : Graph.Graph L) u :
  NoDup (orEmpty (Graph.neighbors g u)).
Proof.
  unfold Graph.neighbors. destruct (Graph.predecessors g u); simpl; [|constructor].
  apply addAll_NoDup, of_list_NoDup.
Qed.

Section VisitComplete.
Variable graph : Graph.Graph string.
Variable trie : TrieSearch.node.
Hypothesis graph_closed : edgesClosed graph = true.
Hypothesis graph_keys : forall k, In k (Graph.nodes graph) -> spaceFree k = true.

Lemma neighbors_nodes u v :
  In u (Graph.nodes graph) -> In v (orEmpty (Graph.neighbors graph u)) ->
  In v (Graph.nodes graph).
Proof.
  intros Hu Hv. apply neighbors_adjacent in Hv.
  now apply (edgesClosed_adjacent graph u v graph_closed).
Qed.

(** A visit entered on a node sequence of which no extension was recorded
    finds every word it is led to, and records only extensions of that
    sequence. *)
Lemma visitNode_complete : forall fuel nodeKey path seenPaths words
    path' seenPaths' words',
  visitNode fuel nodeKey path seenPaths graph trie words
    = Some (path', seenPaths', words') ->
  In nodeKey (Graph.nodes graph) ->
  forallb spaceFree path = true ->
  freshBelow seenPaths (path ++ [nodeKey]) ->
  incl words words'
  /\ seenBelow seenPaths seenPaths' (path ++ [nodeKey])
  /\ forall ext, explorable graph trie path nodeKey ext = true ->
       In {| word := pathPrefix graph (path ++ nodeKey :: ext);
             nodeKeys := path ++ nodeKey :: ext |} words'.
Proof.
  induction fuel as [|fuel IH]; intros nodeKey path seenPaths words
    path' seenPaths' words' E Hnode Hpath Hfresh; simpl in E; [discriminate|].
  assert (HP : forallb spaceFree (path ++ [nodeKey]) = true).
  { rewrite forallb_app, Hpath. simpl. now rewrite (graph_keys _ Hnode). }
  assert (HPne : path ++ [nodeKey] <> []) by (now destruct path).
  destruct (JsSet.has (join " " (path ++ [nodeKey])) seenPaths) eqn:Hseen.
  { exfalso. apply has_In in Hseen.
    apply (Hfresh _ Hseen HPne HP []). now rewrite app_nil_r. }
  clear Hseen.
  set (seen1 := JsSet.add (join " " (path ++ [nodeKey])) seenPaths) in E.
  set (words1 := if isWord (pathPrefix graph (path ++ [nodeKey])) trie
                 then words ++ [{| word := pathPrefix graph (path ++ [nodeKey]);
                                  nodeKeys := path ++ [nodeKey] |}]
                 else words) in E.
  assert (Hw1 : incl words words1).
  { unfold words1. destruct (isWord _ trie); [apply incl_appl|]; apply incl_refl. }
  assert (Hw1' : isWord (pathPrefix graph (path ++ [nodeKey])) trie = true ->
                 In {| word := pathPrefix graph (path ++ [nodeKey]);
                       nodeKeys := path ++ [nodeKey] |} words1).
  { unfold words1. intros ->. apply in_or_app. right. now left. }
  assert (Hs1 : forall k, In k seen1 ->
                  In k seenPaths \/ k = join " " (path ++ [nodeKey])).
  { intros k Hk. apply add_In in Hk. tauto. }
  clearbody seen1 words1.
  destruct (isPrefix (pathPrefix graph (path ++ [nodeKey])) trie) eqn:Hpre.
  2:{ inversion E; subst. split; [exact Hw1|]. split.
      - intros k Hk. destruct (Hs1 k Hk) as [H| ->]; [now left|].
        right. exists []. now rewrite app_nil_r.
      - intros [|v ext] Hx; simpl in Hx; [now apply Hw1'|].
        rewrite Hpre in Hx. discriminate. }
  match type of E with
  | match ?loop with _ => _ end = _ => destruct loop as [[[p sp] ws]|] eqn:Eloop
  end; [|discriminate].
  inversion E; subst. clear E.
  pose (Inv := fun (done : list string) (sp0 : list string) (ws0 : list LetterBoxWord) =>
    incl words1 ws0
    /\ (forall k, In k sp0 ->
          In k seenPaths \/ k = join " " (path ++ [nodeKey])
          \/ exists v ext, In v done
               /\ k = join " " ((path ++ [nodeKey]) ++ v :: ext)
               /\ forallb spaceFree ext = true)
    /\ (forall v ext, In v done ->
          explorable graph trie (path ++ [nodeKey]) v ext = true ->
          In {| word := pathPrefix graph ((path ++ [nodeKey]) ++ v :: ext);
                nodeKeys := (path ++ [nodeKey]) ++ v :: ext |} ws0)).
  assert (Hloop : forall nbs done sp0 ws0 p1 sp1 ws1,
            NoDup (done ++ nbs) ->
            (forall x, In x (done ++ nbs) -> In x (Graph.nodes graph)) ->
            forEachM
              (fun neighborKey '(path, seenPaths, words) =>
                 visitNode fuel neighborKey path seenPaths graph trie words)
              nbs (path ++ [nodeKey], sp0, ws0) = Some (p1, sp1, ws1) ->
            Inv done sp0 ws0 -> Inv (done ++ nbs) sp1 ws1).
  { induction nbs as [|x nbs IHn]; intros done sp0 ws0 p1 sp1 ws1 Hnd Hnodes El HI.
    - simpl in El. inversion El; subst. now rewrite app_nil_r.
    - simpl in El.
      destruct (visitNode fuel x (path ++ [nodeKey]) sp0 graph trie ws0)
        as [[[p2 sp2] ws2]|] eqn:Ev; [|discriminate].
      pose proof (visitNode_sound _ _ _ _ _ _ _ _ _ _ Ev) as [-> _].
      destruct HI as [HIw [HIk HIf]].
      assert (Hx : In x (Graph.nodes graph)).
      { apply Hnodes. apply in_or_app. right. now left. }
      assert (Hxd : ~ In x done).
      { intros Hin. apply NoDup_remove_2 in Hnd. apply Hnd.
        apply in_or_app. now left. }
      destruct (IH _ _ _ _ _ _ _ Ev Hx HP) as [Hinc [Hbelow Hfound]].
      { intros q Hq Hqne Hqsf r Eq.
        destruct (HIk _ Hq) as [Hin|[Ej|[v [ext [Hv [Ej Hext]]]]]].
        - apply (Hfresh q Hin Hqne Hqsf ([x] ++ r)).
          now rewrite Eq, <- app_assoc.
        - apply join_space_inj in Ej; try assumption. rewrite Ej in Eq.
          apply (f_equal (@length string)) in Eq.
          rewrite !length_app in Eq. simpl in Eq. lia.
        - apply join_space_inj in Ej; try assumption.
          + rewrite Ej in Eq.
            rewrite <- (app_assoc (path ++ [nodeKey]) [x] r) in Eq.
            apply app_inv_head in Eq.
            simpl in Eq. inversion Eq; subst. contradiction.
          + now destruct (path ++ [nodeKey]).
          + rewrite forallb_app, HP. simpl. rewrite Hext, andb_true_r.
            apply graph_keys, Hnodes. apply in_or_app. now left. }
      replace (done ++ x :: nbs) with ((done ++ [x]) ++ nbs)
        by (now rewrite <- app_assoc).
      apply (IHn (done ++ [x]) sp2 ws2 p1 sp1 ws1).
      + now rewrite <- app_assoc.
      + intros y Hy. apply Hnodes. now rewrite <- app_assoc in Hy.
      + exact El.
      + split; [eapply incl_tran; eassumption|]. split.
        * intros k Hk. destruct (Hbelow k Hk) as [Hin|[ext [-> Hext]]].
          -- destruct (HIk k Hin) as [H|[H|[v [ext [Hv H]]]]]; auto.
             right. right. exists v, ext. split; [|exact H].
             apply in_or_app. now left.
          -- right. right. exists x, ext. split; [apply in_or_app; right; now left|].
             split; [now rewrite <- app_assoc | exact Hext].
        * intros v ext Hv Hex. apply in_app_or in Hv. destruct Hv as [Hv|[<-|[]]].
          -- apply Hinc. now apply HIf.
          -- now apply Hfound. }
  assert (HI : Inv ([] ++ orEmpty (Graph.neighbors graph nodeKey)) seenPaths' words').
  { apply (Hloop _ [] seen1 words1 p seenPaths' words').
    - apply neighbors_NoDup.
    - intros x Hx. now apply (neighbors_nodes nodeKey).
    - exact Eloop.
    - split; [apply incl_refl|]. split.
      + intros k Hk. destruct (Hs1 k Hk); auto.
      + intros v ext []. }
  simpl in HI. destruct HI as [HIw [HIk HIf]].
  split; [eapply incl_tran; eassumption|]. split.
  - intros k Hk. destruct (HIk k Hk) as [H|[->|[v [ext [Hv [-> Hext]]]]]].
    + now left.
    + right. exists []. now rewrite app_nil_r.
    + right. exists (v :: ext). split; [reflexivity|]. simpl.
      rewrite Hext, andb_true_r. apply graph_keys.
      now apply (neighbors_nodes nodeKey).
  - intros [|v ext] Hx; simpl in Hx.
    + apply HIw. now apply Hw1'.
    + apply andb_true_iff in Hx. destruct Hx as [Hx Hex].
      apply andb_true_iff in Hx. destruct Hx as [_ Hadj].
      replace (path ++ nodeKey :: v :: ext) with ((path ++ [nodeKey]) ++ v :: ext)
        by (now rewrite <- app_assoc).
      apply HIf; [|exact Hex]. now apply adjacent_neighbors.
Qed.

(** The Word Finder finds every word a visit from one of its start nodes is
    led to. *)
Lemma findWords_explores fuel : forall nodes words0 words,
  (forall x, In x nodes -> In x (Graph.nodes graph)) ->
  forEachM
    (fun node words =>
       match visitNode fuel node [] [] graph trie words with
       | Some (_, _, words) => Some words
       | None => None
       end) nodes words0 = Some words ->
  incl words0 words
  /\ forall x ext, In x nodes -> explorable graph trie [] x ext = true ->
       In {| word := pathPrefix graph (x :: ext); nodeKeys := x :: ext |} words.
Proof.
  induction nodes as [|y nodes IH]; intros words0 words Hnodes E; simpl in E.
  - inversion E; subst. split; [apply incl_refl | intros x ext []].
  - destruct (visitNode fuel y [] [] graph trie words0) as [[[p sp] ws1]|] eqn:Ev;
      [|discriminate].
    destruct (IH _ _ (fun x Hx => Hnodes x (or_intror Hx)) E) as [Hinc Hfound].
    destruct (visitNode_complete _ _ _ _ _ _ _ _ Ev (Hnodes y (or_introl eq_refl))
                eq_refl) as [Hinc1 [_ Hfound1]].
    { intros q []. }
    split; [eapply incl_tran; eassumption|].
    intros x ext [<-|Hx] Hex; [|now apply Hfound].
    apply Hinc. now apply (Hfound1 ext).
Qed.
End VisitComplete.

Lemma pathPrefix_app g l1 l2 :
  pathPrefix g (l1 ++ l2) = (pathPrefix g l1 ++ pathPrefix g l2)%string.
Proof.
  unfold pathPrefix. induction l1 as [|k l1 IH]; simpl map; [reflexivity|].
  rewrite !join_empty_cons, IH. now rewrite append_assoc.
Qed.

(** Over a normalized dictionary, the visit is led to every node sequence
    of 3 nodes or more that walks the letter graph and spells an entry. *)
Lemma explorable_entry allWords g :
  normalized allWords = true -> isLetterGraph g = true ->
  forall ext path nodeKey,
    Forall (fun k => In k (Graph.nodes g)) (path ++ [nodeKey]) ->
    walkFrom g nodeKey ext = true ->
    3 <= length (path ++ nodeKey :: ext) ->
    In (pathPrefix g (path ++ nodeKey :: ext)) allWords ->
    explorable g (createTrie allWords) path nodeKey ext = true.
Proof.
  intros Hn Hg. induction ext as [|v ext IH]; intros path nodeKey HP Hwalk Hlen Hin.
  - simpl. apply isWord_of_entry; try assumption.
    now rewrite (proj1 (pathPrefix_letters g _ Hg HP)).
  - simpl in Hwalk. apply andb_true_iff in Hwalk. destruct Hwalk as [Hadj Hwalk].
    replace (path ++ nodeKey :: v :: ext) with ((path ++ [nodeKey]) ++ v :: ext)
      in Hlen, Hin by (now rewrite <- app_assoc).
    simpl. rewrite Hadj, andb_true_r. apply andb_true_iff. split.
    + rewrite pathPrefix_app in Hin.
      apply (isPrefix_of_entry allWords (pathPrefix g (path ++ [nodeKey]))
               (pathPrefix g (v :: ext)) Hn); [|exact Hin].
      intros E. apply (f_equal String.length) in E.
      rewrite (proj1 (pathPrefix_letters g _ Hg HP)), length_app in E.
      simpl in E. lia.
    + apply IH; try assumption.
      apply Forall_app. split; [exact HP|]. constructor; [|constructor].
      now apply (letterGraph_adjacent g nodeKey v).
Qed.

Lemma string_of_uint_spaceFree d : spaceFree (NilEmpty.string_of_uint d) = true.
Proof. induction d; simpl; auto. Qed.

Lemma isLetter_spaceFree l : isLetter l = true -> spaceFree l = true.
Proof.
  destruct l as [|c [|d l]]; simpl; try discriminate.
  intros E. apply negb_true_iff in E. unfold spaceFree. simpl.
  destruct (Ascii.eqb_spec c " ") as [->|_]; [discriminate E | reflexivity].
Qed.

Lemma spaceFree_app s t : spaceFree (s ++ t)%string = spaceFree s && spaceFree t.
Proof. apply allChars_app. Qed.

Lemma letterKey_spaceFree i p l :
  spaceFree l = true -> spaceFree (letterKey i p l) = true.
Proof.
  intros Hl. unfold letterKey, string_of_nat.
  rewrite !spaceFree_app, !string_of_uint_spaceFree. simpl. exact Hl.
Qed.

(** The node keys of the graph of a layout of letters hold no space. *)
Lemma createLetterBoxGraph_spaceFree sides k :
  forallb (forallb isLetter) sides = true ->
  In k (Graph.nodes (createLetterBoxGraph sides)) -> spaceFree k = true.
Proof.
  intros Hsides Hk.
  destruct (createLetterBoxGraph_labelled sides k Hk) as [i [p [l [Hl [-> _]]]]].
  apply letterKey_spaceFree, isLetter_spaceFree. unfold letterAt in Hl.
  destruct (nth_error sides i) as [side|] eqn:Es; [|discriminate].
  apply nth_error_In in Es, Hl.
  rewrite forallb_forall in Hsides. specialize (Hsides side Es).
  rewrite forallb_forall in Hsides. now apply Hsides.
Qed.

(** X19. On a layout of letters and a normalized dictionary, the Word
    Finder misses nothing: for every sequence of 3 node keys or more that
    walks the letter graph and whose letters spell an entry of the
    dictionary, the words it returns hold that entry with that node
    sequence. *)
Theorem findWords_complete fuel allWords sides words keys :
  normalized allWords = true ->
  forallb (forallb isLetter) sides = true ->
  findWords fuel (createTrie allWords) (createLetterBoxGraph sides) = Some words ->
  isWalk (createLetterBoxGraph sides) keys = true ->
  3 <= length keys ->
  In (pathPrefix (createLetterBoxGraph sides) keys) allWords ->
  In {| word := pathPrefix (createLetterBoxGraph sides) keys; nodeKeys := keys |}
     words.
Proof.
  intros Hn Hsides E Hwalk Hlen Hin.
  pose proof (createLetterBoxGraph_isLetterGraph sides Hsides) as Hg.
  destruct keys as [|x [|y ext]]; simpl in Hlen; try lia.
  assert (Hx : In x (Graph.nodes (createLetterBoxGraph sides))).
  { simpl in Hwalk. apply andb_true_iff in Hwalk. destruct Hwalk as [Hadj _].
    now apply (letterGraph_adjacent _ x y Hg). }
  unfold findWords in E.
  destruct (findWords_explores (createLetterBoxGraph sides) (createTrie allWords)
              (createLetterBoxGraph_edgesClosed sides)
              (fun k => createLetterBoxGraph_spaceFree sides k Hsides)
              fuel _ _ _ (fun x H => H) E) as [_ Hfound].
  apply (Hfound x (y :: ext) Hx).
  apply (explorable_entry allWords _ Hn Hg (y :: ext) [] x); try assumption.
  constructor; [exact Hx | constructor].
Qed.

Lemma findWords_complete_witness :
  normalized exampleWords = true
  /\ forallb (forallb isLetter) exampleBox = true
  /\ isWalk (createLetterBoxGraph exampleBox) ["01:c"; "11:d"; "00:a"] = true
  /\ In (pathPrefix (createLetterBoxGraph exampleBox) ["01:c"; "11:d"; "00:a"])
        exampleWords
  /\ exists words,
       findWords 5 (createTrie exampleWords) (createLetterBoxGraph exampleBox)
       = Some words
       /\ In {| word := "cda"; nodeKeys := ["01:c"; "11:d"; "00:a"] |} words.
Proof.
  split; [reflexivity|]. split; [reflexivity|]. split; [vm_compute; reflexivity|].
  split; [vm_compute; auto|].
  eexists. split; [vm_compute; reflexivity|].
  apply (findWords_complete 5 exampleWords exampleBox _ ["01:c"; "11:d"; "00:a"]);
    [reflexivity | reflexivity | vm_compute; reflexivity | vm_compute; reflexivity
     | simpl; lia | vm_compute; auto].
Defined.

(** ** Solution Search: every minimal growing chain is recorded *)

Lemma append_inj_length : forall s s' t t',
  String.length s = String.length s' ->
  (s ++ t)%string = (s' ++ t')%string -> s = s' /\ t = t'.
Proof.
  induction s as [|c s IH]; intros [|c' s'] t t' Hlen E; simpl in *;
    try discriminate; [auto|].
  inversion E; subst. inversion Hlen as [Hl].
  destruct (IH _ _ _ Hl H1) as [-> ->]. auto.
Qed.

(** The key of a chain: the keys of its words, one after the other. *)
Lemma chainKey_cons k w rest :
  join "" (map (join "->") ((k :: w) :: rest)) =
  (k ++ match w with
        | [] => join "" (map (join "->") rest)
        | _ :: _ => String "-" (String ">" (join "" (map (join "->") (w :: rest))))
        end)%string.
Proof.
  cbn [map]. rewrite join_empty_cons. destruct w as [|k2 w].
  - reflexivity.
  - rewrite join_arrow_cons. cbn [map]. rewrite join_empty_cons.
    now rewrite append_assoc.
Qed.

Lemma isBoxKey_head k :
  isBoxKey k = true -> exists c k', k = String c k' /\ c <> "-"%char.
Proof.
  unfold isBoxKey, dashFree. intros H. apply andb_true_iff in H.
  destruct H as [Hlen Hd]. destruct k as [|c k']; [discriminate Hlen|].
  exists c, k'. split; [reflexivity|]. simpl in Hd.
  apply andb_true_iff in Hd. destruct Hd as [Hc _].
  intros ->. discriminate Hc.
Qed.

(** Chains of words made of box keys can be read back from their key. *)
Lemma chainKey_inj : forall n (ws ws' : list (list string)),
  length (concat ws) = n ->
  Forall (fun w => w <> [] /\ forallb isBoxKey w = true) ws ->
  Forall (fun w => w <> [] /\ forallb isBoxKey w = true) ws' ->
  join "" (map (join "->") ws) = join "" (map (join "->") ws') ->
  ws = ws'.
Proof.
  induction n as [|n IH]; intros ws ws' Hn Hws Hws' E.
  - destruct ws as [|[|k w] rest].
    + destruct ws' as [|[|k' w'] rest']; [reflexivity| |].
      * inversion Hws' as [|? ? [Hne _] _]. congruence.
      * inversion Hws' as [|? ? [_ Hk] _]; subst. simpl in Hk.
        apply andb_true_iff in Hk. destruct Hk as [Hk _].
        apply isBoxKey_head in Hk. destruct Hk as [c [k'' [-> _]]].
        rewrite chainKey_cons in E. discriminate E.
    + inversion Hws as [|? ? [Hne _] _]. congruence.
    + discriminate Hn.
  - destruct ws as [|[|k w] rest]; [discriminate Hn| |].
    { inversion Hws as [|? ? [Hne _] _]. congruence. }
    destruct ws' as [|[|k' w'] rest'].
    { inversion Hws as [|? ? [_ Hk] _]; subst. simpl in Hk.
      apply andb_true_iff in Hk. destruct Hk as [Hk _].
      apply isBoxKey_head in Hk. destruct Hk as [c [k'' [-> _]]].
      rewrite chainKey_cons in E. discriminate E. }
    { inversion Hws' as [|? ? [Hne _] _]. congruence. }
    inversion Hws as [|? ? [_ Hkw] Hrest]; subst.
    inversion Hws' as [|? ? [_ Hkw'] Hrest']; subst.
    simpl in Hkw, Hkw'. apply andb_true_iff in Hkw, Hkw'.
    destruct Hkw as [Hk Hw], Hkw' as [Hk' Hw'].
    rewrite !chainKey_cons in E.
    apply append_inj_length in E.
    2:{ unfold isBoxKey in Hk, Hk'. apply andb_true_iff in Hk, Hk'.
        destruct Hk as [Hk _], Hk' as [Hk' _]. apply Nat.eqb_eq in Hk, Hk'.
        congruence. }
    destruct E as [-> E]. simpl in Hn. inversion Hn as [Hn'].
    destruct w as [|k2 w], w' as [|k2' w'].
    + f_equal. apply IH; assumption.
    + exfalso. destruct rest as [|[|k3 w3] rest]; [discriminate E| |].
      * inversion Hrest as [|? ? [Hne _] _]. congruence.
      * inversion Hrest as [|? ? [_ Hk3] _]; subst. simpl in Hk3.
        apply andb_true_iff in Hk3. destruct Hk3 as [Hk3 _].
        apply isBoxKey_head in Hk3. destruct Hk3 as [c [k'' [-> Hc]]].
        rewrite (chainKey_cons (String c k'') w3 rest) in E.
        inversion E. congruence.
    + exfalso. destruct rest' as [|[|k3 w3] rest']; [discriminate E| |].
      * inversion Hrest' as [|? ? [Hne _] _]. congruence.
      * inversion Hrest' as [|? ? [_ Hk3] _]; subst. simpl in Hk3.
        apply andb_true_iff in Hk3. destruct Hk3 as [Hk3 _].
        apply isBoxKey_head in Hk3. destruct Hk3 as [c [k'' [-> Hc]]].
        rewrite (chainKey_cons (String c k'') w3 rest') in E.
        inversion E. congruence.
    + inversion E as [E'].
      assert (Heq : (k2 :: w) :: rest = (k2' :: w') :: rest').
      { apply IH; try assumption.
        - constructor; [split; [discriminate | exact Hw] | exact Hrest].
        - constructor; [split; [discriminate | exact Hw'] | exact Hrest']. }
      inversion Heq; subst. reflexivity.
Qed.

(** On the word graph of words made of box keys, a sequence of nodes can
    be read back from the key the exploration records for it. *)
Lemma createWordGraph_decodable words :
  boxKeyed words = true -> decodable (createWordGraph words).
Proof.
  intros Hk.
  assert (Hlift : forall p,
            Forall (fun k => In k (Graph.nodes (createWordGraph words))) p ->
            exists ws, p = map (join "->") ws
                       /\ Forall (fun w => w <> [] /\ forallb isBoxKey w = true) ws).
  { induction p as [|u p IH]; intros Hp.
    - exists []. split; [reflexivity | constructor].
    - inversion Hp as [|? ? Hu Hp']; subst.
      destruct (IH Hp') as [ws [-> Hws]].
      destruct (createWordGraph_keyed words u Hu) as [W [_ [HW <-]]].
      exists (nodeKeys W :: ws). split; [reflexivity|].
      constructor; [|exact Hws].
      unfold boxKeyed in Hk. rewrite forallb_forall in Hk. specialize (Hk W HW).
      apply andb_true_iff in Hk. destruct Hk as [Hne Hkeys].
      split; [destruct (nodeKeys W); [discriminate Hne | discriminate] | exact Hkeys]. }
  intros p q Hp Hq E.
  destruct (Hlift p Hp) as [ws [-> Hws]]. destruct (Hlift q Hq) as [ws' [-> Hws']].
  f_equal. now apply (chainKey_inj (length (concat ws))).
Qed.

Lemma setEdge_edges_NoDup {L} (g : Graph.Graph L) v w :
  NoDup (Graph.edgeObjs g) -> NoDup (Graph.edgeObjs (Graph.setEdge g v w)).
Proof.
  unfold Graph.setEdge. intros Hnd.
  destruct (Graph.hasEdge g v w) eqn:E; [assumption|].
  simpl. rewrite !ensureNode_edges.
  apply NoDup_app; [assumption | repeat constructor; intros [] |].
  intros e He [<-|[]]. apply hasEdge_In in He. congruence.
Qed.

Lemma createWordGraph_edges_NoDup words :
  NoDup (Graph.edgeObjs (createWordGraph words)).
Proof.
  rewrite createWordGraph_steps.
  assert (H : forall steps g,
            NoDup (Graph.edgeObjs g) ->
            NoDup (Graph.edgeObjs (fold_left wordStep steps g))).
  { induction steps as [|[sW eW] steps IH]; intros g Hg; simpl; [exact Hg|].
    apply IH. unfold wordStep.
    destruct (negb (String.eqb (wordKey sW) (wordKey eW))); [|exact Hg].
    now apply setEdge_edges_NoDup. }
  apply H. constructor.
Qed.

Lemma successors_NoDup {L} (g : Graph.Graph L) u :
  NoDup (Graph.edgeObjs g) -> NoDup (orEmpty (Graph.successors g u)).
Proof.
  intros Hnd. unfold Graph.successors.
  destruct (Graph.hasNode g u); simpl; [|constructor].
  apply NoDup_map_NoDup_ForallPairs; [|now apply NoDup_filter].
  intros [a b] [c d] Ha Hc E. apply filter_In in Ha, Hc. simpl in *.
  destruct Ha as [_ Ha], Hc as [_ Hc]. apply String.eqb_eq in Ha, Hc.
  congruence.
Qed.

Lemma isSuccessor_successors {L} (g : Graph.Graph L) u v :
  In u (Graph.nodes g) -> isSuccessor g u v = true ->
  In v (orEmpty (Graph.successors g u)).
Proof.
  intros Hu H. apply hasNode_nodes in Hu. unfold isSuccessor in H.
  apply existsb_exists in H. destruct H as [e [He E]].
  apply edge_eqb_eq in E. subst e.
  unfold Graph.successors. rewrite Hu. simpl.
  apply in_map_iff. exists (u, v). split; [reflexivity|].
  apply filter_In. split; [exact He | apply String.eqb_refl].
Qed.

Section SearchComplete.
Variable graph : Graph.Graph LetterBoxWord.
Variable minNumNodes : nat.
Hypothesis graph_labelled : allLabelled graph = true.
Hypothesis graph_decodable : decodable graph.
Hypothesis graph_edges : NoDup (Graph.edgeObjs graph).

Lemma recordable_inv path nodeKey nodeWord seenWords ext :
  Graph.node graph nodeKey = Some nodeWord ->
  allDefined (map (fun key => Graph.node graph key) path) = Some seenWords ->
  recordable graph minNumNodes path nodeKey ext = true ->
  hasNewNode nodeWord seenWords = true
  /\ match ext with
     | [] => (minNumNodes <=? coverage (seenWords ++ [nodeWord])) = true
     | v :: ext' =>
         (minNumNodes <=? coverage (seenWords ++ [nodeWord])) = false
         /\ isSuccessor graph nodeKey v = true
         /\ recordable graph minNumNodes (path ++ [nodeKey]) v ext' = true
     end.
Proof.
  intros Enode Eseen Hx.
  destruct ext as [|v ext]; simpl in Hx; rewrite Enode, Eseen in Hx;
    apply andb_true_iff in Hx; destruct Hx as [Hnew Hx]; (split; [exact Hnew|]).
  - exact Hx.
  - apply andb_true_iff in Hx. destruct Hx as [Hx Hrec].
    apply andb_true_iff in Hx. destruct Hx as [Hcov Hsucc].
    apply negb_true_iff in Hcov. auto.
Qed.

(** An exploration entered on a sequence of nodes of which no extension was
    recorded records every chain it is led to, and records only keys of
    extensions of that sequence. *)
Lemma exploreWordGraph_complete : forall fuel nodeKey path seenPaths solutions
    path' seenPaths' solutions',
  exploreWordGraph fuel nodeKey path graph seenPaths minNumNodes solutions
    = Some (Return (path', seenPaths', solutions')) ->
  In nodeKey (Graph.nodes graph) ->
  Forall (fun k => In k (Graph.nodes graph)) path ->
  freshChains graph seenPaths (path ++ [nodeKey]) ->
  incl solutions solutions'
  /\ seenChains graph seenPaths seenPaths' (path ++ [nodeKey])
  /\ forall ext chain,
       recordable graph minNumNodes path nodeKey ext = true ->
       allDefined (map (fun key => Graph.node graph key) (path ++ nodeKey :: ext))
       = Some chain ->
       In {| numSeenLetterNodes := coverage chain; letterBoxWordList := chain |}
          solutions'.
Proof.
  induction fuel as [|fuel IH]; intros nodeKey path seenPaths solutions
    path' seenPaths' solutions' E Hnode Hpath Hfresh; simpl in E; [discriminate|].
  assert (HP : Forall (fun k => In k (Graph.nodes graph)) (path ++ [nodeKey])).
  { apply Forall_app. split; [exact Hpath | now constructor]. }
  destruct (25 <? length path); [discriminate|].
  destruct (Graph.node graph nodeKey) as [nodeWord|] eqn:Enode; [|discriminate].
  destruct (allDefined (map (fun key => Graph.node graph key) path))
    as [seenWords|] eqn:Eseen; [|discriminate].
  assert (Ewords : allDefined (map (fun key => Graph.node graph key) (path ++ [nodeKey]))
                   = Some (seenWords ++ [nodeWord])).
  { rewrite map_app, allDefined_app, Eseen. simpl. now rewrite Enode. }
  pose proof (recordable_inv path nodeKey nodeWord seenWords) as Hrec.
  destruct (hasNewNode nodeWord seenWords) eqn:Hadds; simpl in E.
  2:{ inversion E; subst. split; [apply incl_refl|]. split.
      - intros k Hk. now left.
      - intros ext chain Hx _. destruct (Hrec ext Enode Eseen Hx). discriminate. }
  destruct (JsSet.has (join "" (path ++ [nodeKey])) seenPaths) eqn:Hseen.
  { exfalso. apply has_In in Hseen.
    apply (Hfresh _ Hseen HP []). now rewrite app_nil_r. }
  clear Hseen.
  set (seen1 := JsSet.add (join "" (path ++ [nodeKey])) seenPaths) in E.
  assert (Hs1 : forall k, In k seen1 ->
                  In k seenPaths \/ k = join "" (path ++ [nodeKey])).
  { intros k Hk. apply add_In in Hk. tauto. }
  clearbody seen1.
  destruct (minNumNodes <=? JsSet.size (letterNodesOf (seenWords ++ [nodeWord])))
    eqn:Hcov.
  - inversion E; subst. split; [apply incl_appl, incl_refl|]. split.
    + intros k Hk. destruct (Hs1 k Hk) as [H| ->]; [now left|].
      right. exists []. split; [now rewrite app_nil_r | constructor].
    + intros ext chain Hx Hd. destruct (Hrec ext Enode Eseen Hx) as [_ Hext].
      destruct ext as [|v ext].
      * rewrite Ewords in Hd. inversion Hd; subst.
        apply in_or_app. right. now left.
      * destruct Hext as [Hno _]. unfold coverage in Hno. congruence.
  - match type of E with
    | match ?loop with _ => _ end = _ =>
        destruct loop as [[[[p sp] sols]|e]|] eqn:Eloop
    end; try discriminate.
    inversion E; subst. clear E.
    pose (Inv := fun (done : list string) (sp0 : list string)
                     (sols0 : list LetterBoxSolution) =>
      incl solutions sols0
      /\ (forall k, In k sp0 ->
            In k seenPaths \/ k = join "" (path ++ [nodeKey])
            \/ exists v ext, In v done
                 /\ k = join "" ((path ++ [nodeKey]) ++ v :: ext)
                 /\ Forall (fun k => In k (Graph.nodes graph)) ext)
      /\ (forall v ext chain, In v done ->
            recordable graph minNumNodes (path ++ [nodeKey]) v ext = true ->
            allDefined (map (fun key => Graph.node graph key)
                            ((path ++ [nodeKey]) ++ v :: ext)) = Some chain ->
            In {| numSeenLetterNodes := coverage chain; letterBoxWordList := chain |}
               sols0)).
    assert (Hloop : forall nbs done sp0 sols0 p1 sp1 sols1,
              NoDup (done ++ nbs) ->
              (forall x, In x (done ++ nbs) -> In x (Graph.nodes graph)) ->
              forEachT
                (fun neighborKey '(path, seenPaths, solutions) =>
                   exploreWordGraph fuel neighborKey path graph seenPaths
                                    minNumNodes solutions)
                nbs (path ++ [nodeKey], sp0, sols0) = Some (Return (p1, sp1, sols1)) ->
              Inv done sp0 sols0 -> Inv (done ++ nbs) sp1 sols1).
    { induction nbs as [|x nbs IHn]; intros done sp0 sols0 p1 sp1 sols1 Hnd Hnodes El HI.
      - simpl in El. inversion El; subst. now rewrite app_nil_r.
      - simpl in El.
        destruct (exploreWordGraph fuel x (path ++ [nodeKey]) graph sp0 minNumNodes sols0)
          as [[[[p2 sp2] sols2]|e]|] eqn:Ev; try discriminate.
        pose proof (exploreWordGraph_sound _ _ _ _ _ _ _ _ _ _ Ev) as [-> _].
        destruct HI as [HIw [HIk HIf]].
        assert (Hx : In x (Graph.nodes graph)).
        { apply Hnodes. apply in_or_app. right. now left. }
        assert (Hxd : ~ In x done).
        { intros Hin. apply NoDup_remove_2 in Hnd. apply Hnd.
          apply in_or_app. now left. }
        destruct (IH _ _ _ _ _ _ _ Ev Hx HP) as [Hinc [Hbelow Hfound]].
        { intros q Hq Hqn r Eq.
          destruct (HIk _ Hq) as [Hin|[Ej|[v [ext [Hv [Ej Hext]]]]]].
          - apply (Hfresh q Hin Hqn ([x] ++ r)).
            now rewrite Eq, <- app_assoc.
          - apply graph_decodable in Ej; try assumption. rewrite Ej in Eq.
            apply (f_equal (@length string)) in Eq.
            rewrite !length_app in Eq. simpl in Eq. lia.
          - apply graph_decodable in Ej; try assumption.
            + rewrite Ej in Eq.
              rewrite <- (app_assoc (path ++ [nodeKey]) [x] r) in Eq.
              apply app_inv_head in Eq.
              simpl in Eq. inversion Eq; subst. contradiction.
            + apply Forall_app. split; [exact HP|]. constructor; [|exact Hext].
              apply Hnodes. apply in_or_app. now left. }
        replace (done ++ x :: nbs) with ((done ++ [x]) ++ nbs)
          by (now rewrite <- app_assoc).
        apply (IHn (done ++ [x]) sp2 sols2 p1 sp1 sols1).
        + now rewrite <- app_assoc.
        + intros y Hy. apply Hnodes. now rewrite <- app_assoc in Hy.
        + exact El.
        + split; [eapply incl_tran; eassumption|]. split.
          * intros k Hk. destruct (Hbelow k Hk) as [Hin|[ext [-> Hext]]].
            -- destruct (HIk k Hin) as [H|[H|[v [ext [Hv H]]]]]; auto.
               right. right. exists v, ext. split; [|exact H].
               apply in_or_app. now left.
            -- right. right. exists x, ext.
               split; [apply in_or_app; right; now left|].
               split; [now rewrite <- app_assoc | exact Hext].
          * intros v ext chain Hv Hex Hd. apply in_app_or in Hv.
            destruct Hv as [Hv|[<-|[]]].
            -- apply Hinc. now apply (HIf v ext).
            -- now apply (Hfound ext). }
    assert (HI : Inv ([] ++ orEmpty (Graph.successors graph nodeKey))
                     seenPaths' solutions').
    { apply (Hloop _ [] seen1 solutions p seenPaths' solutions').
      - now apply successors_NoDup.
      - intros x Hx. now apply (allLabelled_successor graph nodeKey).
      - exact Eloop.
      - split; [apply incl_refl|]. split.
        + intros k Hk. destruct (Hs1 k Hk); auto.
        + intros v ext chain []. }
    simpl in HI. destruct HI as [HIw [HIk HIf]].
    split; [exact HIw|]. split.
    + intros k Hk. destruct (HIk k Hk) as [H|[->|[v [ext [Hv [-> Hext]]]]]].
      * now left.
      * right. exists []. split; [now rewrite app_nil_r | constructor].
      * right. exists (v :: ext). split; [reflexivity|].
        constructor; [|exact Hext].
        now apply (allLabelled_successor graph nodeKey).
    + intros ext chain Hx Hd. destruct (Hrec ext Enode Eseen Hx) as [_ Hext].
      destruct ext as [|v ext].
      * unfold coverage in Hext. congruence.
      * destruct Hext as [_ [Hsucc Hrest]].
        replace (path ++ nodeKey :: v :: ext) with ((path ++ [nodeKey]) ++ v :: ext)
          in Hd by (now rewrite <- app_assoc).
        apply (HIf v ext chain); try assumption.
        now apply isSuccessor_successors.
Qed.

(** The Solution Search records every chain an exploration from one of its
    start nodes is led to. *)
Lemma findSolutions_explores fuel : forall nodes sols0 sols,
  (forall x, In x nodes -> In x (Graph.nodes graph)) ->
  forEachT (exploreFrom fuel graph minNumNodes) nodes sols0 = Some (Return sols) ->
  incl sols0 sols
  /\ forall x ext chain, In x nodes ->
       recordable graph minNumNodes [] x ext = true ->
       allDefined (map (fun key => Graph.node graph key) (x :: ext)) = Some chain ->
       In {| numSeenLetterNodes := coverage chain; letterBoxWordList := chain |} sols.
Proof.
  induction nodes as [|y nodes IH]; intros sols0 sols Hnodes E; simpl in E.
  - inversion E; subst. split; [apply incl_refl | intros x ext chain []].
  - unfold exploreFrom at 1 in E.
    destruct (exploreWordGraph fuel y [] graph [] minNumNodes sols0)
      as [[[[p sp] sols1]|e]|] eqn:Ev; try discriminate.
    destruct (IH _ _ (fun x Hx => Hnodes x (or_intror Hx)) E) as [Hinc Hfound].
    destruct (exploreWordGraph_complete _ _ _ _ _ _ _ _ Ev
                (Hnodes y (or_introl eq_refl)) (Forall_nil _))
      as [Hinc1 [_ Hfound1]].
    { intros q []. }
    split; [eapply incl_tran; eassumption|].
    intros x ext chain [<-|Hx] Hex Hd; [|now apply (Hfound x ext)].
    apply Hinc. now apply (Hfound1 ext).
Qed.

(** A chain that follows the edges, grows with every word and meets the
    target at its last word and not before is one the exploration is led
    to. *)
Lemma recordable_chain : forall ext path nodeKey seenWords rest,
  allDefined (map (fun key => Graph.node graph key) path) = Some seenWords ->
  allDefined (map (fun key => Graph.node graph key) (nodeKey :: ext)) = Some rest ->
  growingFrom seenWords rest = true ->
  succChain graph nodeKey ext = true ->
  minNumNodes <= coverage (seenWords ++ rest) ->
  (forall n, 0 < n -> n < length rest ->
             coverage (seenWords ++ firstn n rest) < minNumNodes) ->
  recordable graph minNumNodes path nodeKey ext = true.
Proof.
  induction ext as [|v ext IH]; intros path nodeKey seenWords rest Eseen Erest
    Hgrow Hsucc Hcov Hpre;
    rewrite allDefined_map_cons in Erest;
    destruct (Graph.node graph nodeKey) as [w|] eqn:Enode; try discriminate.
  - simpl in Erest. inversion Erest; subst rest. simpl in Hgrow.
    apply andb_true_iff in Hgrow. destruct Hgrow as [Hnew _].
    simpl. rewrite Enode, Eseen, Hnew. simpl. now apply Nat.leb_le.
  - destruct (allDefined (map (fun key => Graph.node graph key) (v :: ext)))
      as [rest'|] eqn:Erest'; [|discriminate].
    inversion Erest; subst rest. simpl in Hgrow.
    apply andb_true_iff in Hgrow. destruct Hgrow as [Hnew Hgrow].
    simpl in Hsucc. apply andb_true_iff in Hsucc. destruct Hsucc as [Hs Hsucc].
    assert (Hlen : 0 < length rest').
    { rewrite (allDefined_length _ _ Erest'). simpl. lia. }
    cbn [recordable]. rewrite Enode, Eseen, Hnew, Hs. cbn [andb].
    rewrite andb_true_r. apply andb_true_iff. split.
    + apply negb_true_iff, Nat.leb_gt.
      apply (Hpre 1); [lia | simpl; lia].
    + apply (IH (path ++ [nodeKey]) v (seenWords ++ [w]) rest');
        try assumption.
      * rewrite map_app, allDefined_app, Eseen. simpl. now rewrite Enode.
      * now rewrite <- app_assoc.
      * intros n Hn Hn'. rewrite <- app_assoc.
        apply (Hpre (S n)); simpl; lia.
Qed.
End SearchComplete.

(** X20. On the word graph of words made of box keys, a returning Solution
    Search misses nothing: it records every chain of nodes that starts on a
    node, follows the edges, brings a new letter node with every word, and
    covers the target number of letter nodes at its last word and not
    before. *)
Theorem createWordGraph_solutions_complete fuel words minNumNodes sols keys chain :
  boxKeyed words = true ->
  findSolutions fuel (createWordGraph words) minNumNodes = Some (Return sols) ->
  isChainOf (createWordGraph words) keys = true ->
  allDefined (map (fun key => Graph.node (createWordGraph words) key) keys)
  = Some chain ->
  growing chain = true ->
  minNumNodes <= coverage chain ->
  (forall n, 0 < n -> n < length chain -> coverage (firstn n chain) < minNumNodes) ->
  In {| numSeenLetterNodes := coverage chain; letterBoxWordList := chain |} sols.
Proof.
  intros Hk E Hchain Hd Hgrow Hcov Hpre.
  destruct keys as [|x ext]; [discriminate Hchain|].
  simpl in Hchain. apply andb_true_iff in Hchain. destruct Hchain as [Hx Hsucc].
  apply hasNode_nodes in Hx. unfold findSolutions in E.
  destruct (findSolutions_explores (createWordGraph words) minNumNodes
              (createWordGraph_allLabelled words)
              (createWordGraph_decodable words Hk)
              (createWordGraph_edges_NoDup words)
              fuel _ _ _ (fun x H => H) E) as [_ Hfound].
  apply (Hfound x ext chain Hx); [|exact Hd].
  now apply (recordable_chain (createWordGraph words) minNumNodes ext [] x [] chain).
Qed.

Lemma createWordGraph_solutions_complete_witness :
  boxKeyed (filterWordsInLetterBox
              (orEmpty (findWords 5 (createTrie exampleWords)
                                  (createLetterBoxGraph exampleBox)))) = true
  /\ isChainOf exampleWordGraph
       ["01:c->11:d->00:a"; "00:a->10:b->01:c->11:d"] = true
  /\ exists sols,
       findSolutions 27 exampleWordGraph 4 = Some (Return sols)
       /\ In {| numSeenLetterNodes := 4;
                letterBoxWordList :=
                  [{| word := "cda"; nodeKeys := ["01:c"; "11:d"; "00:a"] |};
                   {| word := "abcd";
                      nodeKeys := ["00:a"; "10:b"; "01:c"; "11:d"] |}] |} sols.
Proof.
  split; [vm_compute; reflexivity|]. split; [vm_compute; reflexivity|].
  eexists. split; [vm_compute; reflexivity|].
  apply (createWordGraph_solutions_complete 27
           (filterWordsInLetterBox
              (orEmpty (findWords 5 (createTrie exampleWords)
                                  (createLetterBoxGraph exampleBox))))
           4 _ ["01:c->11:d->00:a"; "00:a->10:b->01:c->11:d"]
           [{| word := "cda"; nodeKeys := ["01:c"; "11:d"; "00:a"] |};
            {| word := "abcd"; nodeKeys := ["00:a"; "10:b"; "01:c"; "11:d"] |}]).
  - vm_compute. reflexivity.
  - vm_compute. reflexivity.
  - vm_compute. reflexivity.
  - vm_compute. reflexivity.
  - vm_compute. reflexivity.
  - vm_compute. lia.
  - intros n H1 H2. simpl in H2. assert (n = 1) by lia. subst n.
    vm_compute. lia.
Defined.

(** ** Words the word graph leaves out *)

(** X21. A word that links with no word of the set, neither ending where
    one starts nor starting where one ends, is in no chain a returning
    Solution Search records, whatever it covers: the Word Graph Builder
    makes a node only of a word it finds in a pair. *)
Theorem createWordGraph_unlinked_word_in_no_solution fuel words minNumNodes sols W :
  keyedWords words = true -> In W words ->
  (forall X, In X words -> lastKey X <> firstKey W /\ lastKey W <> firstKey X) ->
  findSolutions fuel (createWordGraph words) minNumNodes = Some (Return sols) ->
  Forall (fun s => ~ In W (letterBoxWordList s)) sols.
Proof.
  intros Hk HW Hun E. apply findSolutions_chainBelow in E.
  eapply Forall_impl; [|exact E].
  intros s [x [_ [ext [Hd _]]]] Hin.
  eapply allDefined_In in Hin; [|exact Hd]. apply in_map_iff in Hin.
  destruct Hin as [u [Hu _]].
  pose proof (createWordGraph_selfKeyed words u W Hu) as Hkey.
  apply node_nodes, createWordGraph_nodes_steps in Hu.
  destruct Hu as [[sW eW] [Hit Hu]]. apply wordSteps_In in Hit.
  destruct Hit as [Hs [He Hlink]]. simpl in Hu. rewrite <- Hkey in Hu.
  destruct Hu as [Hu|Hu].
  - apply (keyedWords_wordKey words W sW Hk HW Hs) in Hu.
    destruct (Hun eW He) as [Hno _]. apply Hno.
    unfold firstKey. now rewrite Hu.
  - apply (keyedWords_wordKey words W eW Hk HW He) in Hu.
    destruct (Hun sW Hs) as [_ Hno]. apply Hno.
    unfold lastKey. now rewrite Hu.
Qed.

Lemma createWordGraph_unlinked_word_in_no_solution_witness :
  coverage [{| word := "abcd"; nodeKeys := ["00:a"; "10:b"; "01:c"; "11:d"] |}] = 4
  /\ findSolutions 27
       (createWordGraph
          [{| word := "abcd"; nodeKeys := ["00:a"; "10:b"; "01:c"; "11:d"] |}]) 4
     = Some (Return [])
  /\ Forall (fun s =>
               ~ In {| word := "abcd"; nodeKeys := ["00:a"; "10:b"; "01:c"; "11:d"] |}
                    (letterBoxWordList s)) [].
Proof.
  split; [reflexivity|]. split; [vm_compute; reflexivity|].
  apply (createWordGraph_unlinked_word_in_no_solution 27
           [{| word := "abcd"; nodeKeys := ["00:a"; "10:b"; "01:c"; "11:d"] |}] 4 []
           {| word := "abcd"; nodeKeys := ["00:a"; "10:b"; "01:c"; "11:d"] |}).
  - reflexivity.
  - now left.
  - intros X [<-|[]]. split; discriminate.
  - vm_compute. reflexivity.
Defined.

(** ** The pipeline reports every chain of linked words *)

Lemma boxKeyed_keyedWords words : boxKeyed words = true -> keyedWords words = true.
Proof.
  unfold boxKeyed, keyedWords. intros H. apply forallb_forall. intros w Hw.
  rewrite forallb_forall in H. specialize (H w Hw).
  apply andb_true_iff in H. destruct H as [Hne Hkeys].
  rewrite Hne. simpl. apply forallb_forall. intros k Hk.
  rewrite forallb_forall in Hkeys. specialize (Hkeys k Hk).
  unfold isBoxKey in Hkeys. now apply andb_true_iff in Hkeys.
Qed.

Lemma letterKey_isBoxKey i p l :
  i < 10 -> p < 10 -> isLetter l = true -> dashFree l = true ->
  isBoxKey (letterKey i p l) = true.
Proof.
  intros Hi Hp Hl Hd. unfold isBoxKey.
  rewrite (letterKey_dashFree i p l Hd), andb_true_r.
  unfold letterKey. rewrite !string_of_nat_digit by assumption.
  destruct (isLetter_facts l Hl) as [Hlen _]. simpl. now rewrite Hlen.
Qed.

(** On a box of at most ten sides of at most ten one-character letters,
    none of them a dash, the words of the pipeline are made of box keys. *)
Lemma pipeline_boxKeyed fuel trie sides words :
  smallBox sides = true ->
  forallb (forallb isLetter) sides = true ->
  forallb (forallb dashFree) sides = true ->
  findWords fuel trie (createLetterBoxGraph sides) = Some words ->
  boxKeyed (filterWordsInLetterBox words) = true.
Proof.
  intros Hsmall Hlet Hdash E. unfold boxKeyed. apply forallb_forall. intros w Hw.
  apply filterWordsInLetterBox_In in Hw.
  apply findWords_nodeKeys in E; [|apply createLetterBoxGraph_edgesClosed].
  rewrite Forall_forall in E. destruct (E w Hw) as [Hne Hkeys].
  apply andb_true_iff. split; [destruct (nodeKeys w); congruence|].
  apply forallb_forall. intros k Hk.
  rewrite Forall_forall in Hkeys. specialize (Hkeys k Hk).
  destruct (createLetterBoxGraph_labelled sides k Hkeys) as [i [p [l [Hl [-> _]]]]].
  destruct (smallBox_bounds sides i p l Hsmall Hl) as [Hi Hp].
  unfold letterAt in Hl.
  destruct (nth_error sides i) as [side|] eqn:Es; [|discriminate].
  apply nth_error_In in Es, Hl.
  rewrite forallb_forall in Hlet, Hdash.
  specialize (Hlet side Es). specialize (Hdash side Es).
  rewrite forallb_forall in Hlet, Hdash.
  apply letterKey_isBoxKey; auto.
Qed.

Lemma NoDup_map_eq {A B} (f : A -> B) (l : list A) a b :
  NoDup (map f l) -> In a l -> In b l -> f a = f b -> a = b.
Proof.
  induction l as [|x l IH]; simpl; intros Hnd Ha Hb E; [destruct Ha|].
  inversion Hnd as [|? ? Hx Hl]; subst.
  destruct Ha as [->|Ha], Hb as [->|Hb]; auto.
  - exfalso. apply Hx. rewrite E. now apply in_map.
  - exfalso. apply Hx. rewrite <- E. now apply in_map.
Qed.

Lemma hasNewNode_differs w seen a :
  hasNewNode w seen = true -> In a seen -> nodeKeys a <> nodeKeys w.
Proof.
  intros H Ha E. apply hasNewNode_true in H. destruct H as [k [Hk Hn]].
  apply Hn. apply letterNodesOf_In. exists a. split; [exact Ha|]. now rewrite E.
Qed.

Section LinkedChains.
Variable words : list LetterBoxWord.
Hypothesis words_keyed : keyedWords words = true.
Hypothesis words_distinct :
  forall a b, In a words -> In b words -> nodeKeys a = nodeKeys b -> a = b.

(** A word that is a node of the word graph is the label of its node. *)
Lemma createWordGraph_label W :
  In W words -> In (wordKey W) (Graph.nodes (createWordGraph words)) ->
  Graph.node (createWordGraph words) (wordKey W) = Some W.
Proof.
  intros HW Hin.
  destruct (createWordGraph_keyed words _ Hin) as [W' [E [HW' Hkey]]].
  rewrite E. f_equal. apply words_distinct; try assumption.
  now apply (keyedWords_wordKey words W' W words_keyed HW' HW).
Qed.

Lemma createWordGraph_linked_nodes a b :
  In a words -> In b words -> lastKey a = firstKey b ->
  In (wordKey a) (Graph.nodes (createWordGraph words))
  /\ In (wordKey b) (Graph.nodes (createWordGraph words)).
Proof.
  intros Ha Hb Hl.
  split; apply createWordGraph_nodes_steps; exists (b, a);
    (split; [apply wordSteps_In; auto|]); simpl; auto.
Qed.

Lemma createWordGraph_linked_successor a b :
  In a words -> In b words -> lastKey a = firstKey b ->
  nodeKeys a <> nodeKeys b ->
  isSuccessor (createWordGraph words) (wordKey a) (wordKey b) = true.
Proof.
  intros Ha Hb Hl Hne.
  assert (H : Graph.hasEdge (createWordGraph words) (wordKey a) (wordKey b) = true).
  { apply createWordGraph_hasEdge. exists a, b. repeat split; try assumption.
    intros E. apply Hne.
    now apply (keyedWords_wordKey words a b words_keyed Ha Hb). }
  apply hasEdge_In in H. rewrite createWordGraph_directed in H.
  unfold isSuccessor. apply existsb_exists. eexists. split; [exact H|].
  now apply edge_eqb_eq.
Qed.

(** A linked, growing chain of words of the set lies in the word graph:
    its words label the nodes of their keys, and each key is a successor of
    the one before. *)
Lemma linkedChain_in_graph : forall rest a seen,
  In a words -> Forall (fun w => In w words) rest ->
  In (wordKey a) (Graph.nodes (createWordGraph words)) ->
  linkedFrom a rest = true ->
  growingFrom seen (a :: rest) = true ->
  allDefined (map (fun key => Graph.node (createWordGraph words) key)
                  (map wordKey (a :: rest))) = Some (a :: rest)
  /\ succChain (createWordGraph words) (wordKey a) (map wordKey rest) = true.
Proof.
  induction rest as [|b rest IH]; intros a seen Ha Hrest Hnode Hl Hg.
  - simpl. rewrite (createWordGraph_label a Ha Hnode). auto.
  - inversion Hrest as [|? ? Hb Hrest']; subst.
    simpl in Hl. apply andb_true_iff in Hl. destruct Hl as [Hab Hl].
    apply okey_eqb_eq in Hab.
    simpl in Hg. apply andb_true_iff in Hg. destruct Hg as [_ Hg].
    assert (Hne : nodeKeys a <> nodeKeys b).
    { simpl in Hg. apply andb_true_iff in Hg. destruct Hg as [Hnew _].
      apply (hasNewNode_differs b (seen ++ [a]) a Hnew).
      apply in_or_app. right. now left. }
    destruct (createWordGraph_linked_nodes a b Ha Hb Hab) as [_ Hnb].
    destruct (IH b (seen ++ [a]) Hb Hrest' Hnb Hl Hg) as [Hd Hs].
    split.
    + change (map wordKey (a :: b :: rest)) with (wordKey a :: map wordKey (b :: rest)).
      rewrite allDefined_map_cons, (createWordGraph_label a Ha Hnode), Hd.
      reflexivity.
    + cbn [map succChain]. rewrite Hs, andb_true_r.
      now apply createWordGraph_linked_successor.
Qed.
End LinkedChains.

(** X22. On a box of at most ten sides of at most ten one-character
    letters, none a space or a dash, the pipeline misses no chain of two
    words or more: when it returns, its solutions hold every chain of words
    kept by the filter in which each word starts on the letter node the
    word before it ends on, each word brings a new letter node, and all the
    letter nodes of the box are covered at the last word and not before. *)
Theorem solve_complete fuel sides allWords found sols chain :
  smallBox sides = true ->
  forallb (forallb isLetter) sides = true ->
  forallb (forallb dashFree) sides = true ->
  findWords fuel (createTrie allWords) (createLetterBoxGraph sides) = Some found ->
  solve fuel sides allWords = Some (Return sols) ->
  2 <= length chain ->
  Forall (fun w => In w (filterWordsInLetterBox found)) chain ->
  linkedChain chain = true ->
  growing chain = true ->
  Graph.nodeCount (createLetterBoxGraph sides) <= coverage chain ->
  (forall n, 0 < n -> n < length chain ->
             coverage (firstn n chain) < Graph.nodeCount (createLetterBoxGraph sides)) ->
  In {| numSeenLetterNodes := coverage chain; letterBoxWordList := chain |} sols.
Proof.
  intros Hsmall Hlet Hdash Efind E Hlen Hin Hlink Hgrow Hcov Hpre.
  unfold solve in E. rewrite Efind in E.
  pose proof (pipeline_boxKeyed _ _ _ _ Hsmall Hlet Hdash Efind) as Hbk.
  pose proof (boxKeyed_keyedWords _ Hbk) as Hk.
  assert (Huniq : forall a b,
            In a (filterWordsInLetterBox found) ->
            In b (filterWordsInLetterBox found) ->
            nodeKeys a = nodeKeys b -> a = b).
  { intros a b Ha Hb. apply filterWordsInLetterBox_In in Ha, Hb.
    unfold findWords in Efind.
    destruct (findWords_distinct _ _ _ _ _ _ (createLetterBoxGraph_NoDup sides) Efind)
      as [new [-> [Hnd _]]].
    now apply (NoDup_map_eq nodeKeys new a b). }
  destruct chain as [|a [|b rest]]; simpl in Hlen; try lia.
  inversion Hin as [|? ? Ha Hin']; subst.
  inversion Hin' as [|? ? Hb _]; subst.
  assert (Hab : lastKey a = firstKey b).
  { simpl in Hlink. apply andb_true_iff in Hlink. destruct Hlink as [Hab _].
    now apply okey_eqb_eq in Hab. }
  destruct (createWordGraph_linked_nodes _ a b Ha Hb Hab) as [Hna _].
  destruct (linkedChain_in_graph _ Hk Huniq (b :: rest) a [] Ha Hin' Hna Hlink Hgrow)
    as [Hd Hs].
  unfold findSolutions in E.
  destruct (findSolutions_explores (createWordGraph (filterWordsInLetterBox found))
              (Graph.nodeCount (createLetterBoxGraph sides))
              (createWordGraph_allLabelled _)
              (createWordGraph_decodable _ Hbk)
              (createWordGraph_edges_NoDup _)
              fuel _ _ _ (fun x H => H) E) as [_ Hfound].
  apply (Hfound (wordKey a) (map wordKey (b :: rest)) (a :: b :: rest) Hna);
    [|exact Hd].
  now apply (recordable_chain (createWordGraph (filterWordsInLetterBox found))
               (Graph.nodeCount (createLetterBoxGraph sides))
               (map wordKey (b :: rest)) [] (wordKey a) [] (a :: b :: rest)).
Qed.

Lemma solve_complete_witness :
  smallBox exampleBox = true
  /\ forallb (forallb isLetter) exampleBox = true
  /\ forallb (forallb dashFree) exampleBox = true
  /\ exists sols,
       solve 27 exampleBox exampleWords = Some (Return sols)
       /\ In {| numSeenLetterNodes := 4;
                letterBoxWordList :=
                  [{| word := "cda"; nodeKeys := ["01:c"; "11:d"; "00:a"] |};
                   {| word := "abcd";
                      nodeKeys := ["00:a"; "10:b"; "01:c"; "11:d"] |}] |} sols.
Proof.
  split; [reflexivity|]. split; [reflexivity|]. split; [reflexivity|].
  eexists. split; [vm_compute; reflexivity|].
  apply (solve_complete 27 exampleBox exampleWords
           (orEmpty (findWords 27 (createTrie exampleWords)
                               (createLetterBoxGraph exampleBox)))
           _
           [{| word := "cda"; nodeKeys := ["01:c"; "11:d"; "00:a"] |};
            {| word := "abcd"; nodeKeys := ["00:a"; "10:b"; "01:c"; "11:d"] |}]).
  - reflexivity.
  - reflexivity.
  - reflexivity.
  - vm_compute. reflexivity.
  - vm_compute. reflexivity.
  - simpl. lia.
  - apply Forall_forall. intros w [<-|[<-|[]]]; vm_compute; auto.
  - vm_compute. reflexivity.
  - vm_compute. reflexivity.
  - vm_compute. lia.
  - intros n H1 H2. simpl in H2. assert (n = 1) by lia. subst n.
    vm_compute. lia.
Defined.
